(** * Claw2ClawHook: a shallow embedding of the P2P order-matching hook

    The Solidity contract [Claw2ClawHook] (a Uniswap v4 hook) keeps an order
    book per pool, escrows the maker's tokens, matches orders inside
    [beforeSwap], and lets anyone purge expired orders.  This file embeds
    the storage layout and every entry point of the contract as executable
    functions in a state-and-error monad, and proves the properties of the
    order book, the matching engine, the purge loop and the refund path.

    Conventions of the embedding:
    - [uint256], [uint128] and [address] values are [N]; [int256] and
      [int128] values are [Z].  Solidity 0.8 arithmetic reverts on overflow
      (a [Panic]); explicit casts between integer types wrap silently.  Both
      are written out where the contract relies on them.
    - a Solidity [mapping] is a [gmap] read with an explicit default, so
      that a missing key reads as the zero value of its type;
    - a dynamic storage array is a [list], indexed by [nat];
    - a revert discards every effect of the call: a reverted call returns
      [Revert e] and no machine;
    - the ERC-20 tokens and the pool manager are external contracts.  They
      are modelled by a token ledger with per-account freezes (a frozen
      account makes the token's transfer fail) and with the set of the
      tokens whose functions return no data instead of a [bool]; every
      currency of a pool key is taken to be such a token contract, and
      gas is not modelled.  Every external call is recorded in the log
      together with the hook's storage as the callee would observe it at
      that moment;
    - the callees never call back, so the [nonReentrant] modifier has
      nothing to do and is left out: every entry point runs to completion
      before the next one starts;
    - [address(this)] and the hash [keccak256(abi.encode(key))] are
      parameters of the contract, named [this] and [keccak256].

    Next to the contract the file embeds two pieces of code around it: the
    mock pool manager the contract's tests run against, and the helpers of
    the backend service that choose the pool key and the side flag of an
    order.

    The file is laid out as: the contract, the mock and the helpers; the
    vocabulary of the specification; a concrete world to run the contract
    in; the proofs; the claims; further properties. *)

From Stdlib Require String Ascii.
From Stdlib Require Import ZArith Lia List.
From stdpp Require Import base decidable option numbers list gmap fin_maps.

Local Open Scope N_scope.

(** ** Data model *)

Abbreviation address := N (only parsing).

Abbreviation bytes32 := N (only parsing).

Abbreviation uint256 := N (only parsing).

Abbreviation uint128 := N (only parsing).

(** [PoolKey] and [SwapParams] come from v4-core; the fields are the ones the
    deployment scripts and tests of the repository fill in. *)
Record PoolKey := mkPoolKey {
  currency0 : address;
  currency1 : address;
  fee : N;
  tickSpacing : Z;
  hooks : address
}.

Record SwapParams := mkSwapParams {
  zeroForOne : bool;
  amountSpecified : Z;
  sqrtPriceLimitX96 : N
}.

Record Order := mkOrder {
  maker : address;
  sellToken0 : bool;
  amountIn : uint128;
  minAmountOut : uint128;
  expiry : uint256;
  active : bool;
  poolId : bytes32
}.

(** The zero value of [Order], read from an unwritten mapping slot. *)
Definition zeroOrder : Order := mkOrder 0 false 0 0 0 false 0.

#[global] Instance Order_eq_dec : EqDecision Order.
Proof. solve_decision. Defined.

#[global] Instance PoolKey_eq_dec : EqDecision PoolKey.
Proof. solve_decision. Defined.

(** [order.active = false] on a storage reference. *)
Definition deactivate (o : Order) : Order :=
  mkOrder (maker o) (sellToken0 o) (amountIn o) (minAmountOut o) (expiry o)
          false (poolId o).

(** A pair of [int128] deltas; v4-core packs them into one [int256]. *)
Record BeforeSwapDelta := toBeforeSwapDelta {
  specifiedDelta : Z;
  unspecifiedDelta : Z
}.

Definition ZERO_DELTA : BeforeSwapDelta := toBeforeSwapDelta 0 0.

(** [IHooks.beforeSwap.selector] and [IHooks.afterSwap.selector]. *)
Definition beforeSwap_selector : N := 0x575e24b4.

Definition afterSwap_selector : N := 0xb47b2fb1.

Definition MAX_ORDER_DURATION : uint256 := 30 * 86400.

Definition MAX_ITERATIONS : nat := 100.

Definition UINT256_MAX : N := 2 ^ 256 - 1.

Definition INT128_MAX : Z := (2 ^ 127 - 1)%Z.

Definition INT128_MIN : Z := (- 2 ^ 127)%Z.

Definition INT256_MIN : Z := (- 2 ^ 255)%Z.

(** Contract storage.  [poolManager] is immutable: no entry point writes
    it. *)
Record State := mkState {
  admin : address;
  pendingAdmin : address;
  poolManager : address;
  allowedBots : gmap address bool;
  nextOrderId : uint256;
  orders : gmap N Order;
  poolOrders : gmap bytes32 (list N);
  unclaimedBalances : gmap (address * address) N
}.

Definition set_admin (a : address) (s : State) : State :=
  mkState a (pendingAdmin s) (poolManager s) (allowedBots s) (nextOrderId s)
          (orders s) (poolOrders s) (unclaimedBalances s).

Definition set_pendingAdmin (a : address) (s : State) : State :=
  mkState (admin s) a (poolManager s) (allowedBots s) (nextOrderId s)
          (orders s) (poolOrders s) (unclaimedBalances s).

Definition set_allowedBots (b : gmap address bool) (s : State) : State :=
  mkState (admin s) (pendingAdmin s) (poolManager s) b (nextOrderId s)
          (orders s) (poolOrders s) (unclaimedBalances s).

Definition set_nextOrderId (n : uint256) (s : State) : State :=
  mkState (admin s) (pendingAdmin s) (poolManager s) (allowedBots s) n
          (orders s) (poolOrders s) (unclaimedBalances s).

Definition set_orders (o : gmap N Order) (s : State) : State :=
  mkState (admin s) (pendingAdmin s) (poolManager s) (allowedBots s)
          (nextOrderId s) o (poolOrders s) (unclaimedBalances s).

Definition set_poolOrders (p : gmap bytes32 (list N)) (s : State) : State :=
  mkState (admin s) (pendingAdmin s) (poolManager s) (allowedBots s)
          (nextOrderId s) (orders s) p (unclaimedBalances s).

Definition set_unclaimedBalances (u : gmap (address * address) N) (s : State)
  : State :=
  mkState (admin s) (pendingAdmin s) (poolManager s) (allowedBots s)
          (nextOrderId s) (orders s) (poolOrders s) u.

(** Storage reads. *)
Definition orderAt (s : State) (id : N) : Order :=
  default zeroOrder (orders s !! id).

Definition idsOf (s : State) (pid : bytes32) : list N :=
  default [] (poolOrders s !! pid).

Definition isBot (s : State) (a : address) : bool :=
  default false (allowedBots s !! a).

Definition unclaimedOf (s : State) (owner token : address) : N :=
  default 0 (unclaimedBalances s !! (owner, token)).

(** The state the constructor leaves behind. *)
Definition constructor (_admin _poolManager : address) : State :=
  mkState _admin 0 _poolManager ∅ 0 ∅ ∅ ∅.

(** ** The token ledger (the ERC-20 contracts the hook talks to) *)

Record Ledger := mkLedger {
  balances : gmap (address * address) N;   (* (token, holder) *)
  frozen : gset (address * address);       (* (token, account) *)
  noReturn : gset address      (* tokens whose calls return no data *)
}.

Definition balanceOf (w : Ledger) (token holder : address) : N :=
  default 0 (balances w !! (token, holder)).

Definition isFrozen (w : Ledger) (token a : address) : bool :=
  bool_decide ((token, a) ∈ frozen w).

(** Whether [token] is one of the tokens that return no data: its
    [transfer] signals failure by reverting and success by returning
    nothing. *)
Definition returnsNoData (w : Ledger) (token : address) : bool :=
  bool_decide (token ∈ noReturn w).

(** A token transfer: fails when either side is frozen or the sender's
    balance is too small; otherwise moves the amount. *)
Definition erc20_transfer (token from to : address) (amt : N) (w : Ledger)
  : option Ledger :=
  if isFrozen w token from || isFrozen w token to then None
  else if balanceOf w token from <? amt then None
  else
    let b1 := <[(token, from) := balanceOf w token from - amt]> (balances w) in
    let b2 := <[(token, to) := default 0 (b1 !! (token, to)) + amt]> b1 in
    Some (mkLedger b2 (frozen w) (noReturn w)).

(** ** Errors, events, external calls *)

Inductive Error :=
  | NotAdmin | NotWhitelisted | HookNotImplemented | OrderNotFound
  | OrderNotActive | Unauthorized | ExactInputOnly | AmountOverflow
  | InvalidAmounts | InvalidDuration | TransferFailed | OnlyPoolManager
  | ZeroAddress | PoolMismatch | DurationTooLong | NotPendingAdmin
  | Panic                (* checked arithmetic overflow *)
  | SafeERC20Failed      (* SafeERC20 rejecting a failed token call *)
  | CalleeReverted       (* a revert bubbling up from the pool manager *)
  | DecodeFailed         (* return data that does not decode: a revert
                            with empty data *).

Inductive Event :=
  | OrderPosted (orderId : N) (mk : address) (sell0 : bool)
                (amtIn minOut : uint128) (exp : uint256)
  | OrderCancelled (orderId : N) (mk : address)
  | OrderExpired (orderId : N) (mk : address)
  | P2PTrade (orderId : N) (mk taker tokenIn tokenOut : address)
             (amtIn amtOut : uint128)
  | BotAdded (bot : address)
  | BotRemoved (bot : address)
  | AdminChanged (oldAdmin newAdmin : address)
  | PendingAdminSet (pending : address)
  | RefundFailed (orderId : N) (mk : address).

Inductive ExtCall :=
  | PMTake (currency to : address) (amount : N)
  | PMSync (currency : address)
  | PMSettle
  | TokenTransfer (token to : address) (amount : N)
  | TokenTransferFrom (token from to : address) (amount : N).

(** A log entry: an emitted event, or an external call with its outcome and
    the hook's storage at the time of the call. *)
Inductive LogItem :=
  | Emitted (e : Event)
  | External (c : ExtCall) (ok : bool) (seen : State).

(** ** The execution monad *)

Record Machine := mkMachine {
  st : State;
  ledger : Ledger;
  log : list LogItem
}.

Inductive Result (A : Type) :=
  | Ok (a : A) (m : Machine)
  | Revert (e : Error)
  | OutOfFuel.

Arguments Ok {A} a m.

Arguments Revert {A} e.

Arguments OutOfFuel {A}.

Definition M (A : Type) : Type := Machine → Result A.

Definition ret {A} (a : A) : M A := λ m, Ok a m.

Definition bind {A B} (c : M A) (k : A → M B) : M B :=
  λ m, match c m with
       | Ok a m' => k a m'
       | Revert e => Revert e
       | OutOfFuel => OutOfFuel
       end.

Definition revert {A} (e : Error) : M A := λ _, Revert e.

Definition outOfFuel {A} : M A := λ _, OutOfFuel.

(** The monad is registered with stdpp's [MRet]/[MBind] classes, which gives
    the notations [x ← c; k] and [c;; k]. *)
#[global] Instance M_ret : MRet M := @ret.

#[global] Instance M_bind : MBind M := λ A B k c, bind c k.

Definition getState : M State := λ m, Ok (st m) m.

Definition getLedger : M Ledger := λ m, Ok (ledger m) m.

Definition modify (f : State → State) : M unit :=
  λ m, Ok tt (mkMachine (f (st m)) (ledger m) (log m)).

Definition emit (e : Event) : M unit :=
  λ m, Ok tt (mkMachine (st m) (ledger m) (log m ++ [Emitted e])).

(** [if (c) revert e;] *)
Definition revertIf (c : bool) (e : Error) : M unit :=
  if c then revert e else ret tt.

(** Checked [uint256] addition. *)
Definition checkedAdd (a b : N) : M N :=
  if UINT256_MAX <? a + b then revert Panic else ret (a + b).

(** An external call that moves [amt] of [token] from [from] to [to]; the
    result tells whether the callee succeeded.  A failed call changes
    nothing in the ledger. *)
Definition external (c : ExtCall) (token from to : address) (amt : N)
  : M bool :=
  λ m, match erc20_transfer token from to amt (ledger m) with
       | Some w' =>
           Ok true (mkMachine (st m) w' (log m ++ [External c true (st m)]))
       | None =>
           Ok false
              (mkMachine (st m) (ledger m) (log m ++ [External c false (st m)]))
       end.

(** An external call that moves no tokens ([sync], [settle]). *)
Definition externalNoop (c : ExtCall) : M unit :=
  λ m, Ok tt (mkMachine (st m) (ledger m) (log m ++ [External c true (st m)])).

(** ** The contract *)

(** The transaction context of a call. *)
Record Msg := mkMsg {
  msg_sender : address;
  block_timestamp : uint256
}.

Definition setOrder (id : N) (o : Order) (s : State) : State :=
  set_orders (<[id := o]> (orders s)) s.

Definition setIds (pid : bytes32) (ids : list N) (s : State) : State :=
  set_poolOrders (<[pid := ids]> (poolOrders s)) s.

Definition setUnclaimed (owner token : address) (v : N) (s : State) : State :=
  set_unclaimedBalances (<[(owner, token) := v]> (unclaimedBalances s)) s.

(** [Currency tokenIn = sellToken0 ? key.currency0 : key.currency1]. *)
Definition tokenInOf (key : PoolKey) (sell0 : bool) : address :=
  if sell0 then currency0 key else currency1 key.

(** Position of the first occurrence, as the [for] loop of [_removeOrder]
    finds it. *)
Fixpoint indexOf (x : N) (ids : list N) : option nat :=
  match ids with
  | [] => None
  | y :: rest => if y =? x then Some O else S <$> indexOf x rest
  end.

(** [ids[i] = ids[ids.length - 1]; ids.pop();] *)
Definition swapAndPop (i : nat) (ids : list N) : list N :=
  match last ids with
  | Some l => removelast (<[i := l]> ids)
  | None => ids
  end.

(** The storage effect of [_removeOrder]: the first occurrence of the id is
    overwritten by the last entry and the array is popped; an id that is
    not in the array leaves it untouched. *)
Definition removeOrderSt (pid : bytes32) (orderId : N) (s : State) : State :=
  match indexOf orderId (idsOf s pid) with
  | Some i => setIds pid (swapAndPop i (idsOf s pid)) s
  | None => s
  end.

(** Explicit cast [int128(uint128(x))]: reinterprets the bits, never
    reverts. *)
Definition int128_of_uint128 (x : N) : Z :=
  if x <? 2 ^ 127 then Z.of_N x else (Z.of_N x - 2 ^ 128)%Z.

(** Checked unary minus on [int128]. *)
Definition checkedNeg128 (x : Z) : M Z :=
  if (x =? INT128_MIN)%Z then revert Panic else ret (- x)%Z.

(** The three [continue] tests of the matching loop. *)
Definition skipOrder (now : uint256) (zfo : bool) (takerAmountIn : uint128)
    (o : Order) : bool :=
  (negb (active o) || (expiry o <? now))
  || eqb (sellToken0 o) zfo
  || (takerAmountIn <? minAmountOut o).

(** The matching loop up to its first match; it writes nothing before the
    match, so the scan is a function of the storage at entry. *)
Fixpoint scanOrders (s : State) (now : uint256) (zfo : bool)
    (takerAmountIn : uint128) (ids : list N) : option N :=
  match ids with
  | [] => None
  | id :: rest =>
      if skipOrder now zfo takerAmountIn (orderAt s id)
      then scanOrders s now zfo takerAmountIn rest
      else Some id
  end.

Definition maxIter (ids : list N) : nat :=
  if (length ids <? MAX_ITERATIONS)%nat then length ids else MAX_ITERATIONS.

(** The test of the purge loop: [order.active && block.timestamp >
    order.expiry]. *)
Definition purgeable (now : uint256) (o : Order) : bool :=
  active o && (expiry o <? now).

Section Contract.

(** [address(this)] and [keccak256(abi.encode(key))]. *)
Variable this : address.

Variable keccak256 : PoolKey → bytes32.

(** *** Modifiers *)
Definition onlyAdmin (msg : Msg) : M unit :=
  s ← getState;
  revertIf (negb (msg_sender msg =? admin s)) NotAdmin.

Definition onlyPoolManager (msg : Msg) : M unit :=
  s ← getState;
  revertIf (negb (msg_sender msg =? poolManager s)) OnlyPoolManager.

Definition onlyWhitelisted (msg : Msg) : M unit :=
  s ← getState;
  revertIf (negb (isBot s (msg_sender msg))) NotWhitelisted.

(** *** External calls made by the hook *)
Definition safeTransfer (token to : address) (amt : N) : M unit :=
  ok ← external (TokenTransfer token to amt) token this to amt;
  revertIf (negb ok) SafeERC20Failed.

Definition safeTransferFrom (token from to : address) (amt : N) : M unit :=
  ok ← external (TokenTransferFrom token from to amt) token from to amt;
  revertIf (negb ok) SafeERC20Failed.

(** [try IERC20(token).transfer(to, amt) returns (bool success) { .. }
    catch { .. }], up to the choice of the branch.  A call that reverts is
    caught, and the contract treats it like a call that returns [false]:
    both give [false] here.  The returned [bool] is decoded by the hook
    itself, which is not part of what [catch] covers: when the call
    succeeds and the token returns no data, the decoding fails and the
    whole transaction reverts, with empty revert data.  (The SafeERC20
    calls above accept such a token: they take an empty result for
    success.) *)
Definition tryTransfer (token to : address) (amt : N) : M bool :=
  ok ← external (TokenTransfer token to amt) token this to amt;
  w ← getLedger;
  revertIf (ok && returnsNoData w token) DecodeFailed;;
  mret ok.

(** [poolManager.take]: the manager sends its own tokens to [to]. *)
Definition pmTake (currency to : address) (amt : N) : M unit :=
  s ← getState;
  ok ← external (PMTake currency to amt) currency (poolManager s) to amt;
  revertIf (negb ok) CalleeReverted.

(** *** Admin *)
Definition addBot (msg : Msg) (bot : address) : M unit :=
  onlyAdmin msg;;
  modify (λ s, set_allowedBots (<[bot := true]> (allowedBots s)) s);;
  emit (BotAdded bot).

Definition removeBot (msg : Msg) (bot : address) : M unit :=
  onlyAdmin msg;;
  modify (λ s, set_allowedBots (<[bot := false]> (allowedBots s)) s);;
  emit (BotRemoved bot).

Definition setAdmin (msg : Msg) (newAdmin : address) : M unit :=
  onlyAdmin msg;;
  revertIf (newAdmin =? 0) ZeroAddress;;
  modify (set_pendingAdmin newAdmin);;
  emit (PendingAdminSet newAdmin).

Definition acceptAdmin (msg : Msg) : M unit :=
  s ← getState;
  revertIf (negb (msg_sender msg =? pendingAdmin s)) NotPendingAdmin;;
  emit (AdminChanged (admin s) (msg_sender msg));;
  modify (set_admin (msg_sender msg));;
  modify (set_pendingAdmin 0).

(** *** Order book *)
Definition postOrder (msg : Msg) (key : PoolKey) (sell0 : bool)
    (amtIn minOut : uint128) (duration : uint256) : M N :=
  onlyWhitelisted msg;;
  revertIf ((amtIn =? 0) || (minOut =? 0)) InvalidAmounts;;
  revertIf (duration =? 0) InvalidDuration;;
  revertIf (MAX_ORDER_DURATION <? duration) DurationTooLong;;
  let pid := keccak256 key in
  s ← getState;
  let orderId := nextOrderId s in
  next ← checkedAdd orderId 1;
  modify (set_nextOrderId next);;
  exp ← checkedAdd (block_timestamp msg) duration;
  modify (setOrder orderId
            (mkOrder (msg_sender msg) sell0 amtIn minOut exp true pid));;
  let tokenIn := tokenInOf key sell0 in
  safeTransferFrom tokenIn (msg_sender msg) this amtIn;;
  modify (λ s, setIds pid (idsOf s pid ++ [orderId]) s);;
  emit (OrderPosted orderId (msg_sender msg) sell0 amtIn minOut exp);;
  mret orderId.

(** Remove an order id from the pool's array via swap-and-pop. *)
Definition _removeOrder (pid : bytes32) (orderId : N) : M unit :=
  modify (removeOrderSt pid orderId).

Definition cancelOrder (msg : Msg) (orderId : N) (key : PoolKey) : M unit :=
  s ← getState;
  let order := orderAt s orderId in
  revertIf (nextOrderId s <=? orderId) OrderNotFound;;
  revertIf (maker order =? 0) OrderNotFound;;
  revertIf (negb (msg_sender msg =? maker order)) Unauthorized;;
  revertIf (negb (active order)) OrderNotActive;;
  let pid := keccak256 key in
  revertIf (negb (pid =? poolId order)) PoolMismatch;;
  modify (setOrder orderId (deactivate order));;
  _removeOrder pid orderId;;
  let tokenIn := tokenInOf key (sellToken0 order) in
  safeTransfer tokenIn (maker order) (amountIn order);;
  emit (OrderCancelled orderId (maker order)).

Definition getPoolOrders (key : PoolKey) : M (list N) :=
  s ← getState; mret (idsOf s (keccak256 key)).

(** *** Matching *)
Definition beforeSwap (msg : Msg) (sender : address) (key : PoolKey)
    (params : SwapParams) : M (N * BeforeSwapDelta * N) :=
  onlyPoolManager msg;;
  s ← getState;
  if negb (isBot s sender) then mret (beforeSwap_selector, ZERO_DELTA, 0)
  else if (0 <=? amountSpecified params)%Z
  then mret (beforeSwap_selector, ZERO_DELTA, 0)
  else
    revertIf (amountSpecified params =? INT256_MIN)%Z AmountOverflow;;
    let absAmount := Z.to_N (- amountSpecified params) in
    revertIf (Z.to_N INT128_MAX <? absAmount) AmountOverflow;;
    let takerAmountIn := absAmount in
    let pid := keccak256 key in
    let orderIds := idsOf s pid in
    match scanOrders s (block_timestamp msg) (zeroForOne params)
            takerAmountIn (take (maxIter orderIds) orderIds) with
    | Some matchedOrderId =>
        let order := orderAt s matchedOrderId in
        modify (setOrder matchedOrderId (deactivate order));;
        _removeOrder pid matchedOrderId;;
        let inputCurrency :=
          if zeroForOne params then currency0 key else currency1 key in
        let outputCurrency :=
          if zeroForOne params then currency1 key else currency0 key in
        let takerPays := minAmountOut order in
        pmTake inputCurrency (maker order) takerPays;;
        externalNoop (PMSync outputCurrency);;
        safeTransfer outputCurrency (poolManager s) (amountIn order);;
        externalNoop PMSettle;;
        emit (P2PTrade matchedOrderId (maker order) sender
                inputCurrency outputCurrency takerPays (amountIn order));;
        let specified := int128_of_uint128 takerPays in
        unspecified ← checkedNeg128 (int128_of_uint128 (amountIn order));
        mret (beforeSwap_selector,
              toBeforeSwapDelta specified unspecified, 0)
    | None => mret (beforeSwap_selector, ZERO_DELTA, 0)
    end.

Definition afterSwap (msg : Msg) : M (N * Z) :=
  onlyPoolManager msg;;
  mret (afterSwap_selector, 0%Z).

(** *** Maintenance *)

(** The body of the purge loop for an expired entry at position [i]. *)
Definition purgeOne (key : PoolKey) (pid : bytes32) (i : nat) : M unit :=
  s ← getState;
  let expiredId : N := default 0 (idsOf s pid !! i) in
  let order := orderAt s expiredId in
  modify (setOrder expiredId (deactivate order));;
  let token := tokenInOf key (sellToken0 order) in
  success ← tryTransfer token (maker order) (amountIn order);
  (if success : bool then ret tt
   else
     s1 ← getState;
     v ← checkedAdd (unclaimedOf s1 (maker order) token) (amountIn order);
     modify (setUnclaimed (maker order) token v);;
     emit (RefundFailed expiredId (maker order)));;
  modify (λ s2, setIds pid (swapAndPop i (idsOf s2 pid)) s2);;
  emit (OrderExpired expiredId (maker order)).

(** The [while] loop of [purgeExpiredOrders]; every iteration either
    shortens the array or advances [i], so [fuel] above the array length
    is never used up. *)
Fixpoint purgeLoop (fuel : nat) (msg : Msg) (key : PoolKey) (pid : bytes32)
    (maxPurge : uint256) (i : nat) (purged : uint256) : M unit :=
  match fuel with
  | O => outOfFuel
  | S fuel' =>
      s ← getState;
      let ids := idsOf s pid in
      if (i <? length ids)%nat && (purged <? maxPurge) then
        if purgeable (block_timestamp msg)
             (orderAt s (default 0 (ids !! i))) then
          purgeOne key pid i;;
          purgeLoop fuel' msg key pid maxPurge i (purged + 1)
        else purgeLoop fuel' msg key pid maxPurge (S i) purged
      else mret tt
  end.

Definition purgeExpiredOrders (msg : Msg) (key : PoolKey)
    (maxPurge : uint256) : M unit :=
  let pid := keccak256 key in
  s ← getState;
  purgeLoop (S (length (idsOf s pid))) msg key pid maxPurge O 0.

(** Pull-pattern: makers claim their own failed refunds. *)
Definition claimRefund (msg : Msg) (token : address) : M unit :=
  s ← getState;
  let amount := unclaimedOf s (msg_sender msg) token in
  revertIf (amount =? 0) InvalidAmounts;;
  modify (setUnclaimed (msg_sender msg) token 0);;
  safeTransfer token (msg_sender msg) amount.

(** The unused hooks all revert. *)
Definition unusedHook {A} : M A := revert HookNotImplemented.

End Contract.

(** ** Transactions and runs *)

Inductive Call :=
  | CallAddBot (bot : address)
  | CallRemoveBot (bot : address)
  | CallSetAdmin (newAdmin : address)
  | CallAcceptAdmin
  | CallPostOrder (key : PoolKey) (sell0 : bool) (amtIn minOut : uint128)
                  (duration : uint256)
  | CallCancelOrder (orderId : N) (key : PoolKey)
  | CallBeforeSwap (sender : address) (key : PoolKey) (params : SwapParams)
  | CallAfterSwap
  | CallPurgeExpiredOrders (key : PoolKey) (maxPurge : uint256)
  | CallClaimRefund (token : address)
  | CallUnusedHook.

(** What the environment can do between two calls of the hook: send a
    transaction to it, freeze or thaw an account of a token, or move tokens
    between two accounts. *)
Inductive Step :=
  | Tx (msg : Msg) (c : Call)
  | Freeze (token a : address)
  | Thaw (token a : address)
  | Move (token from to : address) (amt : N).

Section Runs.

Variable this : address.

Variable keccak256 : PoolKey → bytes32.

Definition dispatch (msg : Msg) (c : Call) : M unit :=
  match c with
  | CallAddBot bot => addBot msg bot
  | CallRemoveBot bot => removeBot msg bot
  | CallSetAdmin a => setAdmin msg a
  | CallAcceptAdmin => acceptAdmin msg
  | CallPostOrder key sell0 amtIn minOut duration =>
      postOrder this keccak256 msg key sell0 amtIn minOut duration;; ret tt
  | CallCancelOrder orderId key => cancelOrder this keccak256 msg orderId key
  | CallBeforeSwap sender key params =>
      beforeSwap this keccak256 msg sender key params;; ret tt
  | CallAfterSwap => afterSwap msg;; ret tt
  | CallPurgeExpiredOrders key maxPurge =>
      purgeExpiredOrders this keccak256 msg key maxPurge
  | CallClaimRefund token => claimRefund this msg token
  | CallUnusedHook => unusedHook
  end.

(** A transaction that reverts leaves the machine as it was. *)
Definition step (m : Machine) (x : Step) : Machine :=
  match x with
  | Tx msg c =>
      match dispatch msg c m with
      | Ok _ m' => m'
      | _ => m
      end
  | Freeze token a =>
      mkMachine (st m)
        (mkLedger (balances (ledger m)) ({[(token, a)]} ∪ frozen (ledger m))
           (noReturn (ledger m)))
        (log m)
  | Thaw token a =>
      mkMachine (st m)
        (mkLedger (balances (ledger m)) (frozen (ledger m) ∖ {[(token, a)]})
           (noReturn (ledger m)))
        (log m)
  | Move token from to amt =>
      match erc20_transfer token from to amt (ledger m) with
      | Some w' => mkMachine (st m) w' (log m)
      | None => m
      end
  end.

Definition run (m : Machine) (steps : list Step) : Machine :=
  foldl step m steps.

End Runs.

(** The machine right after deployment, on a given token ledger. *)
Definition deployed (_admin _poolManager : address) (w : Ledger) : Machine :=
  mkMachine (constructor _admin _poolManager) w [].

(** ** A collision-free stand-in for [keccak256(abi.encode(key))]

    [packKey] encodes the five fields of a pool key into one number and
    [unpackKey] reads them back, so distinct keys get distinct pool ids. *)
Definition packKey (k : PoolKey) : bytes32 :=
  Npos (encode (currency0 k, currency1 k, fee k, tickSpacing k, hooks k)).

Definition unpackKey (p : bytes32) : PoolKey :=
  match p with
  | Npos q =>
      match decode q with
      | Some (c0, c1, f, t, h) => mkPoolKey c0 c1 f t h
      | None => mkPoolKey 0 0 0 0 0
      end
  | N0 => mkPoolKey 0 0 0 0 0
  end.

(** ** The mock pool manager of the test suite

    [MockPoolManager] stands in for the pool manager in the contract's
    unit tests: it records the [take] and [settle] calls and moves tokens
    so that [beforeSwap] can run.  Its storage is a record; each function
    takes the mock's own address, its storage and the token ledger, and
    fails with the reason Solidity would give. *)
Module MockPoolManager.

Record TakeCall := mkTakeCall {
  tc_currency : address;
  tc_to : address;
  tc_amount : uint256
}.

Record SettleCall := mkSettleCall {
  sc_currency : address;
  sc_amount : uint256
}.

Record Storage := mkStorage {
  takeCalls : list TakeCall;
  settleCalls : list SettleCall;
  lastSyncedCurrency : address;
  syncBalanceBefore : uint256
}.

(** A fresh deployment: empty arrays, zero slots. *)
Definition fresh : Storage := mkStorage [] [] 0 0.

Inductive Failure :=
  | TakeFailed         (* require(success, ...) in [take], or the token's
                          own revert *)
  | Underflow          (* checked subtraction in [settle] *).

Inductive Outcome (A : Type) :=
  | Done (a : A) (s : Storage) (w : Ledger)
  | Failed (f : Failure).

Arguments Done {A} a s w.

Arguments Failed {A} f.

Section Mock.

(** [address(this)] of the mock. *)
Variable self : address.

(** Records the call; transfers the tokens to the recipient when the
    amount is positive. *)
Definition take (currency to : address) (amount : uint256)
    (s : Storage) (w : Ledger) : Outcome unit :=
  let s1 := mkStorage (takeCalls s ++ [mkTakeCall currency to amount])
              (settleCalls s) (lastSyncedCurrency s) (syncBalanceBefore s) in
  if 0 <? amount then
    match erc20_transfer currency self to amount w with
    | Some w' => Done tt s1 w'
    | None => Failed TakeFailed
    end
  else Done tt s1 w.

(** Snapshots the mock's balance of the currency. *)
Definition sync (currency : address) (s : Storage) (w : Ledger)
  : Outcome unit :=
  Done tt (mkStorage (takeCalls s) (settleCalls s) currency
             (balanceOf w currency self)) w.

(** Records how much of the synced currency arrived since [sync]. *)
Definition settle (s : Storage) (w : Ledger) : Outcome uint256 :=
  let balanceNow := balanceOf w (lastSyncedCurrency s) self in
  if balanceNow <? syncBalanceBefore s then Failed Underflow
  else
    let amount := balanceNow - syncBalanceBefore s in
    Done amount
      (mkStorage (takeCalls s)
         (settleCalls s ++ [mkSettleCall (lastSyncedCurrency s) amount])
         (lastSyncedCurrency s) (syncBalanceBefore s)) w.

Definition getTakeCallCount (s : Storage) : nat := length (takeCalls s).

Definition getSettleCallCount (s : Storage) : nat := length (settleCalls s).



End Mock.

End MockPoolManager.

(** ** The backend's pool-key helpers

    [computePoolKey] and [isToken0] of the trading service choose the pool
    key and the side flag that the service passes to [postOrder],
    [cancelOrder] and the swap router.  Token addresses are the strings
    the service handles; the characters of a string are compared by code,
    as JavaScript compares strings, and [toLowerCase] maps the letters [A]
    to [Z] and leaves every other character alone. *)
Module Backend.

Abbreviation Hex := String.string (only parsing).

Definition lowerChar (c : Ascii.ascii) : Ascii.ascii :=
  let n := Ascii.N_of_ascii c in
  if (65 <=? n) && (n <=? 90) then Ascii.ascii_of_N (n + 32) else c.

Fixpoint toLowerCase (s : String.string) : String.string :=
  match s with
  | String.EmptyString => String.EmptyString
  | String.String c rest => String.String (lowerChar c) (toLowerCase rest)
  end.

Record PoolKeyData := mkPoolKeyData {
  currency0 : Hex;
  currency1 : Hex;
  fee : N;
  tickSpacing : Z;
  hooks : Hex
}.

Definition DEFAULT_FEE : N := 3000.

Definition DEFAULT_TICK_SPACING : Z := 60.

Section Service.

(** The hook address of the deployment, read from the environment. *)
Variable HOOK_ADDRESS : Hex.

(** Tokens are sorted by their lower-case address; a missing [fee] or
    [tickSpacing] takes its default. *)
Definition computePoolKey (tokenA tokenB : Hex) (fee : option N)
    (tickSpacing : option Z) : PoolKeyData :=
  let '(c0, c1) :=
    if String.ltb (toLowerCase tokenA) (toLowerCase tokenB)
    then (tokenA, tokenB) else (tokenB, tokenA) in
  mkPoolKeyData c0 c1 (default DEFAULT_FEE fee)
    (default DEFAULT_TICK_SPACING tickSpacing) HOOK_ADDRESS.

Definition isToken0 (tokenAddress : Hex) (poolKey : PoolKeyData) : bool :=
  String.eqb (toLowerCase tokenAddress) (toLowerCase (currency0 poolKey)).

End Service.

End Backend.

(** * Vocabulary of the specification

    The definitions below do not belong to the contract; they name the
    storage each kind of call leaves behind, read facts off the log, and
    state the invariants. *)

(** ** Storage after a call *)

(** Storage after a match: the order is flagged inactive and its id is
    removed from the pool's array. *)
Definition matchedState (pid : bytes32) (id : N) (s : State) : State :=
  removeOrderSt pid id (setOrder id (deactivate (orderAt s id)) s).

(** Storage after a successful [postOrder]. *)
Definition postedState (pid : bytes32) (o : Order) (s : State) : State :=
  let id := nextOrderId s in
  setIds pid (idsOf s pid ++ [id]) (setOrder id o (set_nextOrderId (id + 1) s)).

(** [unclaimedBalances[owner][token] += amt]. *)
Definition creditUnclaimed (owner token : address) (amt : N) (s : State)
  : State :=
  setUnclaimed owner token (unclaimedOf s owner token + amt) s.

(** Storage after the purge loop removed the entry at position [i]. *)
Definition purgedState (pid : bytes32) (i : nat) (s : State) : State :=
  let id := default 0 (idsOf s pid !! i) in
  setIds pid (swapAndPop i (idsOf s pid))
    (setOrder id (deactivate (orderAt s id)) s).

(** ** The matching engine *)

Definition swapInput (key : PoolKey) (params : SwapParams) : address :=
  if zeroForOne params then currency0 key else currency1 key.

Definition swapOutput (key : PoolKey) (params : SwapParams) : address :=
  if zeroForOne params then currency1 key else currency0 key.

(** The log a match appends: the four external calls, each seeing the
    storage [s1], then the trade event. *)
Definition matchLog (sender : address) (key : PoolKey) (params : SwapParams)
    (id : N) (o : Order) (pm : address) (s1 : State) : list LogItem :=
  [ External (PMTake (swapInput key params) (maker o) (minAmountOut o)) true s1;
    External (PMSync (swapOutput key params)) true s1;
    External (TokenTransfer (swapOutput key params) pm (amountIn o)) true s1;
    External PMSettle true s1;
    Emitted (P2PTrade id (maker o) sender (swapInput key params)
               (swapOutput key params) (minAmountOut o) (amountIn o)) ].

(** The candidate the matching loop selects on storage [s]. *)
Definition selectMatch (keccak256 : PoolKey → bytes32) (s : State) (msg : Msg)
    (key : PoolKey) (params : SwapParams) : option N :=
  let ids := idsOf s (keccak256 key) in
  scanOrders s (block_timestamp msg) (zeroForOne params)
    (Z.to_N (- amountSpecified params)) (take (maxIter ids) ids).

Definition noMatch : N * BeforeSwapDelta * N :=
  (beforeSwap_selector, ZERO_DELTA, 0).

(** ** Reading the log *)

(** The part of the log a call appended. *)
Definition newLog (m m' : Machine) : list LogItem :=
  drop (length (log m)) (log m').

(** The order ids of the [P2PTrade] events of a log. *)
Definition tradedIdOf (x : LogItem) : option N :=
  match x with Emitted (P2PTrade id _ _ _ _ _ _) => Some id | _ => None end.

Definition tradedIds (l : list LogItem) : list N := omap tradedIdOf l.

(** The external calls of a log, each with the storage it could observe. *)
Definition callOf (x : LogItem) : option (ExtCall * State) :=
  match x with External c _ seen => Some (c, seen) | _ => None end.

Definition callsOf (l : list LogItem) : list (ExtCall * State) :=
  omap callOf l.

(** The ids of the [OrderExpired] events of a log, in order. *)
Definition expiredIdOf (x : LogItem) : option N :=
  match x with Emitted (OrderExpired id _) => Some id | _ => None end.

Definition expiredIds (l : list LogItem) : list N := omap expiredIdOf l.

(** The token transfers a log attempted: token, recipient, amount. *)
Definition transferOf (x : LogItem) : option (address * address * N) :=
  match x with
  | External (TokenTransfer t to a) _ _ => Some (t, to, a)
  | _ => None
  end.

Definition transfersOf (l : list LogItem) : list (address * address * N) :=
  omap transferOf l.

(** The refund a purge owes for order [id]: the escrowed token, the maker,
    the escrowed amount. *)
Definition refundOf (key : PoolKey) (s : State) (id : N)
  : address * address * N :=
  let o := orderAt s id in
  (tokenInOf key (sellToken0 o), maker o, amountIn o).

(** ** The order-book invariant *)

(** A storage is well formed when the pool arrays and the [active] flags
    agree, no array lists an id twice, and no order is stored at or above
    [nextOrderId]. *)
Record wf (s : State) : Prop := mkWf {
  wf_agree : ∀ p id,
    id ∈ idsOf s p ↔ active (orderAt s id) = true ∧ poolId (orderAt s id) = p;
  wf_nodup : ∀ p, NoDup (idsOf s p);
  wf_fresh : ∀ id, nextOrderId s ≤ id → orders s !! id = None
}.

(** An order that exists and is no longer active. *)
Definition settled (s : State) (id : N) : Prop :=
  id < nextOrderId s ∧ active (orderAt s id) = false.

(** ** The purge *)

(** Number of entries of [l] that [f] accepts. *)
Fixpoint countIf (f : N → bool) (l : list N) : nat :=
  match l with
  | [] => O
  | x :: rest => ((if f x then 1 else 0) + countIf f rest)%nat
  end.

(** Number of entries of a pool array that the purge test accepts. *)
Definition expiredCount (s : State) (now : uint256) (pid : bytes32) : nat :=
  countIf (λ id, purgeable now (orderAt s id)) (idsOf s pid).

(** What the purge has done so far: [m0] is the machine at entry, [m] the
    current one, [done] the ids removed so far, in order. *)
Record purgeProgress (now : uint256) (key : PoolKey) (pid : bytes32)
    (m0 m : Machine) (done : list N) : Prop := mkProgress {
  pp_wf : wf (st m);
  pp_log : ∃ L, log m = log m0 ++ L ∧ expiredIds L = done ∧
                transfersOf L = map (refundOf key (st m0)) done;
  pp_perm : idsOf (st m0) pid ≡ₚ done ++ idsOf (st m) pid;
  pp_done : ∀ id, id ∈ done →
      purgeable now (orderAt (st m0) id) = true ∧
      orderAt (st m) id = deactivate (orderAt (st m0) id);
  pp_rest : ∀ id, id ∉ done → orderAt (st m) id = orderAt (st m0) id;
  pp_other : ∀ p, p ≠ pid → idsOf (st m) p = idsOf (st m0) p;
  pp_next : nextOrderId (st m) = nextOrderId (st m0)
}.

(** The loop invariant of the purge: [done] lists what was removed so far,
    [purged] counts it, and the first [i] entries of the array were scanned
    and kept. *)
Definition purgeInv (msg : Msg) (key : PoolKey) (pid : bytes32)
    (maxPurge : uint256) (m0 : Machine) (i : nat) (purged : N) (m : Machine)
  : Prop :=
  ∃ done,
    purgeProgress (block_timestamp msg) key pid m0 m done ∧
    purged = N.of_nat (length done) ∧ purged ≤ maxPurge ∧
    ∀ x, x ∈ take i (idsOf (st m) pid) →
         purgeable (block_timestamp msg) (orderAt (st m) x) = false.



(** ** Termination and failure modes *)

(** [c] never runs out of fuel.  Only the purge loop consumes any. *)
Definition total {A} (c : M A) : Prop := ∀ m, c m ≠ OutOfFuel.

(** Both currencies of [key] return a [bool] from their calls, so that the
    result of a refund of either always decodes. *)
Definition refundsDecode (w : Ledger) (key : PoolKey) : bool :=
  negb (returnsNoData w (currency0 key))
  && negb (returnsNoData w (currency1 key)).

(** The two ways a purge of pool [key] can revert: an arithmetic overflow,
    or, when a currency of the key returns no data, the decoding of a
    refund's result. *)
Definition purgeFailure (w : Ledger) (key : PoolKey) (e : Error) : Prop :=
  e = Panic ∨ (e = DecodeFailed ∧ refundsDecode w key = false).

(** ** Escrow accounting *)

(** Sum of [f k v] over the entries [(k, v)] of a mapping. *)
Definition map_sum `{Countable K} {V} (f : K → V → N) (m : gmap K V) : N :=
  map_fold (λ k v acc, f k v + acc) 0 m.

(** The asset an order escrowed is the side of its pool key it sells.  The
    order stores the pool id, not the key, so the key is recovered through
    [keyOf], an inverse of the hash. *)
Definition assetOf (keyOf : bytes32 → PoolKey) (o : Order) : address :=
  tokenInOf (keyOf (poolId o)) (sellToken0 o).

(** What order [o] keeps escrowed of token [tok]. *)
Definition escrowOf (keyOf : bytes32 → PoolKey) (tok : address) (o : Order)
  : N :=
  if active o && (assetOf keyOf o =? tok) then amountIn o else 0.

(** Sum of [amountIn] over the active orders that escrowed [tok]. *)
Definition escrowed (keyOf : bytes32 → PoolKey) (s : State) (tok : address)
  : N :=
  map_sum (λ _ o, escrowOf keyOf tok o) (orders s).

(** Sum of the unclaimed balances recorded for [tok], over all owners. *)
Definition unclaimedTotal (s : State) (tok : address) : N :=
  map_sum (λ k v, if snd k =? tok then v else 0) (unclaimedBalances s).

(** The hook's own balance of [tok]. *)
Definition custody (this : address) (m : Machine) (tok : address) : N :=
  balanceOf (ledger m) tok this.

(** The environment steps under which the hook's custody is its own
    business: the hook never calls itself, and third parties move tokens
    between accounts other than the hook's. *)
Definition foreign (this : address) (x : Step) : Prop :=
  match x with
  | Tx msg _ => msg_sender msg ≠ this
  | Move _ from to _ => from ≠ this ∧ to ≠ this
  | _ => True
  end.

(** The escrow invariant: the storage is well formed, custody equals
    escrow plus unclaimed balances for every asset, no active order was
    made by the hook itself, and the pool manager is not the hook. *)
Record escrowInv (this : address) (keyOf : bytes32 → PoolKey) (m : Machine)
  : Prop := mkEscrowInv {
  ei_wf : wf (st m);
  ei_sum : ∀ tok,
    custody this m tok = escrowed keyOf (st m) tok + unclaimedTotal (st m) tok;
  ei_makers : ∀ id,
    active (orderAt (st m) id) = true → maker (orderAt (st m) id) ≠ this;
  ei_pm : poolManager (st m) ≠ this
}.

(** ** Further vocabulary *)

(** Two readings of an order slot, the second taken later: the terms of
    the order are the same, and the [active] flag can only have gone from
    true to false. *)
Definition sameTerms (o o' : Order) : Prop :=
  maker o' = maker o ∧ sellToken0 o' = sellToken0 o ∧
  amountIn o' = amountIn o ∧ minAmountOut o' = minAmountOut o ∧
  expiry o' = expiry o ∧ poolId o' = poolId o ∧
  (active o' = true → active o = true).

(** The errors each entry point can fail with. *)
Definition mayRevert (c : Call) (e : Error) : bool :=
  match c, e with
  | CallAddBot _, NotAdmin
  | CallRemoveBot _, NotAdmin
  | CallSetAdmin _, (NotAdmin | ZeroAddress)
  | CallAcceptAdmin, NotPendingAdmin
  | CallPostOrder _ _ _ _ _,
      (NotWhitelisted | InvalidAmounts | InvalidDuration | DurationTooLong
       | Panic | SafeERC20Failed)
  | CallCancelOrder _ _,
      (OrderNotFound | Unauthorized | OrderNotActive | PoolMismatch
       | SafeERC20Failed)
  | CallBeforeSwap _ _ _,
      (OnlyPoolManager | AmountOverflow | CalleeReverted | SafeERC20Failed
       | Panic)
  | CallAfterSwap, OnlyPoolManager
  | CallPurgeExpiredOrders _ _, (Panic | DecodeFailed)
  | CallClaimRefund _, (InvalidAmounts | SafeERC20Failed)
  | CallUnusedHook, HookNotImplemented => true
  | _, _ => false
  end.

(** Every revert of [c] carries an error that [P] accepts. *)
Definition revertsWithin {A} (P : Error → Prop) (c : M A) : Prop :=
  ∀ m e, c m = Revert e → P e.

(** The part of the storage that only privileged callers write. *)
Definition governance (s : State)
  : address * address * gmap address bool * address :=
  (admin s, pendingAdmin s, allowedBots s, poolManager s).

(** The calls behind the [onlyAdmin] modifier, and [acceptAdmin]. *)
Definition isAdminCall (c : Call) : bool :=
  match c with
  | CallAddBot _ | CallRemoveBot _ | CallSetAdmin _ | CallAcceptAdmin => true
  | _ => false
  end.

(** What [postOrder] checks of an order's amounts and expiry. *)
Definition validOrder (o : Order) : Prop :=
  amountIn o ≠ 0 ∧ minAmountOut o ≠ 0 ∧ expiry o ≠ 0.

(** Every order slot below the id counter holds a valid order. *)
Definition allValid (s : State) : Prop :=
  ∀ id, id < nextOrderId s → validOrder (orderAt s id).

(** What the refunds of the orders [ids] amount to for [owner] in token
    [tok], the orders being read in storage [s]. *)
Fixpoint owed (key : PoolKey) (s : State) (owner tok : address)
    (ids : list N) : N :=
  match ids with
  | [] => 0
  | id :: rest =>
      (let '(t, mk, amt) := refundOf key s id in
       if (t =? tok) && (mk =? owner) then amt else 0)
      + owed key s owner tok rest
  end.

(** What [owner] holds of [tok] or can claim of it from the hook. *)
Definition holdings (m : Machine) (owner tok : address) : N :=
  balanceOf (ledger m) tok owner + unclaimedOf (st m) owner tok.

(** The accounting the purge loop maintains for every account but the
    hook's: [m0] is the machine at entry, [m] the current one. *)
Definition purgeAccounts (this : address) (key : PoolKey) (m0 m : Machine)
  : Prop :=
  ∀ owner tok, owner ≠ this →
    holdings m owner tok
    = holdings m0 owner tok
      + owed key (st m0) owner tok (expiredIds (newLog m0 m)).

(** The ids of the [OrderPosted] events of a log, in order. *)
Definition postedIdOf (x : LogItem) : option N :=
  match x with Emitted (OrderPosted id _ _ _ _ _) => Some id | _ => None end.

Definition postedIds (l : list LogItem) : list N := omap postedIdOf l.

(** The ids of the events that report an order as released: cancelled,
    traded or expired. *)
Definition releasedIdOf (x : LogItem) : option N :=
  match x with
  | Emitted (OrderCancelled id _) => Some id
  | Emitted (P2PTrade id _ _ _ _ _ _) => Some id
  | Emitted (OrderExpired id _) => Some id
  | _ => None
  end.

Definition releasedIds (l : list LogItem) : list N := omap releasedIdOf l.

(** The events of the log tell the order book: the posted ids are the ids
    below the counter, each posted once; no id is released twice; and the
    released ids are the existing orders that are inactive. *)
Record logInv (m : Machine) : Prop := mkLogInv {
  li_posted : ∀ id, id ∈ postedIds (log m) ↔ id < nextOrderId (st m);
  li_posted_once : NoDup (postedIds (log m));
  li_released_once : NoDup (releasedIds (log m));
  li_released : ∀ id,
    id ∈ releasedIds (log m)
    ↔ id < nextOrderId (st m) ∧ active (orderAt (st m) id) = false
}.

(** * A concrete world *)

(** ** The deployment and one order

    Addresses: the hook is 1000, the pool manager 2000, the admin 173; bots
    A and B are 11 and 12; the tokens are 501 and 502. *)
Module Demo.

Definition hook : address := 1000.

Definition pm : address := 2000.

Definition adm : address := 173.

Definition botA : address := 11.

Definition botB : address := 12.

Definition tokA : address := 501.

Definition tokB : address := 502.

Definition key : PoolKey := mkPoolKey tokA tokB 3000 60 hook.

Definition wrongKey : PoolKey := mkPoolKey tokA tokB 500 10 hook.

Definition world : Ledger :=
  mkLedger (list_to_map
              [((tokA, botA), 1000); ((tokB, botA), 1000);
               ((tokA, botB), 1000); ((tokB, botB), 1000);
               ((tokA, pm), 10000); ((tokB, pm), 10000)]) ∅ ∅.

Definition genesis : Machine := deployed adm pm world.

Definition setup : list Step :=
  [Tx (mkMsg adm 1) (CallAddBot botA); Tx (mkMsg adm 1) (CallAddBot botB)].

(** Bot A sells 100 of token A for at least 95 of token B, for an hour,
    at time 10. *)
Definition posted : Machine :=
  run hook packKey genesis
    (setup ++ [Tx (mkMsg botA 10) (CallPostOrder key true 100 95 3600)]).

End Demo.

(** More of the concrete world: the pool manager calls [beforeSwap] for bot
    B, who sells 100 of token B, at time 20. *)
Module DemoMatch.

Import Demo.

Definition swapMsg : Msg := mkMsg pm 20.

Definition swapParams : SwapParams := mkSwapParams false (-100) 0.

Definition outcome : Result (N * BeforeSwapDelta * N) :=
  beforeSwap hook packKey swapMsg botB key swapParams posted.

Definition matched : Machine :=
  match outcome with Ok _ m' => m' | _ => posted end.

Definition returned : N * BeforeSwapDelta * N :=
  match outcome with Ok r _ => r | _ => noMatch end.

End DemoMatch.

(** At time 4000 the demo order (expiry 3610) is past its expiry. *)
Module DemoExpired.

Import Demo.

Definition lateMsg : Msg := mkMsg pm 4000.

Definition outcome : Result (N * BeforeSwapDelta * N) :=
  beforeSwap hook packKey lateMsg botB key DemoMatch.swapParams posted.

End DemoExpired.

(** A maker with a very large balance: bot A holds [2 ^ 128 - 1] units of
    token A and escrows [2 ^ 127 + 1] of them, asking for at least 95 of
    token B.  Bot B then swaps 100 of token B. *)
Module DemoLarge.

Import Demo.

Definition bigAmount : uint128 := 2 ^ 127 + 1.

Definition world : Ledger :=
  mkLedger (list_to_map
              [((tokA, botA), 2 ^ 128 - 1); ((tokB, botA), 1000);
               ((tokA, botB), 1000); ((tokB, botB), 1000);
               ((tokA, pm), 10000); ((tokB, pm), 10000)]) ∅ ∅.

Definition posted : Machine :=
  run hook packKey (deployed adm pm world)
    (setup ++ [Tx (mkMsg botA 10) (CallPostOrder key true bigAmount 95 3600)]).

Definition outcome : Result (N * BeforeSwapDelta * N) :=
  beforeSwap hook packKey DemoMatch.swapMsg botB key DemoMatch.swapParams
    posted.

Definition matched : Machine :=
  match outcome with Ok _ m' => m' | _ => posted end.

(** The same with an escrow of exactly [2 ^ 127]. *)
Definition postedEdge : Machine :=
  run hook packKey (deployed adm pm world)
    (setup ++ [Tx (mkMsg botA 10) (CallPostOrder key true (2 ^ 127) 95 3600)]).

Definition outcomeEdge : Result (N * BeforeSwapDelta * N) :=
  beforeSwap hook packKey DemoMatch.swapMsg botB key DemoMatch.swapParams
    postedEdge.

End DemoLarge.

(** Three orders in one pool: ids 0 and 2 last one second, id 1 an hour. *)
Module DemoPurge.

Import Demo.

Definition three : Machine :=
  run hook packKey genesis
    (setup ++
     [Tx (mkMsg botA 10) (CallPostOrder key true 100 95 1);
      Tx (mkMsg botA 10) (CallPostOrder key true 200 180 3600);
      Tx (mkMsg botB 10) (CallPostOrder key false 50 40 1)]).

Definition purgeMsg : Msg := mkMsg 77 100.

Definition after (maxPurge : N) : Machine :=
  step hook packKey three (Tx purgeMsg (CallPurgeExpiredOrders key maxPurge)).

End DemoPurge.

(** At time 3610, the very expiry of the demo order. *)
Module DemoBoundary.
Import Demo.
Definition atExpiry : Msg := mkMsg pm 3610.
Definition outcome : Result (N * BeforeSwapDelta * N) :=
  beforeSwap hook packKey atExpiry botB key DemoMatch.swapParams posted.
(** The ledger after the pool manager paid the maker, then after the hook
    released the escrow. *)
Definition paid : Ledger :=
  default (ledger posted) (erc20_transfer tokB pm botA 95 (ledger posted)).
Definition released : Ledger :=
  default paid (erc20_transfer tokA hook pm 100 paid).
Definition purged : Machine :=
  step hook packKey posted (Tx atExpiry (CallPurgeExpiredOrders key 10)).
End DemoBoundary.

(** The demo order expires, token A freezes the maker's account, and a
    stranger purges the pool at time 4000. *)
Module DemoRefund.

Import Demo.

Definition steps : list Step :=
  setup ++
  [Tx (mkMsg botA 10) (CallPostOrder key true 100 95 3600);
   Freeze tokA botA;
   Tx (mkMsg 77 4000) (CallPurgeExpiredOrders key 10)].

Definition purged : Machine := run hook packKey genesis steps.

End DemoRefund.

(** Token A is a token that returns no data.  The demo order is posted on
    it and expires.  Then, at time 4000, either a stranger purges the
    pool, or the maker cancels, or token A first blocks the maker's
    account and the stranger purges. *)
Module DemoSilent.

Import Demo.

Definition world : Ledger := mkLedger (balances Demo.world) ∅ {[tokA]}.

Definition posted : Machine :=
  run hook packKey (deployed adm pm world)
    (setup ++ [Tx (mkMsg botA 10) (CallPostOrder key true 100 95 3600)]).

Definition purgeMsg : Msg := mkMsg 77 4000.

Definition cancelled : Machine :=
  step hook packKey posted (Tx (mkMsg botA 4000) (CallCancelOrder 0 key)).

Definition frozenPurged : Machine :=
  step hook packKey (step hook packKey posted (Freeze tokA botA))
    (Tx purgeMsg (CallPurgeExpiredOrders key 10)).

End DemoSilent.

(** Bot B sends 5 units of token A straight to the hook while the demo
    order rests; the maker then cancels the order. *)
Module DemoDonation.

Import Demo.

Definition steps : list Step :=
  setup ++
  [Tx (mkMsg botA 10) (CallPostOrder key true 100 95 3600);
   Move tokA botB hook 5;
   Tx (mkMsg botA 20) (CallCancelOrder 0 key)].

Definition cancelled : Machine := run hook packKey genesis steps.

End DemoDonation.

(** The scenarios of the contract's test suite that the examples below
    replay: a taker who offers too little, and two resting orders of the
    same maker. *)
Module DemoScenarios.
Import Demo.
Definition lowOffer : Result (N * BeforeSwapDelta * N) :=
  beforeSwap hook packKey DemoMatch.swapMsg botB key
    (mkSwapParams false (-90) 0) posted.
Definition twoOrders : Machine :=
  run hook packKey genesis
    (setup ++
     [Tx (mkMsg botA 10) (CallPostOrder key true 100 90 3600);
      Tx (mkMsg botA 10) (CallPostOrder key true 200 180 3600)]).
Definition firstTaken : Machine :=
  step hook packKey twoOrders
    (Tx DemoMatch.swapMsg (CallBeforeSwap botB key DemoMatch.swapParams)).
End DemoScenarios.

(** ** More of the concrete world *)

(** The steps behind [Demo.posted], and the swap of [DemoMatch] as a
    step. *)
Module DemoMore.
Import Demo.
Definition postSteps : list Step :=
  setup ++ [Tx (mkMsg botA 10) (CallPostOrder key true 100 95 3600)].
Definition swapSteps : list Step :=
  [Tx DemoMatch.swapMsg (CallBeforeSwap botB key DemoMatch.swapParams)].
(** The failed refund of [DemoRefund], after which token A unblocks the
    maker's account. *)
Definition thawed : list Step := DemoRefund.steps ++ [Thaw tokA botA].
End DemoMore.

(** A deep order book: bot A posts a hundred orders that ask for 1000, then
    one that asks for 95; each escrows one unit of token A. *)
Module DemoDeep.
Import Demo.
Definition steps : list Step :=
  setup
  ++ replicate 100 (Tx (mkMsg botA 10) (CallPostOrder key true 1 1000 3600))
  ++ [Tx (mkMsg botA 10) (CallPostOrder key true 1 95 3600)].
Definition book : Machine := run hook packKey genesis steps.
End DemoDeep.

(** Two token addresses as the service's registry may hold them, in mixed
    case. *)
Module DemoBackend.
Import String.
Local Open Scope string_scope.
Definition hookAddr : string := "0x00000000000000000000000000000000000C1A32".
Definition wmon : string := "0x760AfE86e5de5fa0Ee542fc7B7B713e1c5425701".
Definition claw : string := "0x350035555E10d9AfAF1566AaebfCeD5BA6C27777".
End DemoBackend.

(** The demo order, then token A blocks the maker's account. *)
Module DemoFrozen.
Import Demo.
Definition steps : list Step :=
  setup ++
  [Tx (mkMsg botA 10) (CallPostOrder key true 100 95 3600);
   Freeze tokA botA].
Definition purgeMsg : Msg := mkMsg 77 4000.
Definition purged : Machine :=
  step hook packKey (run hook packKey genesis steps)
    (Tx purgeMsg (CallPurgeExpiredOrders key 10)).
End DemoFrozen.

(** * Proofs *)

(** ** Reasoning about the monad *)

Lemma bind_ok_inv {A B} (c : M A) (k : A → M B) m b m' :
  (c ≫= k) m = Ok b m' → ∃ a m1, c m = Ok a m1 ∧ k a m1 = Ok b m'.
Proof.
  unfold mbind, M_bind, bind. destruct (c m) as [a m1| |]; try discriminate.
  eauto.
Qed.

Lemma bind_ok_intro {A B} (c : M A) (k : A → M B) m a m1 :
  c m = Ok a m1 → (c ≫= k) m = k a m1.
Proof. unfold mbind, M_bind, bind. now intros ->. Qed.

Lemma bind_revert_intro {A B} (c : M A) (k : A → M B) m e :
  c m = Revert e → (c ≫= k) m = Revert e.
Proof. unfold mbind, M_bind, bind. now intros ->. Qed.

Lemma revertIf_ok_inv c e a m m' :
  revertIf c e m = Ok a m' → c = false ∧ m' = m.
Proof. destruct c; cbn; [discriminate|]. intros [= _ <-]. auto. Qed.

Lemma revertIf_false e m : revertIf false e m = Ok tt m.
Proof. reflexivity. Qed.

Lemma revertIf_true e m : revertIf true e m = Revert e.
Proof. reflexivity. Qed.

Lemma checkedAdd_ok_inv a b r m m' :
  checkedAdd a b m = Ok r m' → r = a + b ∧ a + b ≤ UINT256_MAX ∧ m' = m.
Proof.
  unfold checkedAdd. destruct (UINT256_MAX <? a + b) eqn:E; [discriminate|].
  intros [= <- <-]. apply N.ltb_ge in E. auto.
Qed.

Lemma external_ok_inv c token from to amt ok m m' :
  external c token from to amt m = Ok ok m' →
  (ok = true ∧ ∃ w', erc20_transfer token from to amt (ledger m) = Some w' ∧
     m' = mkMachine (st m) w' (log m ++ [External c true (st m)]))
  ∨ (ok = false ∧ erc20_transfer token from to amt (ledger m) = None ∧
     m' = mkMachine (st m) (ledger m) (log m ++ [External c false (st m)])).
Proof.
  unfold external. destruct (erc20_transfer _ _ _ _ _) as [w'|];
    intros [= <- <-]; eauto.
Qed.

Lemma safeTransfer_ok_inv this token to amt a m m' :
  safeTransfer this token to amt m = Ok a m' →
  ∃ w', erc20_transfer token this to amt (ledger m) = Some w' ∧
    m' = mkMachine (st m) w'
           (log m ++ [External (TokenTransfer token to amt) true (st m)]).
Proof.
  unfold safeTransfer. intros H. apply bind_ok_inv in H as (ok & m1 & H1 & H).
  apply revertIf_ok_inv in H as [E ->]. apply negb_false_iff in E. subst ok.
  apply external_ok_inv in H1 as [(_ & w' & Hw & ->)|(? & _)];
    [eauto|discriminate].
Qed.

Lemma safeTransferFrom_ok_inv token from to amt a m m' :
  safeTransferFrom token from to amt m = Ok a m' →
  ∃ w', erc20_transfer token from to amt (ledger m) = Some w' ∧
    m' = mkMachine (st m) w'
           (log m ++ [External (TokenTransferFrom token from to amt) true
                        (st m)]).
Proof.
  unfold safeTransferFrom. intros H.
  apply bind_ok_inv in H as (ok & m1 & H1 & H).
  apply revertIf_ok_inv in H as [E ->]. apply negb_false_iff in E. subst ok.
  apply external_ok_inv in H1 as [(_ & w' & Hw & ->)|(? & _)];
    [eauto|discriminate].
Qed.

Lemma pmTake_ok_inv currency to amt a m m' :
  pmTake currency to amt m = Ok a m' →
  ∃ w', erc20_transfer currency (poolManager (st m)) to amt (ledger m)
        = Some w' ∧
    m' = mkMachine (st m) w'
           (log m ++ [External (PMTake currency to amt) true (st m)]).
Proof.
  unfold pmTake. intros H. apply bind_ok_inv in H as (s & m0 & H0 & H).
  injection H0 as <- <-.
  apply bind_ok_inv in H as (ok & m1 & H1 & H).
  apply revertIf_ok_inv in H as [E ->]. apply negb_false_iff in E. subst ok.
  apply external_ok_inv in H1 as [(_ & w' & Hw & ->)|(? & _)];
    [eauto|discriminate].
Qed.

(** Peel a successful monadic run apart, one primitive at a time. *)
Ltac minv1 :=
  match goal with
  | H : (_ ≫= _) _ = Ok _ _ |- _ =>
      apply bind_ok_inv in H; destruct H as (? & ? & ? & H)
  | H : getState _ = Ok _ _ |- _ => injection H as <- <-
  | H : getLedger _ = Ok _ _ |- _ => injection H as <- <-
  | H : modify _ _ = Ok _ _ |- _ => injection H as <- <-
  | H : _removeOrder _ _ _ = Ok _ _ |- _ => injection H as <- <-
  | H : emit _ _ = Ok _ _ |- _ => injection H as <- <-
  | H : externalNoop _ _ = Ok _ _ |- _ => injection H as <- <-
  | H : ret _ _ = Ok _ _ |- _ => injection H as <- <-
  | H : mret _ _ = Ok _ _ |- _ => injection H as <- <-
  | H : revert _ _ = Ok _ _ |- _ => discriminate H
  | H : unusedHook _ = Ok _ _ |- _ => discriminate H
  | H : outOfFuel _ = Ok _ _ |- _ => discriminate H
  | H : revertIf _ _ _ = Ok _ _ |- _ =>
      apply revertIf_ok_inv in H; destruct H as [? ->]
  | H : checkedAdd _ _ _ = Ok _ _ |- _ =>
      apply checkedAdd_ok_inv in H; destruct H as (-> & ? & ->)
  | H : safeTransfer _ _ _ _ _ = Ok _ _ |- _ =>
      apply safeTransfer_ok_inv in H; destruct H as (? & ? & ->)
  | H : safeTransferFrom _ _ _ _ _ = Ok _ _ |- _ =>
      apply safeTransferFrom_ok_inv in H; destruct H as (? & ? & ->)
  | H : pmTake _ _ _ _ = Ok _ _ |- _ =>
      apply pmTake_ok_inv in H; destruct H as (? & ? & ->)
  end.

Ltac minv := repeat minv1.

(** ** Lists: first occurrence and swap-and-pop *)

Lemma indexOf_Some x ids i :
  indexOf x ids = Some i → ids !! i = Some x ∧ x ∉ take i ids.
Proof.
  revert i. induction ids as [|y rest IH]; intros i; cbn; [discriminate|].
  destruct (N.eqb_spec y x) as [->|Hne].
  - intros [= <-]. split; [reflexivity|]. cbn. apply not_elem_of_nil.
  - destruct (indexOf x rest) as [j|] eqn:E; cbn; [|discriminate].
    intros [= <-]. destruct (IH j eq_refl) as [H1 H2]. split; [exact H1|].
    cbn. rewrite not_elem_of_cons. auto.
Qed.

Lemma indexOf_None x ids : indexOf x ids = None ↔ x ∉ ids.
Proof.
  induction ids as [|y rest IH]; cbn.
  - split; [intros _; apply not_elem_of_nil|reflexivity].
  - destruct (N.eqb_spec y x) as [->|Hne].
    + split; [discriminate|]. intros H. exfalso. apply H. left.
    + rewrite not_elem_of_cons. destruct (indexOf x rest); cbn.
      * split; [discriminate|]. intros [_ H]. now apply IH in H.
      * split; [|reflexivity]. intros _. split; [congruence|]. now apply IH.
Qed.

Lemma indexOf_elem x ids : x ∈ ids → ∃ i, indexOf x ids = Some i.
Proof.
  intros H. destruct (indexOf x ids) as [i|] eqn:E; [eauto|].
  now apply indexOf_None in E.
Qed.

(** Swap-and-pop at a valid position removes exactly the entry at that
    position, up to the order of the remaining entries. *)
Lemma swapAndPop_perm i ids :
  (i < length ids)%nat → swapAndPop i ids ≡ₚ delete i ids.
Proof.
  intros Hi. unfold swapAndPop.
  destruct (last ids) as [l|] eqn:El.
  2:{ apply last_None in El. subst. cbn in Hi. lia. }
  apply last_Some in El as [pre ->].
  rewrite length_app in Hi. cbn in Hi.
  destruct (decide (i = length pre)) as [->|Hne].
  - rewrite insert_app_r_alt by lia. rewrite Nat.sub_diag. cbn.
    rewrite removelast_last. rewrite delete_middle. now rewrite app_nil_r.
  - assert (∃ a b x, pre = a ++ x :: b ∧ length a = i) as (a & b & x & -> & <-).
    { destruct (lookup_lt_is_Some_2 pre i) as [x Hx]; [lia|].
      exists (take i pre), (drop (S i) pre), x. split.
      - symmetry. now apply take_drop_middle.
      - apply length_take_le. apply lookup_lt_Some in Hx. lia. }
    rewrite <- !app_assoc. cbn.
    rewrite insert_app_r_alt by lia. rewrite Nat.sub_diag. cbn.
    rewrite delete_middle.
    replace (a ++ l :: b ++ [l]) with ((a ++ l :: b) ++ [l])
      by (rewrite <- app_assoc; reflexivity).
    rewrite removelast_last.
    rewrite <- Permutation_middle. rewrite (Permutation_app_comm b [l]).
    cbn. now rewrite Permutation_middle.
Qed.

Lemma swapAndPop_length i ids :
  (i < length ids)%nat → length (swapAndPop i ids) = pred (length ids).
Proof.
  intros Hi. rewrite (Permutation_length (swapAndPop_perm i ids Hi)).
  rewrite length_delete; [lia|]. now apply lookup_lt_is_Some_2.
Qed.

(** ** Storage writes leave the other slots alone *)

Lemma removeOrderSt_orders pid id s : orders (removeOrderSt pid id s) = orders s.
Proof. unfold removeOrderSt. now destruct (indexOf _ _). Qed.

Lemma removeOrderSt_poolManager pid id s :
  poolManager (removeOrderSt pid id s) = poolManager s.
Proof. unfold removeOrderSt. now destruct (indexOf _ _). Qed.

Lemma removeOrderSt_nextOrderId pid id s :
  nextOrderId (removeOrderSt pid id s) = nextOrderId s.
Proof. unfold removeOrderSt. now destruct (indexOf _ _). Qed.

Lemma removeOrderSt_unclaimed pid id s :
  unclaimedBalances (removeOrderSt pid id s) = unclaimedBalances s.
Proof. unfold removeOrderSt. now destruct (indexOf _ _). Qed.

Lemma removeOrderSt_allowedBots pid id s :
  allowedBots (removeOrderSt pid id s) = allowedBots s.
Proof. unfold removeOrderSt. now destruct (indexOf _ _). Qed.

Lemma orderAt_removeOrderSt pid id s x :
  orderAt (removeOrderSt pid id s) x = orderAt s x.
Proof. unfold orderAt. now rewrite removeOrderSt_orders. Qed.

Lemma orderAt_setOrder s id o x :
  orderAt (setOrder id o s) x = if decide (id = x) then o else orderAt s x.
Proof.
  unfold orderAt, setOrder. cbn. rewrite lookup_insert.
  now destruct (decide (id = x)).
Qed.

Lemma idsOf_setIds s pid ids p :
  idsOf (setIds pid ids s) p = if decide (pid = p) then ids else idsOf s p.
Proof.
  unfold idsOf, setIds. cbn. rewrite lookup_insert.
  now destruct (decide (pid = p)).
Qed.

Lemma idsOf_setOrder s id o p : idsOf (setOrder id o s) p = idsOf s p.
Proof. reflexivity. Qed.

Lemma idsOf_removeOrderSt s pid id p :
  idsOf (removeOrderSt pid id s) p =
  if decide (pid = p) then
    match indexOf id (idsOf s pid) with
    | Some i => swapAndPop i (idsOf s pid)
    | None => idsOf s pid
    end
  else idsOf s p.
Proof.
  unfold removeOrderSt. destruct (indexOf id (idsOf s pid)) as [i|].
  - apply idsOf_setIds.
  - destruct (decide (pid = p)); congruence.
Qed.

(** ** The matching loop *)

Lemma scanOrders_Some s now zfo amt ids id :
  scanOrders s now zfo amt ids = Some id →
  id ∈ ids ∧ skipOrder now zfo amt (orderAt s id) = false.
Proof.
  induction ids as [|x rest IH]; cbn; [discriminate|].
  destruct (skipOrder now zfo amt (orderAt s x)) eqn:E.
  - intros H. destruct (IH H) as [H1 H2]. split; [now right|exact H2].
  - intros [= <-]. split; [left|exact E].
Qed.

Lemma scanOrders_None s now zfo amt ids :
  scanOrders s now zfo amt ids = None ↔
  ∀ id, id ∈ ids → skipOrder now zfo amt (orderAt s id) = true.
Proof.
  induction ids as [|x rest IH]; cbn.
  - split; [|reflexivity]. intros _ id H. now apply elem_of_nil in H.
  - destruct (skipOrder now zfo amt (orderAt s x)) eqn:E.
    + rewrite IH. split.
      * intros H id [->|Hin]%elem_of_cons; auto.
      * intros H id Hin. apply H. now right.
    + split; [discriminate|]. intros H. rewrite H in E; [discriminate|left].
Qed.

(** The first entry that passes the filters is the one the scan returns. *)
Lemma scanOrders_first s now zfo amt pre id post :
  (∀ x, x ∈ pre → skipOrder now zfo amt (orderAt s x) = true) →
  skipOrder now zfo amt (orderAt s id) = false →
  scanOrders s now zfo amt (pre ++ id :: post) = Some id.
Proof.
  induction pre as [|x pre IH]; cbn; intros Hpre Hid.
  - now rewrite Hid.
  - rewrite Hpre by left. apply IH; [|exact Hid].
    intros y Hy. apply Hpre. now right.
Qed.

Lemma skipOrder_false now zfo amt o :
  skipOrder now zfo amt o = false ↔
  active o = true ∧ now ≤ expiry o ∧ sellToken0 o ≠ zfo ∧ minAmountOut o ≤ amt.
Proof.
  unfold skipOrder. rewrite !orb_false_iff, negb_false_iff.
  rewrite !N.ltb_ge. rewrite eqb_false_iff. tauto.
Qed.

(** ** What a successful [beforeSwap] did *)

Section BeforeSwapFacts.

Variable this : address.

Variable keccak256 : PoolKey → bytes32.

Lemma beforeSwap_ok_inv msg sender key params m r m' :
  beforeSwap this keccak256 msg sender key params m = Ok r m' →
  msg_sender msg = poolManager (st m) ∧
  ((r = noMatch ∧ m' = m ∧
    (isBot (st m) sender = false ∨ (0 ≤ amountSpecified params)%Z ∨
     selectMatch keccak256 (st m) msg key params = None))
   ∨
   (∃ id w1 w2,
      let o := orderAt (st m) id in
      let s1 := matchedState (keccak256 key) id (st m) in
      isBot (st m) sender = true ∧
      (amountSpecified params < 0)%Z ∧
      Z.to_N (- amountSpecified params) ≤ Z.to_N INT128_MAX ∧
      selectMatch keccak256 (st m) msg key params = Some id ∧
      erc20_transfer (swapInput key params) (poolManager (st m)) (maker o)
        (minAmountOut o) (ledger m) = Some w1 ∧
      erc20_transfer (swapOutput key params) this (poolManager (st m))
        (amountIn o) w1 = Some w2 ∧
      int128_of_uint128 (amountIn o) ≠ INT128_MIN ∧
      r = (beforeSwap_selector,
           toBeforeSwapDelta (int128_of_uint128 (minAmountOut o))
                             (- int128_of_uint128 (amountIn o)), 0) ∧
      m' = mkMachine s1 w2
             (log m ++ matchLog sender key params id o
                         (poolManager (st m)) s1))).
Proof.
  unfold beforeSwap, onlyPoolManager. intros H. minv.
  match goal with E : negb _ = false |- _ =>
    apply negb_false_iff, N.eqb_eq in E; split; [exact E|] end.
  destruct (isBot (st m) sender) eqn:Ebot; cbn [negb] in H.
  2:{ minv. left. auto. }
  destruct (0 <=? amountSpecified params)%Z eqn:Eamt.
  { minv. left. apply Z.leb_le in Eamt. auto. }
  apply Z.leb_gt in Eamt. minv.
  fold (selectMatch keccak256 (st m) msg key params) in H.
  destruct (selectMatch keccak256 (st m) msg key params) as [id|] eqn:Esel.
  2:{ minv. left. auto. }
  right. minv. unfold checkedNeg128 in *.
  destruct (int128_of_uint128 (amountIn (orderAt (st m) id)) =? INT128_MIN)%Z
    eqn:Eneg; [discriminate|].
  apply Z.eqb_neq in Eneg. minv.
  cbn in *. rewrite removeOrderSt_poolManager in *. cbn in *.
  match goal with E : (_ <? _) = false |- _ => apply N.ltb_ge in E end.
  eexists id, _, _. repeat split; try eassumption.
  unfold matchLog, swapInput, swapOutput, matchedState.
  rewrite <- !app_assoc. reflexivity.
Qed.

End BeforeSwapFacts.

(** ** What the other entry points did when they succeeded *)

Section EntryPoints.

Variable this : address.

Variable keccak256 : PoolKey → bytes32.

Lemma postOrder_ok_inv msg key sell0 amtIn minOut duration m id m' :
  postOrder this keccak256 msg key sell0 amtIn minOut duration m = Ok id m' →
  let exp := block_timestamp msg + duration in
  let o := mkOrder (msg_sender msg) sell0 amtIn minOut exp true
             (keccak256 key) in
  isBot (st m) (msg_sender msg) = true ∧
  amtIn ≠ 0 ∧ minOut ≠ 0 ∧ duration ≠ 0 ∧ duration ≤ MAX_ORDER_DURATION ∧
  id = nextOrderId (st m) ∧ id + 1 ≤ UINT256_MAX ∧
  ∃ w', erc20_transfer (tokenInOf key sell0) (msg_sender msg) this amtIn
          (ledger m) = Some w' ∧
    m' = mkMachine (postedState (keccak256 key) o (st m)) w'
           (log m ++
            [External (TokenTransferFrom (tokenInOf key sell0)
                         (msg_sender msg) this amtIn) true
               (setOrder id o (set_nextOrderId (id + 1) (st m)));
             Emitted (OrderPosted id (msg_sender msg) sell0 amtIn minOut
                        exp)]).
Proof.
  unfold postOrder, onlyWhitelisted. intros H. minv. cbn in *.
  repeat match goal with
         | E : negb _ = false |- _ => apply negb_false_iff in E
         | E : (_ || _) = false |- _ => apply orb_false_iff in E as [? ?]
         | E : (_ =? _) = false |- _ => apply N.eqb_neq in E
         | E : (_ <? _) = false |- _ => apply N.ltb_ge in E
         end.
  repeat split; try assumption.
  eexists. split; [eassumption|].
  unfold postedState. rewrite <- app_assoc. reflexivity.
Qed.

Lemma cancelOrder_ok_inv msg orderId key m a m' :
  cancelOrder this keccak256 msg orderId key m = Ok a m' →
  let o := orderAt (st m) orderId in
  let s1 := matchedState (keccak256 key) orderId (st m) in
  orderId < nextOrderId (st m) ∧ msg_sender msg = maker o ∧
  active o = true ∧ keccak256 key = poolId o ∧
  ∃ w', erc20_transfer (tokenInOf key (sellToken0 o)) this (maker o)
          (amountIn o) (ledger m) = Some w' ∧
    m' = mkMachine s1 w'
           (log m ++
            [External (TokenTransfer (tokenInOf key (sellToken0 o))
                         (maker o) (amountIn o)) true s1;
             Emitted (OrderCancelled orderId (maker o))]).
Proof.
  unfold cancelOrder. intros H. minv. cbn in *.
  repeat match goal with
         | E : negb _ = false |- _ => apply negb_false_iff in E
         | E : (_ =? _) = true |- _ => apply N.eqb_eq in E
         | E : (_ <=? _) = false |- _ => apply N.leb_gt in E
         end.
  repeat split; try assumption.
  eexists. split; [eassumption|].
  unfold matchedState. rewrite <- app_assoc. reflexivity.
Qed.

Lemma claimRefund_ok_inv msg token m a m' :
  claimRefund this msg token m = Ok a m' →
  let amount := unclaimedOf (st m) (msg_sender msg) token in
  let s1 := setUnclaimed (msg_sender msg) token 0 (st m) in
  amount ≠ 0 ∧
  ∃ w', erc20_transfer token this (msg_sender msg) amount (ledger m)
        = Some w' ∧
    m' = mkMachine s1 w'
           (log m ++
            [External (TokenTransfer token (msg_sender msg) amount) true
               s1]).
Proof.
  unfold claimRefund. intros H. minv. cbn in *.
  match goal with E : (_ =? _) = false |- _ => apply N.eqb_neq in E end.
  split; [assumption|]. eexists. split; [eassumption|reflexivity].
Qed.

Lemma purgeOne_ok_inv key pid i m a m' :
  purgeOne this key pid i m = Ok a m' →
  let id := default 0 (idsOf (st m) pid !! i) in
  let o := orderAt (st m) id in
  let token := tokenInOf key (sellToken0 o) in
  let s1 := setOrder id (deactivate o) (st m) in
  (∃ w', erc20_transfer token this (maker o) (amountIn o) (ledger m)
         = Some w' ∧
     m' = mkMachine (purgedState pid i (st m)) w'
            (log m ++
             [External (TokenTransfer token (maker o) (amountIn o)) true s1;
              Emitted (OrderExpired id (maker o))]))
  ∨ (erc20_transfer token this (maker o) (amountIn o) (ledger m) = None ∧
     unclaimedOf (st m) (maker o) token + amountIn o ≤ UINT256_MAX ∧
     m' = mkMachine
            (creditUnclaimed (maker o) token (amountIn o)
               (purgedState pid i (st m)))
            (ledger m)
            (log m ++
             [External (TokenTransfer token (maker o) (amountIn o)) false s1;
              Emitted (RefundFailed id (maker o));
              Emitted (OrderExpired id (maker o))])).
Proof.
  unfold purgeOne, tryTransfer. intros H. minv. cbn in *.
  match goal with
  | H : external _ _ _ _ _ _ = Ok _ _ |- _ =>
      apply external_ok_inv in H as [(-> & w' & Hw & ->)|(-> & Hw & ->)]
  end; minv; cbn in *.
  - left. eexists. split; [eassumption|].
    rewrite <- app_assoc. reflexivity.
  - right. split; [assumption|]. split; [assumption|].
    rewrite <- !app_assoc. reflexivity.
Qed.

End EntryPoints.

(** ** The order-book invariant *)

Lemma wf_ext s s' :
  orders s' = orders s → poolOrders s' = poolOrders s →
  nextOrderId s' = nextOrderId s → wf s → wf s'.
Proof.
  intros Ho Hp Hn [Ha Hd Hf]. split; unfold idsOf, orderAt in *.
  - intros p id. rewrite Ho, Hp. apply Ha.
  - intros p. rewrite Hp. apply Hd.
  - intros id. rewrite Ho, Hn. apply Hf.
Qed.

Lemma wf_constructor a pm : wf (constructor a pm).
Proof.
  split; unfold idsOf, orderAt; cbn.
  - intros p id. rewrite !lookup_empty. cbn. split.
    + intros H. now apply elem_of_nil in H.
    + intros [H _]. discriminate.
  - intros p. rewrite lookup_empty. cbn. constructor.
  - intros id _. apply lookup_empty.
Qed.

Lemma wf_active_lt s id :
  wf s → active (orderAt s id) = true → id < nextOrderId s.
Proof.
  intros Hwf Hact. destruct (N.lt_ge_cases id (nextOrderId s)) as [|Hge];
    [assumption|].
  apply (wf_fresh s Hwf) in Hge. unfold orderAt in Hact. rewrite Hge in Hact.
  discriminate.
Qed.

Lemma wf_postedState s pid o :
  wf s → active o = true → poolId o = pid → wf (postedState pid o s).
Proof.
  intros Hwf Hact Hpid. unfold postedState.
  set (id := nextOrderId s).
  assert (Hnew : ∀ p, id ∉ idsOf s p).
  { intros p Hin. apply (wf_agree s Hwf) in Hin as [Hin _].
    apply (wf_active_lt s id Hwf) in Hin. unfold id in Hin. lia. }
  split.
  - intros p x. rewrite idsOf_setIds.
    change (orderAt (setIds pid (idsOf s pid ++ [id])
              (setOrder id o (set_nextOrderId (id + 1) s))) x)
      with (orderAt (setOrder id o s) x).
    rewrite orderAt_setOrder.
    change (idsOf (setOrder id o (set_nextOrderId (id + 1) s)) p)
      with (idsOf s p).
    destruct (decide (id = x)) as [<-|Hne].
    + rewrite Hact, Hpid. destruct (decide (pid = p)) as [<-|Hp].
      * rewrite elem_of_app, list_elem_of_singleton. tauto.
      * split; [intros H; now apply Hnew in H|tauto].
    + rewrite <- (wf_agree s Hwf). destruct (decide (pid = p)) as [<-|Hp].
      * rewrite elem_of_app, list_elem_of_singleton. split; [|tauto].
        intros [H|H]; [exact H|congruence].
      * reflexivity.
  - intros p. rewrite idsOf_setIds.
    change (idsOf (setOrder id o (set_nextOrderId (id + 1) s)) p)
      with (idsOf s p).
    destruct (decide (pid = p)) as [<-|Hp]; [|apply (wf_nodup s Hwf)].
    apply NoDup_app. split; [apply (wf_nodup s Hwf)|].
    split; [|apply NoDup_singleton].
    intros x Hx Hx'. apply list_elem_of_singleton in Hx'. subst x.
    now apply Hnew in Hx.
  - intros x Hx. cbn in *. rewrite lookup_insert_ne by (unfold id; lia).
    apply (wf_fresh s Hwf). unfold id in *. lia.
Qed.

Lemma NoDup_delete_elem (ids : list N) i id x :
  NoDup ids → ids !! i = Some id → x ∈ delete i ids ↔ x ∈ ids ∧ x ≠ id.
Proof.
  intros Hnd Hi. pose proof (delete_Permutation ids i id Hi) as Hp.
  rewrite Hp in Hnd. apply NoDup_cons in Hnd as [Hnotin _].
  rewrite (elem_of_Permutation_proper x _ _ Hp), elem_of_cons.
  split.
  - intros H. split; [now right|]. congruence.
  - intros [[->|H] Hne]; [congruence|exact H].
Qed.

Lemma NoDup_indexOf (ids : list N) i id :
  NoDup ids → ids !! i = Some id → indexOf id ids = Some i.
Proof.
  intros Hnd Hi. destruct (indexOf id ids) as [j|] eqn:E.
  - apply indexOf_Some in E as [Hj _]. f_equal.
    exact (NoDup_lookup ids j i id Hnd Hj Hi).
  - apply indexOf_None in E. exfalso. apply E.
    apply list_elem_of_lookup. eauto.
Qed.

Lemma wf_matchedState s pid id :
  wf s → active (orderAt s id) = true → poolId (orderAt s id) = pid →
  wf (matchedState pid id s).
Proof.
  intros Hwf Hact Hpid. unfold matchedState.
  set (o := orderAt s id).
  assert (Hin : id ∈ idsOf s pid) by (apply (wf_agree s Hwf); auto).
  destruct (indexOf_elem _ _ Hin) as [i Hi].
  pose proof (indexOf_Some _ _ _ Hi) as [Hlook _].
  pose proof (lookup_lt_Some _ _ _ Hlook) as Hlt.
  pose proof (wf_nodup s Hwf pid) as Hnd.
  assert (Hids : ∀ p, idsOf (removeOrderSt pid id (setOrder id (deactivate o) s)) p
                 = if decide (pid = p) then swapAndPop i (idsOf s pid)
                   else idsOf s p).
  { intros p. rewrite idsOf_removeOrderSt, !idsOf_setOrder. now rewrite Hi. }
  split.
  - intros p x. rewrite Hids, orderAt_removeOrderSt, orderAt_setOrder.
    destruct (decide (pid = p)) as [<-|Hp].
    + rewrite (elem_of_Permutation_proper x _ _ (swapAndPop_perm i _ Hlt)).
      rewrite (NoDup_delete_elem _ i id x Hnd Hlook).
      destruct (decide (id = x)) as [<-|Hne]; cbn.
      * split; [tauto|]. intros [? _]. discriminate.
      * rewrite (wf_agree s Hwf). split; [tauto|]. intros H. split; [exact H|].
        congruence.
    + destruct (decide (id = x)) as [<-|Hne]; cbn.
      * split; [|intros [? _]; discriminate].
        intros H. apply (wf_agree s Hwf) in H as [_ H]. congruence.
      * apply (wf_agree s Hwf).
  - intros p. rewrite Hids. destruct (decide (pid = p)) as [<-|Hp].
    + rewrite (swapAndPop_perm i _ Hlt).
      rewrite (delete_Permutation _ i id Hlook) in Hnd.
      now apply NoDup_cons in Hnd as [_ ?].
    + apply (wf_nodup s Hwf).
  - intros x Hx. rewrite removeOrderSt_orders. cbn in *.
    rewrite removeOrderSt_nextOrderId in Hx. cbn in Hx.
    pose proof (wf_active_lt s id Hwf Hact).
    rewrite lookup_insert_ne by lia. now apply (wf_fresh s Hwf).
Qed.

Lemma purgedState_matched s pid i id :
  NoDup (idsOf s pid) → idsOf s pid !! i = Some id →
  purgedState pid i s = matchedState pid id s.
Proof.
  intros Hnd Hi. unfold purgedState, matchedState, removeOrderSt.
  rewrite Hi. cbn [default from_option]. rewrite idsOf_setOrder.
  now rewrite (NoDup_indexOf _ i id Hnd Hi).
Qed.

(** ** The purge loop *)

Lemma swapAndPop_take i (ids : list N) :
  (i < length ids)%nat → take i (swapAndPop i ids) = take i ids.
Proof.
  intros Hi. unfold swapAndPop.
  destruct (last ids) as [l|] eqn:El; [|reflexivity].
  apply last_Some in El as [pre ->]. rewrite length_app in Hi. cbn in Hi.
  destruct (decide (i = length pre)) as [->|Hne].
  - rewrite insert_app_r_alt by lia. rewrite Nat.sub_diag. cbn.
    rewrite removelast_last. rewrite take_app_length.
    now rewrite firstn_all.
  - rewrite insert_app_l by lia. rewrite removelast_last.
    rewrite take_insert_ge by lia. rewrite take_app_le by lia. reflexivity.
Qed.


Lemma total_ret {A} (a : A) : total (ret a).
Proof. intros m. discriminate. Qed.

Lemma total_mret {A} (a : A) : total (mret a : M A).
Proof. intros m. discriminate. Qed.

Lemma total_revert {A} e : total (revert e : M A).
Proof. intros m. discriminate. Qed.

Lemma total_getState : total getState.
Proof. intros m. discriminate. Qed.

Lemma total_getLedger : total getLedger.
Proof. intros m. discriminate. Qed.

Lemma total_modify f : total (modify f).
Proof. intros m. discriminate. Qed.

Lemma total_emit e : total (emit e).
Proof. intros m. discriminate. Qed.

Lemma total_externalNoop c : total (externalNoop c).
Proof. intros m. discriminate. Qed.

Lemma total_revertIf c e : total (revertIf c e).
Proof. intros m. destruct c; discriminate. Qed.

Lemma total_checkedAdd a b : total (checkedAdd a b).
Proof. intros m. unfold checkedAdd. destruct (_ <? _); discriminate. Qed.

Lemma total_checkedNeg128 x : total (checkedNeg128 x).
Proof. intros m. unfold checkedNeg128. destruct (_ =? _)%Z; discriminate. Qed.

Lemma total_external c t f to amt : total (external c t f to amt).
Proof.
  intros m. unfold external. destruct (erc20_transfer _ _ _ _ _); discriminate.
Qed.


Create HintDb total.

#[local] Hint Resolve total_ret total_mret total_revert total_getState
  total_getLedger total_modify total_emit total_externalNoop total_revertIf total_checkedAdd
  total_checkedNeg128 total_external : total.


Section PurgeLoop.

Variable this : address.

Variable msg : Msg.

Variable key : PoolKey.

Variable pid : bytes32.

Variable maxPurge : uint256.




(** Invariant rule for the loop. *)
Lemma purgeLoop_inv (P : nat → N → Machine → Prop) :
  (∀ i purged m a m',
      P i purged m →
      (i < length (idsOf (st m) pid))%nat → purged < maxPurge →
      purgeable (block_timestamp msg)
        (orderAt (st m) (default 0 (idsOf (st m) pid !! i))) = true →
      purgeOne this key pid i m = Ok a m' →
      P i (purged + 1) m') →
  (∀ i purged m,
      P i purged m →
      (i < length (idsOf (st m) pid))%nat → purged < maxPurge →
      purgeable (block_timestamp msg)
        (orderAt (st m) (default 0 (idsOf (st m) pid !! i))) = false →
      P (S i) purged m) →
  ∀ fuel i purged m a m',
    P i purged m →
    purgeLoop this fuel msg key pid maxPurge i purged m = Ok a m' →
    ∃ i' purged', P i' purged' m' ∧
      ((length (idsOf (st m') pid) ≤ i')%nat ∨ maxPurge ≤ purged').
Proof.
  intros Hpurge Hskip. induction fuel as [|fuel IH];
    intros i purged m a m' HP H; [discriminate|].
  cbn [purgeLoop] in H. apply bind_ok_inv in H as (s & m0 & H0 & H).
  injection H0 as <- <-.
  destruct ((i <? length (idsOf (st m) pid))%nat && (purged <? maxPurge))
    eqn:Econd.
  - apply andb_true_iff in Econd as [Hi Hp].
    apply Nat.ltb_lt in Hi. apply N.ltb_lt in Hp.
    destruct (purgeable _ _) eqn:Ep.
    + apply bind_ok_inv in H as (u & m1 & H1 & H).
      apply (IH _ _ _ _ _ (Hpurge _ _ _ _ _ HP Hi Hp Ep H1) H).
    + apply (IH _ _ _ _ _ (Hskip _ _ _ HP Hi Hp Ep) H).
  - injection H as <- <-. exists i, purged. split; [exact HP|].
    apply andb_false_iff in Econd as [Hi|Hp].
    + left. apply Nat.ltb_ge in Hi. exact Hi.
    + right. apply N.ltb_ge in Hp. exact Hp.
Qed.

End PurgeLoop.

(** *** Counting entries, reading the purge log *)

Lemma countIf_app f l k : countIf f (l ++ k) = (countIf f l + countIf f k)%nat.
Proof. induction l as [|x l IH]; cbn; [reflexivity|]. rewrite IH. lia. Qed.

Lemma countIf_perm f l k : l ≡ₚ k → countIf f l = countIf f k.
Proof. induction 1; cbn; lia. Qed.

Lemma countIf_ext f g l :
  (∀ x, x ∈ l → f x = g x) → countIf f l = countIf g l.
Proof.
  induction l as [|x l IH]; cbn; intros H; [reflexivity|].
  rewrite (H x) by left. rewrite IH; [reflexivity|].
  intros y Hy. apply H. now right.
Qed.

Lemma countIf_all f l : (∀ x, x ∈ l → f x = true) → countIf f l = length l.
Proof.
  induction l as [|x l IH]; cbn; intros H; [reflexivity|].
  rewrite (H x) by left. rewrite IH; [reflexivity|].
  intros y Hy. apply H. now right.
Qed.

Lemma countIf_none f l : (∀ x, x ∈ l → f x = false) → countIf f l = O.
Proof.
  induction l as [|x l IH]; cbn; intros H; [reflexivity|].
  rewrite (H x) by left. rewrite IH; [reflexivity|].
  intros y Hy. apply H. now right.
Qed.

Lemma countIf_le f l : (countIf f l ≤ length l)%nat.
Proof. induction l as [|x l IH]; cbn; [lia|]. destruct (f x); lia. Qed.

Section PurgeSpec.

Variable this : address.

Variable msg : Msg.

Variable key : PoolKey.

Variable pid : bytes32.

Variable maxPurge : uint256.

Variable m0 : Machine.

Hypothesis Hwf0 : wf (st m0).

Let now := block_timestamp msg.

Lemma progress_disjoint m done :
  purgeProgress now key pid m0 m done →
  NoDup done ∧ ∀ x, x ∈ idsOf (st m) pid → x ∉ done.
Proof.
  intros Hp. pose proof (wf_nodup _ Hwf0 pid) as Hnd.
  rewrite (pp_perm _ _ _ _ _ _ Hp) in Hnd.
  apply NoDup_app in Hnd as (Hd & Hdisj & _). split; [exact Hd|].
  intros x Hx Hx'. exact (Hdisj x Hx' Hx).
Qed.

Lemma purgeInv_init : purgeInv msg key pid maxPurge m0 O 0 m0.
Proof.
  exists []. split; [|split; [reflexivity|split; [lia|]]].
  - split.
    + exact Hwf0.
    + exists []. now rewrite app_nil_r.
    + reflexivity.
    + intros id H. now apply elem_of_nil in H.
    + reflexivity.
    + reflexivity.
    + reflexivity.
  - intros x H. cbn in H. now apply elem_of_nil in H.
Qed.

Lemma purgeInv_skip i purged m :
  purgeInv msg key pid maxPurge m0 i purged m →
  (i < length (idsOf (st m) pid))%nat → purged < maxPurge →
  purgeable now (orderAt (st m) (default 0 (idsOf (st m) pid !! i))) = false →
  purgeInv msg key pid maxPurge m0 (S i) purged m.
Proof.
  intros (done & Hp & Hlen & Hmax & Hscan) Hi _ Hnp.
  exists done. split; [exact Hp|]. split; [exact Hlen|].
  split; [exact Hmax|].
  destruct (lookup_lt_is_Some_2 _ _ Hi) as [oid Hoid].
  rewrite Hoid in Hnp. cbn [default from_option id] in Hnp.
  intros x Hx. rewrite (take_S_r _ _ _ Hoid) in Hx.
  apply elem_of_app in Hx as [Hx|Hx]; [now apply Hscan|].
  apply list_elem_of_singleton in Hx. now subst x.
Qed.

Lemma purgeInv_purge i purged m a m' :
  purgeInv msg key pid maxPurge m0 i purged m →
  (i < length (idsOf (st m) pid))%nat → purged < maxPurge →
  purgeable now (orderAt (st m) (default 0 (idsOf (st m) pid !! i))) = true →
  purgeOne this key pid i m = Ok a m' →
  purgeInv msg key pid maxPurge m0 i (purged + 1) m'.
Proof.
  intros (done & Hp & Hlen & Hmax & Hscan) Hi Hlt Hpg Hone.
  destruct (lookup_lt_is_Some_2 _ _ Hi) as [oid Hoid].
  apply purgeOne_ok_inv in Hone. rewrite Hoid in Hone, Hpg.
  cbn [default from_option id] in Hone, Hpg.
  destruct (progress_disjoint _ _ Hp) as [Hnd Hdisj].
  pose proof (pp_wf _ _ _ _ _ _ Hp) as Hwf.
  pose proof (wf_nodup _ Hwf pid) as Hndm.
  assert (Hin : oid ∈ idsOf (st m) pid) by (eapply list_elem_of_lookup_2; eauto).
  assert (Hnotdone : oid ∉ done) by now apply Hdisj.
  pose proof (pp_rest _ _ _ _ _ _ Hp oid Hnotdone) as Hsame.
  assert (Hact : active (orderAt (st m) oid) = true).
  { unfold purgeable in Hpg. now apply andb_true_iff in Hpg as [? _]. }
  assert (Hpid : poolId (orderAt (st m) oid) = pid).
  { now apply (wf_agree _ Hwf) in Hin as [_ ?]. }
  pose proof (wf_matchedState _ _ _ Hwf Hact Hpid) as Hwf'.
  rewrite <- (purgedState_matched _ _ i oid Hndm Hoid) in Hwf'.
  (* storage facts shared by both outcomes of the refund *)
  assert (Hord : ∀ s', orders s' = orders (purgedState pid i (st m)) →
            ∀ x, orderAt s' x = if decide (oid = x)
                                then deactivate (orderAt (st m) oid)
                                else orderAt (st m) x).
  { intros s' Ho x. unfold orderAt at 1. rewrite Ho.
    unfold purgedState. rewrite Hoid. cbn [default from_option id].
    change (default zeroOrder
              (orders (setIds pid (swapAndPop i (idsOf (st m) pid))
                 (setOrder oid (deactivate (orderAt (st m) oid)) (st m))) !! x))
      with (orderAt (setOrder oid (deactivate (orderAt (st m) oid)) (st m)) x).
    apply orderAt_setOrder. }
  assert (Hgoal : ∀ s' w' L',
            wf s' → orders s' = orders (purgedState pid i (st m)) →
            (∀ p, idsOf s' p = idsOf (purgedState pid i (st m)) p) →
            nextOrderId s' = nextOrderId (st m) →
            expiredIds L' = [oid] →
            transfersOf L' = [refundOf key (st m) oid] →
            purgeInv msg key pid maxPurge m0 i (purged + 1)
              (mkMachine s' w' (log m ++ L'))).
  { intros s' w' L' Hwfs Ho Hi' Hnx HeL HtL. exists (done ++ [oid]).
    assert (Hidsp : idsOf s' pid = swapAndPop i (idsOf (st m) pid)).
    { rewrite Hi'. unfold purgedState. rewrite idsOf_setIds.
      now destruct (decide (pid = pid)). }
    split; [split|split; [|split]]; cbn [st log].
    - exact Hwfs.
    - destruct (pp_log _ _ _ _ _ _ Hp) as (L & HL & HeLd & HtLd).
      exists (L ++ L'). rewrite HL, <- app_assoc. split; [reflexivity|].
      unfold expiredIds, transfersOf in *. rewrite !omap_app.
      rewrite HeL, HtL, HeLd, HtLd, map_app. cbn.
      split; [reflexivity|]. unfold refundOf. now rewrite Hsame.
    - rewrite Hidsp, (swapAndPop_perm _ _ Hi).
      rewrite (pp_perm _ _ _ _ _ _ Hp).
      rewrite (delete_Permutation _ _ _ Hoid) at 1.
      rewrite <- app_assoc. reflexivity.
    - intros x Hx. rewrite (Hord s' Ho).
      apply elem_of_app in Hx as [Hx|Hx].
      + destruct (decide (oid = x)) as [<-|_]; [contradiction|].
        apply (pp_done _ _ _ _ _ _ Hp x Hx).
      + apply list_elem_of_singleton in Hx. subst x.
        destruct (decide (oid = oid)); [|congruence].
        rewrite <- Hsame. auto.
    - intros x Hx. rewrite (Hord s' Ho).
      rewrite elem_of_app, list_elem_of_singleton in Hx.
      destruct (decide (oid = x)) as [<-|_]; [tauto|].
      apply (pp_rest _ _ _ _ _ _ Hp). tauto.
    - intros p Hne. rewrite Hi'. unfold purgedState.
      rewrite idsOf_setIds. destruct (decide (pid = p)); [congruence|].
      rewrite idsOf_setOrder. now apply (pp_other _ _ _ _ _ _ Hp).
    - rewrite Hnx. exact (pp_next _ _ _ _ _ _ Hp).
    - rewrite length_app. cbn. lia.
    - lia.
    - intros x Hx. rewrite Hidsp, (swapAndPop_take _ _ Hi) in Hx.
      rewrite (Hord s' Ho).
      destruct (decide (oid = x)) as [<-|_]; [reflexivity|].
      now apply Hscan. }
  destruct Hone as [(w' & _ & E)|(_ & _ & E)]; rewrite E;
    apply Hgoal; try reflexivity; try exact Hwf'.
  eapply wf_ext; [| | |exact Hwf']; reflexivity.
Qed.

End PurgeSpec.

Section PurgeTop.

Variable this : address.

Variable keccak256 : PoolKey → bytes32.


Lemma purge_spec msg key maxPurge m0 a m' :
  wf (st m0) →
  purgeExpiredOrders this keccak256 msg key maxPurge m0 = Ok a m' →
  let pid := keccak256 key in
  let now := block_timestamp msg in
  ∃ done,
    purgeProgress now key pid m0 m' done ∧
    NoDup done ∧
    N.of_nat (length done)
      = N.min maxPurge (N.of_nat (expiredCount (st m0) now pid)) ∧
    (∀ x, x ∈ idsOf (st m') pid → x ∉ done) ∧
    (N.of_nat (expiredCount (st m0) now pid) ≤ maxPurge →
     ∀ x, x ∈ idsOf (st m') pid → purgeable now (orderAt (st m') x) = false).
Proof.
  intros Hwf0 H pid now. unfold purgeExpiredOrders in H.
  apply bind_ok_inv in H as (s & m1 & H1 & H). injection H1 as <- <-.
  apply (purgeLoop_inv this msg key (keccak256 key) maxPurge
           (purgeInv msg key (keccak256 key) maxPurge m0)) in H.
  - destruct H as (i' & purged' & (done & Hp & Hlen & Hmax & Hscan) & Hexit).
    fold pid now in Hp, Hscan, Hexit.
    destruct (progress_disjoint msg key pid m0 Hwf0 _ _ Hp) as [Hnd Hdisj].
    exists done. split; [exact Hp|]. split; [exact Hnd|].
    (* the purgeable entries at entry: those removed plus those left *)
    assert (Hcount : expiredCount (st m0) now pid
              = (length done + expiredCount (st m') now pid)%nat).
    { unfold expiredCount.
      rewrite (countIf_perm _ _ _ (pp_perm _ _ _ _ _ _ Hp)), countIf_app.
      f_equal.
      - apply countIf_all. intros x Hx.
        apply (pp_done _ _ _ _ _ _ Hp x Hx).
      - apply countIf_ext. intros x Hx.
        now rewrite (pp_rest _ _ _ _ _ _ Hp x (Hdisj x Hx)). }
    assert (Hall : (length (idsOf (st m') pid) ≤ i')%nat →
              ∀ x, x ∈ idsOf (st m') pid →
                   purgeable now (orderAt (st m') x) = false).
    { intros Hle x Hx. apply Hscan. now rewrite take_ge by exact Hle. }
    split; [|split; [exact Hdisj|]].
    + destruct Hexit as [Hle|Hge].
      * assert (expiredCount (st m') now pid = O) as Hz.
        { apply countIf_none. now apply Hall. }
        lia.
      * lia.
    + intros Hfew. destruct Hexit as [Hle|Hge]; [now apply Hall|].
      assert (expiredCount (st m') now pid = O) as Hz by lia.
      intros x Hx. destruct (purgeable now (orderAt (st m') x)) eqn:E;
        [|reflexivity].
      exfalso. unfold expiredCount in Hz.
      apply list_elem_of_lookup_1 in Hx as [j Hj].
      rewrite <- (take_drop_middle _ _ _ Hj), countIf_app in Hz.
      cbn in Hz. rewrite E in Hz. lia.
  - intros. eapply purgeInv_purge; eauto.
  - intros. eapply purgeInv_skip; eauto.
  - apply purgeInv_init. exact Hwf0.
Qed.

End PurgeTop.

(** ** The invariant holds along every run *)

Section RunInvariant.

Variable this : address.

Variable keccak256 : PoolKey → bytes32.

Lemma selectMatch_Some s msg key params id :
  wf s →
  selectMatch keccak256 s msg key params = Some id →
  id ∈ idsOf s (keccak256 key) ∧
  active (orderAt s id) = true ∧ poolId (orderAt s id) = keccak256 key ∧
  skipOrder (block_timestamp msg) (zeroForOne params)
    (Z.to_N (- amountSpecified params)) (orderAt s id) = false.
Proof.
  intros Hwf H. unfold selectMatch in H.
  apply scanOrders_Some in H as [Hin Hskip].
  assert (id ∈ idsOf s (keccak256 key)) as Hin'.
  { apply elem_of_take in Hin as (j & Hj & _).
    eapply list_elem_of_lookup_2; eauto. }
  split; [exact Hin'|].
  apply (wf_agree s Hwf) in Hin' as [Hact Hpid]. auto.
Qed.

Lemma dispatch_wf msg c m a m' :
  wf (st m) → dispatch this keccak256 msg c m = Ok a m' → wf (st m').
Proof.
  intros Hwf H. destruct c; cbn [dispatch] in H.
  - unfold addBot, onlyAdmin in H. minv. cbn.
    eapply wf_ext; [| | |exact Hwf]; reflexivity.
  - unfold removeBot, onlyAdmin in H. minv. cbn.
    eapply wf_ext; [| | |exact Hwf]; reflexivity.
  - unfold setAdmin, onlyAdmin in H. minv. cbn.
    eapply wf_ext; [| | |exact Hwf]; reflexivity.
  - unfold acceptAdmin in H. minv. cbn.
    eapply wf_ext; [| | |exact Hwf]; reflexivity.
  - minv. match goal with H : postOrder _ _ _ _ _ _ _ _ _ = _ |- _ =>
      apply postOrder_ok_inv in H as (_ & _ & _ & _ & _ & _ & _ & w' & _ & ->)
    end. cbn. now apply wf_postedState.
  - apply cancelOrder_ok_inv in H as (_ & _ & Hact & Hpid & w' & _ & ->).
    cbn. now apply wf_matchedState.
  - minv. match goal with H : beforeSwap _ _ _ _ _ _ _ = _ |- _ =>
      apply beforeSwap_ok_inv in H as [_ [(_ & -> & _)|
        (id & w1 & w2 & _ & _ & _ & Hsel & _ & _ & _ & _ & ->)]]
    end; [exact Hwf|].
    cbn. apply (selectMatch_Some _ _ _ _ _ Hwf) in Hsel as (_ & ? & ? & _).
    now apply wf_matchedState.
  - unfold afterSwap, onlyPoolManager in H. minv. exact Hwf.
  - apply (purge_spec _ _ _ _ _ _ _ _ Hwf) in H as (done & Hp & _).
    exact (pp_wf _ _ _ _ _ _ Hp).
  - apply claimRefund_ok_inv in H as (_ & w' & _ & ->). cbn.
    eapply wf_ext; [| | |exact Hwf]; reflexivity.
  - discriminate H.
Qed.

Lemma step_wf m x : wf (st m) → wf (st (step this keccak256 m x)).
Proof.
  intros Hwf. destruct x as [msg c| | |token from to amt]; cbn;
    try exact Hwf.
  - destruct (dispatch this keccak256 msg c m) as [a m'| |] eqn:E;
      [|exact Hwf|exact Hwf].
    exact (dispatch_wf _ _ _ _ _ Hwf E).
  - destruct (erc20_transfer token from to amt (ledger m)); exact Hwf.
Qed.

Lemma run_wf steps : ∀ m, wf (st m) → wf (st (run this keccak256 m steps)).
Proof.
  induction steps as [|x steps IH]; intros m Hwf; cbn; [exact Hwf|].
  apply IH. now apply step_wf.
Qed.

Lemma run_app m xs ys :
  run this keccak256 m (xs ++ ys)
  = run this keccak256 (run this keccak256 m xs) ys.
Proof. unfold run. apply foldl_app. Qed.

End RunInvariant.

(** ** Matches seen in the log *)

Lemma newLog_app m l w s : newLog m (mkMachine s w (log m ++ l)) = l.
Proof. unfold newLog. cbn. apply drop_app_length. Qed.

Lemma newLog_same m : newLog m m = [].
Proof. unfold newLog. apply drop_all. Qed.

Section Settled.

Variable this : address.

Variable keccak256 : PoolKey → bytes32.

Lemma settled_matchedState s pid id' id :
  settled s id → settled (matchedState pid id' s) id.
Proof.
  intros [Hlt Hin]. unfold settled, matchedState.
  rewrite removeOrderSt_nextOrderId, orderAt_removeOrderSt, orderAt_setOrder.
  split; [exact Hlt|]. now destruct (decide (id' = id)).
Qed.

Lemma dispatch_settled msg c m a m' id :
  wf (st m) → settled (st m) id →
  dispatch this keccak256 msg c m = Ok a m' → settled (st m') id.
Proof.
  intros Hwf Hs H. destruct c; cbn [dispatch] in H.
  - unfold addBot, onlyAdmin in H. minv. exact Hs.
  - unfold removeBot, onlyAdmin in H. minv. exact Hs.
  - unfold setAdmin, onlyAdmin in H. minv. exact Hs.
  - unfold acceptAdmin in H. minv. exact Hs.
  - minv. match goal with H : postOrder _ _ _ _ _ _ _ _ _ = _ |- _ =>
      apply postOrder_ok_inv in H as (_ & _ & _ & _ & _ & _ & _ & w' & _ & ->)
    end. destruct Hs as [Hlt Hin]. unfold settled, postedState. cbn [st].
    split; [cbn; lia|].
    change (orderAt (setIds ?p ?l (setOrder ?i ?o (set_nextOrderId ?n ?s))) id)
      with (orderAt (setOrder i o s) id).
    rewrite orderAt_setOrder.
    destruct (decide (nextOrderId (st m) = id)); [lia|exact Hin].
  - apply cancelOrder_ok_inv in H as (_ & _ & _ & _ & w' & _ & ->).
    now apply settled_matchedState.
  - minv. match goal with H : beforeSwap _ _ _ _ _ _ _ = _ |- _ =>
      apply beforeSwap_ok_inv in H as [_ [(_ & -> & _)|
        (id' & w1 & w2 & _ & _ & _ & _ & _ & _ & _ & _ & ->)]]
    end; [exact Hs|]. now apply settled_matchedState.
  - unfold afterSwap, onlyPoolManager in H. minv. exact Hs.
  - apply (purge_spec _ _ _ _ _ _ _ _ Hwf) in H as (done & Hp & _).
    destruct Hs as [Hlt Hin]. split.
    + now rewrite (pp_next _ _ _ _ _ _ Hp).
    + destruct (decide (id ∈ done)) as [Hd|Hd].
      * destruct (pp_done _ _ _ _ _ _ Hp id Hd) as [_ ->]. reflexivity.
      * now rewrite (pp_rest _ _ _ _ _ _ Hp id Hd).
  - apply claimRefund_ok_inv in H as (_ & w' & _ & ->). exact Hs.
  - discriminate H.
Qed.

Lemma step_settled m x id :
  wf (st m) → settled (st m) id → settled (st (step this keccak256 m x)) id.
Proof.
  intros Hwf Hs. destruct x as [msg c| | |token from to amt]; cbn;
    try exact Hs.
  - destruct (dispatch this keccak256 msg c m) as [a m'| |] eqn:E;
      [|exact Hs|exact Hs].
    exact (dispatch_settled _ _ _ _ _ _ Hwf Hs E).
  - destruct (erc20_transfer token from to amt (ledger m)); exact Hs.
Qed.

Lemma run_settled steps : ∀ m id,
  wf (st m) → settled (st m) id →
  settled (st (run this keccak256 m steps)) id.
Proof.
  induction steps as [|x steps IH]; intros m id Hwf Hs; cbn; [exact Hs|].
  apply IH; [now apply step_wf|now apply step_settled].
Qed.

(** A successful [beforeSwap] that logged a trade for [id] selected [id],
    and its log is exactly the match log. *)
Lemma beforeSwap_traded msg sender key params m r m' id :
  beforeSwap this keccak256 msg sender key params m = Ok r m' →
  id ∈ tradedIds (newLog m m') →
  selectMatch keccak256 (st m) msg key params = Some id ∧
  st m' = matchedState (keccak256 key) id (st m) ∧
  newLog m m' = matchLog sender key params id (orderAt (st m) id)
                  (poolManager (st m)) (st m').
Proof.
  intros H Hin.
  apply beforeSwap_ok_inv in H as [_ [(_ & -> & _)|
    (id' & w1 & w2 & _ & _ & _ & Hsel & _ & _ & _ & _ & ->)]].
  - rewrite newLog_same in Hin. now apply elem_of_nil in Hin.
  - rewrite newLog_app in Hin |- *. cbn in Hin.
    apply list_elem_of_singleton in Hin. subst id'. auto.
Qed.

End Settled.

(** ** Running [beforeSwap] forward *)

(** Evaluate the leftmost bind of a monadic run. *)
Ltac mstep :=
  unfold mbind at 1, M_bind at 1, bind at 1;
  cbn [getState modify emit externalNoop revertIf ret revert negb
       _removeOrder st ledger log].

Lemma external_success c token from to amt m w' :
  erc20_transfer token from to amt (ledger m) = Some w' →
  external c token from to amt m
  = Ok true (mkMachine (st m) w' (log m ++ [External c true (st m)])).
Proof. unfold external. now intros ->. Qed.

Lemma beforeSwap_match_intro this keccak256 msg sender key params m id w1 w2 :
  let o := orderAt (st m) id in
  let s1 := matchedState (keccak256 key) id (st m) in
  msg_sender msg = poolManager (st m) →
  isBot (st m) sender = true →
  (amountSpecified params < 0)%Z →
  amountSpecified params ≠ INT256_MIN →
  Z.to_N (- amountSpecified params) ≤ Z.to_N INT128_MAX →
  selectMatch keccak256 (st m) msg key params = Some id →
  erc20_transfer (swapInput key params) (poolManager (st m)) (maker o)
    (minAmountOut o) (ledger m) = Some w1 →
  erc20_transfer (swapOutput key params) this (poolManager (st m))
    (amountIn o) w1 = Some w2 →
  int128_of_uint128 (amountIn o) ≠ INT128_MIN →
  beforeSwap this keccak256 msg sender key params m
  = Ok (beforeSwap_selector,
        toBeforeSwapDelta (int128_of_uint128 (minAmountOut o))
                          (- int128_of_uint128 (amountIn o)), 0)
       (mkMachine s1 w2
          (log m ++ matchLog sender key params id o (poolManager (st m)) s1)).
Proof.
  intros o s1 Hpm Hbot Hneg Hmin Hfit Hsel Hw1 Hw2 Hcast.
  subst s1. unfold matchLog, matchedState, swapInput, swapOutput in *.
  unfold beforeSwap, onlyPoolManager.
  mstep. mstep. rewrite Hpm, N.eqb_refl. cbn [negb revertIf ret].
  mstep. rewrite Hbot. cbn [negb].
  apply Z.leb_gt in Hneg. rewrite Hneg.
  apply Z.eqb_neq in Hmin. mstep. rewrite Hmin. cbn [revertIf ret].
  apply N.ltb_ge in Hfit. mstep. rewrite Hfit. cbn [revertIf ret].
  fold (selectMatch keccak256 (st m) msg key params). rewrite Hsel.
  mstep. mstep. unfold pmTake. mstep. mstep. mstep. fold o.
  rewrite removeOrderSt_poolManager. cbn [poolManager setOrder set_orders].
  rewrite (external_success _ _ _ _ _ _ w1) by exact Hw1.
  cbn [negb revertIf ret]. mstep. unfold safeTransfer. mstep. mstep.
  rewrite (external_success _ _ _ _ _ _ w2) by exact Hw2.
  cbn [negb revertIf ret]. mstep. mstep. unfold checkedNeg128. mstep.
  apply Z.eqb_neq in Hcast. rewrite Hcast. cbn [ret mret M_ret].
  rewrite <- !app_assoc. reflexivity.
Qed.

(** ** When the purge succeeds and how it can fail *)





Section PurgeSucceeds.

Variable this : address.

Variable msg : Msg.

Variable key : PoolKey.

Variable pid : bytes32.

Variable maxPurge : uint256.

(** A transfer leaves the kinds of the tokens alone. *)
Lemma erc20_transfer_noReturn token from to amt w w' :
  erc20_transfer token from to amt w = Some w' → noReturn w' = noReturn w.
Proof.
  unfold erc20_transfer. destruct (_ || _); [discriminate|].
  destruct (_ <? _); [discriminate|]. now intros [= <-].
Qed.

Lemma refundsDecode_ext w w' k :
  noReturn w' = noReturn w → refundsDecode w' k = refundsDecode w k.
Proof. intros H. unfold refundsDecode, returnsNoData. now rewrite H. Qed.

Lemma refundsDecode_token w k sell0 :
  refundsDecode w k = true →
  returnsNoData w (tokenInOf k sell0) = false.
Proof.
  unfold refundsDecode. intros H. apply andb_true_iff in H as [H0 H1].
  apply negb_true_iff in H0, H1. now destruct sell0.
Qed.

(** [purgeOne] as one expression. *)
Lemma purgeOne_eq i m :
  let oid := default 0 (idsOf (st m) pid !! i) in
  let o := orderAt (st m) oid in
  let token := tokenInOf key (sellToken0 o) in
  let s1 := setOrder oid (deactivate o) (st m) in
  let call := TokenTransfer token (maker o) (amountIn o) in
  purgeOne this key pid i m =
  match erc20_transfer token this (maker o) (amountIn o) (ledger m) with
  | Some w' =>
      if returnsNoData (ledger m) token then Revert DecodeFailed
      else
        Ok tt (mkMachine (purgedState pid i (st m)) w'
                 (log m ++ [External call true s1;
                            Emitted (OrderExpired oid (maker o))]))
  | None =>
      if UINT256_MAX <? unclaimedOf (st m) (maker o) token + amountIn o
      then Revert Panic
      else Ok tt (mkMachine
                    (creditUnclaimed (maker o) token (amountIn o)
                       (purgedState pid i (st m)))
                    (ledger m)
                    (log m ++ [External call false s1;
                               Emitted (RefundFailed oid (maker o));
                               Emitted (OrderExpired oid (maker o))]))
  end.
Proof.
  intros oid o token s1 call.
  unfold purgeOne, tryTransfer, mbind, M_bind, bind, getState, getLedger,
    modify, external, emit, checkedAdd, ret, revert.
  cbn [st ledger log]. fold oid. fold o. fold token. fold s1. fold call.
  destruct (erc20_transfer token this (maker o) (amountIn o) (ledger m))
    as [w'|] eqn:Hw; cbn [st ledger log andb revertIf].
  - unfold returnsNoData at 1.
    rewrite (erc20_transfer_noReturn _ _ _ _ _ _ Hw).
    fold (returnsNoData (ledger m) token).
    destruct (returnsNoData (ledger m) token); [reflexivity|].
    cbn. rewrite <- !app_assoc. reflexivity.
  - cbn.
    change (unclaimedOf s1 (maker o) token)
      with (unclaimedOf (st m) (maker o) token).
    destruct (UINT256_MAX <? _); [reflexivity|].
    cbn [st ledger log]. rewrite <- !app_assoc. reflexivity.
Qed.

(** A purged entry leaves the kinds of the tokens alone. *)
Lemma purgeOne_noReturn i m a m' :
  purgeOne this key pid i m = Ok a m' →
  noReturn (ledger m') = noReturn (ledger m).
Proof.
  rewrite purgeOne_eq.
  destruct (erc20_transfer _ _ _ _ _) as [w'|] eqn:Hw.
  - destruct (returnsNoData _ _); [discriminate|]. intros [= <- <-].
    exact (erc20_transfer_noReturn _ _ _ _ _ _ Hw).
  - destruct (_ <? _); [discriminate|]. now intros [= <- <-].
Qed.

(** The refund of one entry reverts the purge in two cases only: the
    credit of a failed refund overflows, or the refund went through and
    the token returned no data. *)
Lemma purgeOne_revert i m e :
  purgeOne this key pid i m = Revert e → purgeFailure (ledger m) key e.
Proof.
  rewrite purgeOne_eq.
  destruct (erc20_transfer _ _ _ _ _) as [w'|].
  - destruct (returnsNoData _ _) eqn:E; [|discriminate]. intros [= <-].
    right. split; [reflexivity|].
    destruct (refundsDecode (ledger m) key) eqn:Ed; [|reflexivity].
    now rewrite (refundsDecode_token _ _ _ Ed) in E.
  - destruct (_ <? _); [|discriminate]. intros [= <-]. now left.
Qed.

Lemma purgeLoop_revert fuel : ∀ i purged m e,
  purgeLoop this fuel msg key pid maxPurge i purged m = Revert e →
  purgeFailure (ledger m) key e.
Proof.
  induction fuel as [|fuel IH]; intros i purged m e; [discriminate|].
  cbn [purgeLoop]. unfold mbind at 1, M_bind, bind, getState.
  destruct (_ && _); [|discriminate].
  destruct (purgeable _ _); [|apply IH].
  unfold mbind, M_bind, bind.
  destruct (purgeOne this key pid i m) as [a m1|e1|] eqn:E.
  - intros H. apply IH in H. unfold purgeFailure in *.
    now rewrite (refundsDecode_ext _ _ key (purgeOne_noReturn _ _ _ _ E)) in H.
  - intros [= <-]. exact (purgeOne_revert _ _ _ E).
  - discriminate.
Qed.



End PurgeSucceeds.


(** The purge reverts on an arithmetic overflow, or, when a currency of
    the key returns no data, on decoding the result of a refund; on
    nothing else. *)
Lemma purge_revert this keccak256 msg key maxPurge m e :
  purgeExpiredOrders this keccak256 msg key maxPurge m = Revert e →
  purgeFailure (ledger m) key e.
Proof.
  unfold purgeExpiredOrders, mbind, M_bind, bind, getState.
  apply purgeLoop_revert.
Qed.

(** ** Sums over a mapping *)

Lemma map_sum_empty `{Countable K} {V} (f : K → V → N) :
  map_sum f (∅ : gmap K V) = 0.
Proof. apply map_fold_empty. Qed.

Lemma map_sum_insert_fresh `{Countable K} {V} (f : K → V → N)
    (m : gmap K V) k v :
  m !! k = None → map_sum f (<[k := v]> m) = f k v + map_sum f m.
Proof.
  intros Hk. unfold map_sum.
  apply (map_fold_insert_L (λ k v acc, f k v + acc)); [|exact Hk].
  intros. lia.
Qed.

Lemma map_sum_insert `{Countable K} {V} (f : K → V → N) (m : gmap K V) k v v0 :
  m !! k = Some v0 →
  map_sum f (<[k := v]> m) + f k v0 = map_sum f m + f k v.
Proof.
  intros Hk.
  rewrite <- (insert_delete_eq m k v).
  rewrite <- (insert_delete_id m k v0 Hk) at 2.
  rewrite !map_sum_insert_fresh by apply lookup_delete_eq.
  clear Hk. lia.
Qed.

(** ** The token ledger *)

Lemma erc20_transfer_balance token from to amt w w' :
  erc20_transfer token from to amt w = Some w' →
  amt ≤ balanceOf w token from ∧
  ∀ t a,
    balanceOf w' t a + (if decide ((t, a) = (token, from)) then amt else 0)
    = balanceOf w t a + (if decide ((t, a) = (token, to)) then amt else 0).
Proof.
  unfold erc20_transfer. destruct (_ || _); [discriminate|].
  destruct (balanceOf w token from <? amt) eqn:E; [discriminate|].
  apply N.ltb_ge in E. intros [= <-]. split; [exact E|].
  intros t a. unfold balanceOf in *. cbn. rewrite !lookup_insert.
  repeat case_decide; simplify_eq; cbn; lia.
Qed.

Section Custody.

Variable this : address.

Lemma custody_out token to amt w w' tok :
  erc20_transfer token this to amt w = Some w' → to ≠ this →
  balanceOf w' tok this + (if token =? tok then amt else 0)
  = balanceOf w tok this.
Proof.
  intros H Hto. apply erc20_transfer_balance in H as [_ H].
  specialize (H tok this).
  destruct (decide ((tok, this) = (token, to))); [congruence|].
  destruct (N.eqb_spec token tok) as [->|Hne].
  - destruct (decide ((tok, this) = (tok, this))); [lia|congruence].
  - destruct (decide ((tok, this) = (token, this))); [congruence|lia].
Qed.

Lemma custody_in token from amt w w' tok :
  erc20_transfer token from this amt w = Some w' → from ≠ this →
  balanceOf w' tok this
  = balanceOf w tok this + (if token =? tok then amt else 0).
Proof.
  intros H Hfrom. apply erc20_transfer_balance in H as [_ H].
  specialize (H tok this).
  destruct (decide ((tok, this) = (token, from))); [congruence|].
  destruct (N.eqb_spec token tok) as [->|Hne].
  - destruct (decide ((tok, this) = (tok, this))); [lia|congruence].
  - destruct (decide ((tok, this) = (token, this))); [congruence|lia].
Qed.

Lemma custody_other token from to amt w w' tok :
  erc20_transfer token from to amt w = Some w' → from ≠ this → to ≠ this →
  balanceOf w' tok this = balanceOf w tok this.
Proof.
  intros H Hfrom Hto. apply erc20_transfer_balance in H as [_ H].
  specialize (H tok this).
  destruct (decide ((tok, this) = (token, from))); [congruence|].
  destruct (decide ((tok, this) = (token, to))); [congruence|]. lia.
Qed.

End Custody.

(** ** Escrow conservation along runs *)

Section Escrow.

Variable this : address.

Variable keccak256 : PoolKey → bytes32.

Variable keyOf : bytes32 → PoolKey.

Hypothesis keyOf_keccak256 : ∀ k, keyOf (keccak256 k) = k.

Lemma active_lookup s id :
  active (orderAt s id) = true → orders s !! id = Some (orderAt s id).
Proof.
  unfold orderAt. destruct (orders s !! id); [reflexivity|discriminate].
Qed.

Lemma escrowOf_active tok o key :
  active o = true → poolId o = keccak256 key →
  escrowOf keyOf tok o
  = if tokenInOf key (sellToken0 o) =? tok then amountIn o else 0.
Proof.
  intros Ha Hp. unfold escrowOf, assetOf.
  now rewrite Ha, Hp, keyOf_keccak256.
Qed.

Lemma escrowOf_deactivate tok o : escrowOf keyOf tok (deactivate o) = 0.
Proof. reflexivity. Qed.

(** Releasing an active order takes its escrow out of the sum. *)
Lemma escrowed_matchedState s pid id tok :
  active (orderAt s id) = true →
  escrowed keyOf (matchedState pid id s) tok
    + escrowOf keyOf tok (orderAt s id)
  = escrowed keyOf s tok.
Proof.
  intros Hact. unfold escrowed, matchedState.
  rewrite removeOrderSt_orders. cbn.
  pose proof (map_sum_insert (λ _ o, escrowOf keyOf tok o) (orders s) id
                (deactivate (orderAt s id)) _ (active_lookup _ _ Hact)) as H.
  cbn beta in H. rewrite escrowOf_deactivate in H.
  clear Hact. lia.
Qed.

Lemma escrowed_postedState s pid o tok :
  wf s →
  escrowed keyOf (postedState pid o s) tok
  = escrowed keyOf s tok + escrowOf keyOf tok o.
Proof.
  intros Hwf. unfold escrowed, postedState. cbn.
  rewrite map_sum_insert_fresh; [lia|].
  apply (wf_fresh s Hwf). lia.
Qed.

Lemma unclaimedTotal_setUnclaimed s owner token v tok :
  unclaimedTotal (setUnclaimed owner token v s) tok
    + (if token =? tok then unclaimedOf s owner token else 0)
  = unclaimedTotal s tok + (if token =? tok then v else 0).
Proof.
  unfold unclaimedTotal, unclaimedOf, setUnclaimed. cbn.
  destruct (unclaimedBalances s !! (owner, token)) as [v0|] eqn:E.
  - pose proof (map_sum_insert (λ k v, if snd k =? tok then v else 0)
                  (unclaimedBalances s) (owner, token) v v0 E) as H.
    cbn in *. destruct (token =? tok); clear E; lia.
  - rewrite map_sum_insert_fresh by exact E. cbn.
    destruct (token =? tok); clear E; lia.
Qed.

(** The storage facts about a released order that the invariant needs. *)
Lemma released_makers s pid id :
  (∀ x, active (orderAt s x) = true → maker (orderAt s x) ≠ this) →
  ∀ x, active (orderAt (matchedState pid id s) x) = true →
       maker (orderAt (matchedState pid id s) x) ≠ this.
Proof.
  intros H x. unfold matchedState.
  rewrite orderAt_removeOrderSt, orderAt_setOrder.
  destruct (decide (id = x)); [discriminate|apply H].
Qed.

(** One group of storage and ledger changes per way of releasing or taking
    escrow; each keeps the invariant. *)
Lemma escrowInv_release m id key to w' L :
  escrowInv this keyOf m →
  active (orderAt (st m) id) = true →
  poolId (orderAt (st m) id) = keccak256 key →
  to ≠ this →
  erc20_transfer (tokenInOf key (sellToken0 (orderAt (st m) id))) this to
    (amountIn (orderAt (st m) id)) (ledger m) = Some w' →
  escrowInv this keyOf (mkMachine (matchedState (keccak256 key) id (st m)) w' L).
Proof.
  intros [Hwf Hsum Hmk Hpm] Hact Hpid Hto Hw. split; cbn [st ledger].
  - now apply wf_matchedState.
  - intros tok. unfold custody. cbn [ledger].
    pose proof (custody_out this _ _ _ _ _ tok Hw Hto) as Hc.
    pose proof (escrowed_matchedState (st m) (keccak256 key) id tok Hact) as He.
    rewrite (escrowOf_active tok _ key Hact Hpid) in He.
    specialize (Hsum tok). unfold custody in Hsum.
    assert (unclaimedTotal (matchedState (keccak256 key) id (st m)) tok
            = unclaimedTotal (st m) tok) as ->.
    { unfold unclaimedTotal, matchedState.
      now rewrite removeOrderSt_unclaimed. }
    clear Hw Hact Hpid. lia.
  - now apply released_makers.
  - unfold matchedState. now rewrite removeOrderSt_poolManager.
Qed.

Lemma escrowInv_release_unclaimed m id key L :
  escrowInv this keyOf m →
  active (orderAt (st m) id) = true →
  poolId (orderAt (st m) id) = keccak256 key →
  let o := orderAt (st m) id in
  escrowInv this keyOf
    (mkMachine
       (creditUnclaimed (maker o) (tokenInOf key (sellToken0 o)) (amountIn o)
          (matchedState (keccak256 key) id (st m)))
       (ledger m) L).
Proof.
  intros [Hwf Hsum Hmk Hpm] Hact Hpid o. split; cbn [st ledger].
  - eapply wf_ext; [| | |apply (wf_matchedState _ _ _ Hwf Hact Hpid)];
      reflexivity.
  - intros tok. unfold custody. cbn [ledger].
    pose proof (escrowed_matchedState (st m) (keccak256 key) id tok Hact) as He.
    rewrite (escrowOf_active tok _ key Hact Hpid) in He. fold o in He.
    specialize (Hsum tok). unfold custody in Hsum.
    pose proof (unclaimedTotal_setUnclaimed
                  (matchedState (keccak256 key) id (st m)) (maker o)
                  (tokenInOf key (sellToken0 o))
                  (unclaimedOf (matchedState (keccak256 key) id (st m))
                     (maker o) (tokenInOf key (sellToken0 o)) + amountIn o)
                  tok) as Hu.
    fold (creditUnclaimed (maker o) (tokenInOf key (sellToken0 o)) (amountIn o)
            (matchedState (keccak256 key) id (st m))) in Hu.
    assert (unclaimedTotal (matchedState (keccak256 key) id (st m)) tok
            = unclaimedTotal (st m) tok) as Hsame.
    { unfold unclaimedTotal, matchedState.
      now rewrite removeOrderSt_unclaimed. }
    rewrite Hsame in Hu.
    assert (escrowed keyOf
              (creditUnclaimed (maker o) (tokenInOf key (sellToken0 o))
                 (amountIn o) (matchedState (keccak256 key) id (st m))) tok
            = escrowed keyOf (matchedState (keccak256 key) id (st m)) tok)
      as -> by reflexivity.
    destruct (tokenInOf key (sellToken0 o) =? tok); clear Hact Hpid; lia.
  - intros x. apply (released_makers _ _ _ Hmk x).
  - change (poolManager (matchedState (keccak256 key) id (st m)) ≠ this).
    unfold matchedState. now rewrite removeOrderSt_poolManager.
Qed.

End Escrow.

Section EscrowRuns.

Variable this : address.

Variable keccak256 : PoolKey → bytes32.

Variable keyOf : bytes32 → PoolKey.

Hypothesis keyOf_keccak256 : ∀ k, keyOf (keccak256 k) = k.

Lemma escrowInv_frame m s' w' L :
  escrowInv this keyOf m →
  orders s' = orders (st m) → poolOrders s' = poolOrders (st m) →
  nextOrderId s' = nextOrderId (st m) →
  unclaimedBalances s' = unclaimedBalances (st m) →
  poolManager s' = poolManager (st m) →
  (∀ tok, balanceOf w' tok this = balanceOf (ledger m) tok this) →
  escrowInv this keyOf (mkMachine s' w' L).
Proof.
  intros [Hwf Hsum Hmk Hpm] Ho Hp Hn Hu Hpm' Hw. split; cbn [st ledger].
  - now apply (wf_ext (st m)).
  - intros tok. unfold custody, escrowed, unclaimedTotal. cbn [ledger].
    rewrite Hw, Ho, Hu. apply Hsum.
  - intros id. unfold orderAt. rewrite Ho. apply Hmk.
  - now rewrite Hpm'.
Qed.

Lemma escrowInv_relog m L :
  escrowInv this keyOf m →
  escrowInv this keyOf (mkMachine (st m) (ledger m) L).
Proof. intros H. now apply (escrowInv_frame m). Qed.

Lemma escrowInv_purgeOne key i m a m' :
  escrowInv this keyOf m →
  (i < length (idsOf (st m) (keccak256 key)))%nat →
  active (orderAt (st m) (default 0 (idsOf (st m) (keccak256 key) !! i)))
  = true →
  purgeOne this key (keccak256 key) i m = Ok a m' →
  escrowInv this keyOf m'.
Proof.
  intros Hinv Hi Hact H.
  destruct (lookup_lt_is_Some_2 _ _ Hi) as [oid Hoid].
  apply purgeOne_ok_inv in H. rewrite Hoid in H, Hact.
  cbn [default from_option id] in H, Hact.
  pose proof (ei_wf _ _ _ Hinv) as Hwf.
  assert (Hpid : poolId (orderAt (st m) oid) = keccak256 key).
  { apply (wf_agree _ Hwf). eapply list_elem_of_lookup_2; eauto. }
  rewrite (purgedState_matched _ _ i oid (wf_nodup _ Hwf _) Hoid) in H.
  destruct H as [(w' & Hw & ->)|(_ & _ & ->)].
  - apply (escrowInv_release this keccak256 keyOf keyOf_keccak256 m oid key
             (maker (orderAt (st m) oid)) w'); auto.
    now apply (ei_makers _ _ _ Hinv).
  - now apply (escrowInv_release_unclaimed this keccak256 keyOf
                 keyOf_keccak256 m oid key).
Qed.

Lemma dispatch_escrow msg c m a m' :
  escrowInv this keyOf m → msg_sender msg ≠ this →
  dispatch this keccak256 msg c m = Ok a m' → escrowInv this keyOf m'.
Proof.
  intros Hinv Hsender H. pose proof (ei_wf _ _ _ Hinv) as Hwf.
  destruct c; cbn [dispatch] in H.
  - unfold addBot, onlyAdmin in H. minv. now apply (escrowInv_frame m).
  - unfold removeBot, onlyAdmin in H. minv. now apply (escrowInv_frame m).
  - unfold setAdmin, onlyAdmin in H. minv. now apply (escrowInv_frame m).
  - unfold acceptAdmin in H. minv. now apply (escrowInv_frame m).
  - (* postOrder *)
    minv. match goal with H : postOrder _ _ _ _ _ _ _ _ _ = _ |- _ =>
      apply postOrder_ok_inv in H
        as (_ & _ & _ & _ & _ & _ & _ & w' & Hw & ->)
    end.
    destruct Hinv as [_ Hsum Hmk Hpm].
    set (o := mkOrder (msg_sender msg) sell0 amtIn minOut
                (block_timestamp msg + duration) true (keccak256 key)).
    split; cbn [st ledger].
    + now apply wf_postedState.
    + intros tok. unfold custody. cbn [ledger].
      rewrite (custody_in this _ _ _ _ _ tok Hw Hsender).
      rewrite (escrowed_postedState keyOf _ _ _ _ Hwf).
      rewrite (escrowOf_active keccak256 keyOf keyOf_keccak256 tok o key)
        by reflexivity.
      specialize (Hsum tok). unfold custody in Hsum.
      change (unclaimedTotal (postedState (keccak256 key) o (st m)) tok)
        with (unclaimedTotal (st m) tok).
      cbn [sellToken0 amountIn o]. clear Hw. lia.
    + intros y. unfold postedState.
      change (orderAt (setIds ?p ?l (setOrder ?i ?o' (set_nextOrderId ?n ?s))) y)
        with (orderAt (setOrder i o' s) y).
      rewrite orderAt_setOrder. destruct (decide (nextOrderId (st m) = y)).
      * intros _. exact Hsender.
      * apply Hmk.
    + exact Hpm.
  - (* cancelOrder *)
    apply cancelOrder_ok_inv in H as (_ & Hmaker & Hact & Hpid & w' & Hw & ->).
    apply (escrowInv_release this keccak256 keyOf keyOf_keccak256 m orderId key
             (maker (orderAt (st m) orderId)) w'); auto.
    now rewrite <- Hmaker.
  - (* beforeSwap *)
    minv. match goal with H : beforeSwap _ _ _ _ _ _ _ = _ |- _ =>
      apply beforeSwap_ok_inv in H as [_ [(_ & -> & _)|
        (id & w1 & w2 & _ & _ & _ & Hsel & Hw1 & Hw2 & _ & _ & ->)]]
    end; [exact Hinv|].
    apply (selectMatch_Some _ _ _ _ _ _ Hwf) in Hsel
      as (_ & Hact & Hpid & Hskip).
    apply skipOrder_false in Hskip as (_ & _ & Hside & _).
    set (o := orderAt (st m) id) in *.
    assert (Hout : swapOutput key params = tokenInOf key (sellToken0 o)).
    { unfold swapOutput, tokenInOf.
      destruct (sellToken0 o), (zeroForOne params); congruence. }
    rewrite Hout in Hw2.
    assert (Hmk : maker o ≠ this) by now apply (ei_makers _ _ _ Hinv).
    assert (Hinv1 : escrowInv this keyOf (mkMachine (st m) w1 (log m))).
    { apply (escrowInv_frame m); auto. intros tok.
      apply (custody_other this _ _ _ _ _ _ tok Hw1);
        [apply (ei_pm _ _ _ Hinv)|exact Hmk]. }
    apply (escrowInv_release this keccak256 keyOf keyOf_keccak256
             (mkMachine (st m) w1 (log m)) id key (poolManager (st m)) w2);
      auto.
    apply (ei_pm _ _ _ Hinv).
  - unfold afterSwap, onlyPoolManager in H. minv. exact Hinv.
  - (* purgeExpiredOrders *)
    unfold purgeExpiredOrders in H.
    apply bind_ok_inv in H as (s & m1 & H1 & H). injection H1 as <- <-.
    apply (purgeLoop_inv this msg key (keccak256 key) maxPurge
             (λ _ _ m, escrowInv this keyOf m)) in H.
    + now destruct H as (_ & _ & H & _).
    + intros i purged m1 u m2 Hi1 Hlt _ Hp Hone.
      apply (escrowInv_purgeOne key i m1 u m2); auto.
      unfold purgeable in Hp. now apply andb_true_iff in Hp as [? _].
    + auto.
    + exact Hinv.
  - (* claimRefund *)
    apply claimRefund_ok_inv in H as (_ & w' & Hw & ->).
    destruct Hinv as [_ Hsum Hmk Hpm]. split; cbn [st ledger].
    + eapply wf_ext; [| | |exact Hwf]; reflexivity.
    + intros tok. unfold custody. cbn [ledger].
      pose proof (custody_out this _ _ _ _ _ tok Hw Hsender) as Hc.
      pose proof (unclaimedTotal_setUnclaimed (st m) (msg_sender msg) token 0
                    tok) as Hu.
      specialize (Hsum tok). unfold custody in Hsum.
      change (escrowed keyOf (setUnclaimed (msg_sender msg) token 0 (st m)) tok)
        with (escrowed keyOf (st m) tok).
      destruct (token =? tok); clear Hw; lia.
    + exact Hmk.
    + exact Hpm.
  - discriminate H.
Qed.

Lemma step_escrow m x :
  escrowInv this keyOf m → foreign this x →
  escrowInv this keyOf (step this keccak256 m x).
Proof.
  intros Hinv Hx. destruct x as [msg c|token acct|token acct|token from to amt];
    cbn [step foreign] in *.
  - destruct (dispatch this keccak256 msg c m) as [a m'| |] eqn:E;
      [|exact Hinv|exact Hinv].
    exact (dispatch_escrow _ _ _ _ _ Hinv Hx E).
  - now apply (escrowInv_frame m).
  - now apply (escrowInv_frame m).
  - destruct (erc20_transfer token from to amt (ledger m)) as [w'|] eqn:E;
      [|exact Hinv].
    apply (escrowInv_frame m); auto. intros tok.
    apply (custody_other this _ _ _ _ _ _ tok E); tauto.
Qed.

Lemma run_escrow steps : ∀ m,
  escrowInv this keyOf m → Forall (foreign this) steps →
  escrowInv this keyOf (run this keccak256 m steps).
Proof.
  induction steps as [|x steps IH]; intros m Hinv Hall; cbn; [exact Hinv|].
  apply Forall_cons in Hall as [Hx Hall].
  apply IH; [now apply step_escrow|exact Hall].
Qed.

Lemma escrowInv_deployed a pm w :
  pm ≠ this → (∀ tok, balanceOf w tok this = 0) →
  escrowInv this keyOf (deployed a pm w).
Proof.
  intros Hpm Hzero. split; cbn.
  - apply wf_constructor.
  - intros tok. unfold custody, escrowed, unclaimedTotal. cbn.
    rewrite Hzero, !map_sum_empty. reflexivity.
  - intros id. unfold orderAt. cbn. rewrite lookup_empty. discriminate.
  - exact Hpm.
Qed.

End EscrowRuns.

Lemma unpackKey_packKey k : unpackKey (packKey k) = k.
Proof.
  unfold unpackKey, packKey. rewrite decode_encode. now destruct k.
Qed.

(** ** The scenarios of the test suite, replayed on the model *)

(** A match: the taker offers 100, pays the maker's minimum 95; the maker's
    100 go to the pool manager; the order becomes inactive. *)
Example scenario_match :
  DemoMatch.returned = (beforeSwap_selector, toBeforeSwapDelta 95 (-100), 0) ∧
  balanceOf (ledger DemoMatch.matched) Demo.tokB Demo.botA = 1095 ∧
  balanceOf (ledger DemoMatch.matched) Demo.tokA Demo.hook = 0 ∧
  balanceOf (ledger DemoMatch.matched) Demo.tokA Demo.pm = 10100 ∧
  active (orderAt (st DemoMatch.matched) 0) = false ∧
  idsOf (st DemoMatch.matched) (packKey Demo.key) = [].
Proof. repeat split; vm_compute; reflexivity. Qed.

(** The taker offers 90, below the maker's minimum: no match, nothing
    changes. *)
Example scenario_insufficient :
  DemoScenarios.lowOffer = Ok noMatch Demo.posted ∧
  active (orderAt (st Demo.posted) 0) = true.
Proof. split; vm_compute; reflexivity. Qed.

(** The order has expired: no match, and the order is still flagged active
    until someone purges it. *)
Example scenario_expired :
  DemoExpired.outcome = Ok noMatch Demo.posted ∧
  active (orderAt (st Demo.posted) 0) = true.
Proof. split; vm_compute; reflexivity. Qed.

(** Two resting orders, a taker offering 100: the first one matches, the
    second is untouched. *)
Example scenario_first_order_wins :
  tradedIds (newLog DemoScenarios.twoOrders DemoScenarios.firstTaken) = [0] ∧
  active (orderAt (st DemoScenarios.firstTaken) 0) = false ∧
  orderAt (st DemoScenarios.firstTaken) 1
  = orderAt (st DemoScenarios.twoOrders) 1 ∧
  idsOf (st DemoScenarios.firstTaken) (packKey Demo.key) = [1].
Proof. repeat split; vm_compute; reflexivity. Qed.

(** A purge whose refund push fails: the order is deactivated and removed
    all the same, the maker's unclaimed balance grows by the escrow, and a
    failure event is logged. *)
Example scenario_failed_refund :
  active (orderAt (st DemoRefund.purged) 0) = false ∧
  idsOf (st DemoRefund.purged) (packKey Demo.key) = [] ∧
  unclaimedOf (st DemoRefund.purged) Demo.botA Demo.tokA = 100 ∧
  Emitted (RefundFailed 0 Demo.botA) ∈ log DemoRefund.purged.
Proof.
  split; [vm_compute; reflexivity|]. split; [vm_compute; reflexivity|].
  split; [vm_compute; reflexivity|].
  vm_compute. do 5 apply list_elem_of_further. apply list_elem_of_here.
Qed.

(** ** A scenario the test suite does not have *)

(** A token that returns no data.  [postOrder] goes through SafeERC20 and
    accepts the token.  Once the order has expired, the purge refunds it
    with a plain [transfer] inside [try]: the transfer goes through, its
    empty result does not decode, and the purge reverts, so the order
    stays active and listed.  The maker can still cancel, through
    SafeERC20.  If the token blocks the maker's account, the transfer
    itself reverts, the [catch] branch credits the maker, and the purge
    goes through. *)
Example scenario_no_return_token :
  active (orderAt (st DemoSilent.posted) 0) = true ∧
  custody Demo.hook DemoSilent.posted Demo.tokA = 100 ∧
  purgeExpiredOrders Demo.hook packKey DemoSilent.purgeMsg Demo.key 10
    DemoSilent.posted = Revert DecodeFailed ∧
  active (orderAt (st DemoSilent.cancelled) 0) = false ∧
  balanceOf (ledger DemoSilent.cancelled) Demo.tokA Demo.botA = 1000 ∧
  active (orderAt (st DemoSilent.frozenPurged) 0) = false ∧
  unclaimedOf (st DemoSilent.frozenPurged) Demo.botA Demo.tokA = 100.
Proof. repeat split; vm_compute; reflexivity. Qed.

(** * The claims *)

(** ** C1: escrow conservation *)

(** The claim as worded equates the custody balance with the escrow of the
    active orders alone.  After a purge whose refund push failed, no order
    is active any more, yet the hook still holds the 100 units, now
    recorded as the maker's unclaimed balance.  Nor does the contract
    keep any account of tokens sent straight to it: after a direct
    transfer of 5 units to the hook and the cancellation of the only
    order, the hook holds the 5 units with no active order and no
    unclaimed balance. *)
Lemma escrow_conservation_counterexample :
  (active (orderAt (st DemoRefund.purged) 0) = false ∧
   escrowed unpackKey (st DemoRefund.purged) Demo.tokA = 0 ∧
   custody Demo.hook DemoRefund.purged Demo.tokA = 100 ∧
   unclaimedOf (st DemoRefund.purged) Demo.botA Demo.tokA = 100 ∧
   custody Demo.hook DemoRefund.purged Demo.tokA
   ≠ escrowed unpackKey (st DemoRefund.purged) Demo.tokA) ∧
  (active (orderAt (st DemoDonation.cancelled) 0) = false ∧
   escrowed unpackKey (st DemoDonation.cancelled) Demo.tokA = 0 ∧
   unclaimedTotal (st DemoDonation.cancelled) Demo.tokA = 0 ∧
   custody Demo.hook DemoDonation.cancelled Demo.tokA = 5 ∧
   custody Demo.hook DemoDonation.cancelled Demo.tokA
   ≠ escrowed unpackKey (st DemoDonation.cancelled) Demo.tokA).
Proof.
  split.
  - split; [vm_compute; reflexivity|]. split; [vm_compute; reflexivity|].
    split; [vm_compute; reflexivity|]. split; [vm_compute; reflexivity|].
    vm_compute. discriminate.
  - split; [vm_compute; reflexivity|]. split; [vm_compute; reflexivity|].
    split; [vm_compute; reflexivity|]. split; [vm_compute; reflexivity|].
    vm_compute. discriminate.
Qed.

(** C1 (Escrow conservation), amended.  Assume the pool-id hash has no
    collisions, the pool manager is not the hook, the hook holds no tokens
    at deployment, the hook never calls itself and third parties move
    tokens only between accounts other than the hook's.  Then after every
    step of every run (a completed or reverted call of any entry point, a
    freeze, a thaw, a third-party transfer), for each asset the hook's
    custody balance equals the sum of [amountIn] over the active orders
    that escrowed that asset plus the sum of the unclaimed balances
    recorded for that asset. *)
Theorem escrow_conservation this keccak256 keyOf a pm w steps :
  (∀ k, keyOf (keccak256 k) = k) →
  pm ≠ this →
  (∀ tok, balanceOf w tok this = 0) →
  Forall (foreign this) steps →
  let m := run this keccak256 (deployed a pm w) steps in
  ∀ tok,
    custody this m tok
    = escrowed keyOf (st m) tok + unclaimedTotal (st m) tok.
Proof.
  intros Hinj Hpm Hzero Hsteps m.
  apply (ei_sum this keyOf).
  apply (run_escrow this keccak256 keyOf Hinj); [|exact Hsteps].
  now apply escrowInv_deployed.
Qed.

Lemma escrow_conservation_witness :
  custody Demo.hook DemoRefund.purged Demo.tokA
  = escrowed unpackKey (st DemoRefund.purged) Demo.tokA
    + unclaimedTotal (st DemoRefund.purged) Demo.tokA.
Proof.
  apply (escrow_conservation Demo.hook packKey unpackKey Demo.adm Demo.pm
           Demo.world DemoRefund.steps).
  - exact unpackKey_packKey.
  - vm_compute. discriminate.
  - intros tok. unfold balanceOf, Demo.world. cbn [balances].
    destruct (list_to_map _ !! (tok, Demo.hook)) as [v|] eqn:E;
      [|reflexivity].
    exfalso. apply elem_of_list_to_map_2 in E.
    repeat (apply elem_of_cons in E as [E|E]; [discriminate E|]).
    now apply elem_of_nil in E.
  - repeat constructor; cbn; try discriminate.
Defined.

(** ** C2: no double match *)

(** C2 (No double match).  Take any machine reached from deployment and a
    [beforeSwap] on it that matched order [id].  Then every external call
    of that invocation (take, sync, token transfer, settle) was made on a
    storage in which the order is already inactive and absent from every
    pool array, so that the matching loop run on that storage cannot
    select it; and after any further steps the order is still inactive
    and absent, and no later [beforeSwap] trades it again. *)
Theorem no_double_match this keccak256 a pm w steps msg sender key params
    r m' id :
  let m := run this keccak256 (deployed a pm w) steps in
  beforeSwap this keccak256 msg sender key params m = Ok r m' →
  id ∈ tradedIds (newLog m m') →
  (length (callsOf (newLog m m')) = 4%nat ∧
   ∀ c seen, (c, seen) ∈ callsOf (newLog m m') →
     active (orderAt seen id) = false ∧
     (∀ p, id ∉ idsOf seen p) ∧
     ∀ msg2 key2 params2,
       selectMatch keccak256 seen msg2 key2 params2 ≠ Some id) ∧
  ∀ later,
    let m2 := run this keccak256 m' later in
    active (orderAt (st m2) id) = false ∧
    (∀ p, id ∉ idsOf (st m2) p) ∧
    ∀ msg2 sender2 key2 params2 r2 m3,
      beforeSwap this keccak256 msg2 sender2 key2 params2 m2 = Ok r2 m3 →
      id ∉ tradedIds (newLog m2 m3).
Proof.
  intros m H Hin.
  assert (Hwf : wf (st m)) by (apply run_wf, wf_constructor).
  destruct (beforeSwap_traded _ _ _ _ _ _ _ _ _ _ H Hin) as (Hsel & Hst & Hlog).
  destruct (selectMatch_Some _ _ _ _ _ _ Hwf Hsel) as (_ & Hact & Hpid & _).
  assert (Hwf' : wf (st m')).
  { rewrite Hst. now apply wf_matchedState. }
  assert (Hs' : settled (st m') id).
  { split.
    - rewrite Hst. unfold matchedState. rewrite removeOrderSt_nextOrderId.
      cbn. now apply wf_active_lt.
    - rewrite Hst. unfold matchedState.
      rewrite orderAt_removeOrderSt, orderAt_setOrder.
      now destruct (decide (id = id)). }
  assert (Hgone : ∀ s, wf s → active (orderAt s id) = false →
                       ∀ p, id ∉ idsOf s p).
  { intros s Hw Hi p Hp. apply (wf_agree s Hw) in Hp as [Hp _]. congruence. }
  split.
  - rewrite Hlog. split; [reflexivity|]. intros c seen Hc. cbn in Hc.
    assert (seen = st m') as ->.
    { repeat (apply elem_of_cons in Hc as [Hc|Hc]; [congruence|]).
      now apply elem_of_nil in Hc. }
    split; [apply Hs'|]. split; [apply Hgone; [exact Hwf'|apply Hs']|].
    intros msg2 key2 params2 Hsel2.
    destruct (selectMatch_Some _ _ _ _ _ _ Hwf' Hsel2) as (_ & Hact2 & _).
    destruct Hs' as [_ Hs']. congruence.
  - intros later m2.
    assert (Hwf2 : wf (st m2)) by now apply run_wf.
    assert (Hs2 : settled (st m2) id) by now apply run_settled.
    split; [apply Hs2|]. split; [apply Hgone; [exact Hwf2|apply Hs2]|].
    intros msg2 sender2 key2 params2 r2 m3 H2 Hin2.
    destruct (beforeSwap_traded _ _ _ _ _ _ _ _ _ _ H2 Hin2) as (Hsel2 & _).
    destruct (selectMatch_Some _ _ _ _ _ _ Hwf2 Hsel2) as (_ & Hact2 & _).
    destruct Hs2 as [_ Hs2]. congruence.
Qed.

Lemma no_double_match_witness :
  DemoMatch.outcome = Ok DemoMatch.returned DemoMatch.matched ∧
  0 ∈ tradedIds (newLog Demo.posted DemoMatch.matched) ∧
  (length (callsOf (newLog Demo.posted DemoMatch.matched)) = 4%nat ∧
   ∀ c seen, (c, seen) ∈ callsOf (newLog Demo.posted DemoMatch.matched) →
     active (orderAt seen 0) = false ∧
     (∀ p, 0 ∉ idsOf seen p) ∧
     ∀ msg2 key2 params2, selectMatch packKey seen msg2 key2 params2 ≠ Some 0) ∧
  ∀ later,
    let m2 := run Demo.hook packKey DemoMatch.matched later in
    active (orderAt (st m2) 0) = false ∧
    (∀ p, 0 ∉ idsOf (st m2) p) ∧
    ∀ msg2 sender2 key2 params2 r2 m3,
      beforeSwap Demo.hook packKey msg2 sender2 key2 params2 m2 = Ok r2 m3 →
      0 ∉ tradedIds (newLog m2 m3).
Proof.
  assert (H1 : DemoMatch.outcome = Ok DemoMatch.returned DemoMatch.matched)
    by (vm_compute; reflexivity).
  assert (H2 : 0 ∈ tradedIds (newLog Demo.posted DemoMatch.matched))
    by (vm_compute; apply list_elem_of_here).
  split; [exact H1|]. split; [exact H2|].
  exact (no_double_match Demo.hook packKey Demo.adm Demo.pm Demo.world
           (Demo.setup ++
            [Tx (mkMsg Demo.botA 10)
                (CallPostOrder Demo.key true 100 95 3600)])
           DemoMatch.swapMsg Demo.botB Demo.key DemoMatch.swapParams
           DemoMatch.returned DemoMatch.matched 0 H1 H2).
Defined.

(** ** C3: settlement amounts *)

(** What a match settles, whatever the amounts: the pool manager sends the
    order's [minAmountOut] of the input currency to the maker, the hook
    sends the order's [amountIn] of the output currency to the pool
    manager, and the trade event carries both.  The returned delta equals
    [(minAmountOut, - amountIn)] as long as [amountIn] fits in an
    [int128]. *)
Lemma settlement_amounts_in_range this keccak256 msg sender key params m r m'
    id :
  beforeSwap this keccak256 msg sender key params m = Ok r m' →
  id ∈ tradedIds (newLog m m') →
  let o := orderAt (st m) id in
  map fst (callsOf (newLog m m'))
  = [PMTake (swapInput key params) (maker o) (minAmountOut o);
     PMSync (swapOutput key params);
     TokenTransfer (swapOutput key params) (poolManager (st m)) (amountIn o);
     PMSettle] ∧
  minAmountOut o ≤ Z.to_N (- amountSpecified params) ∧
  active (orderAt (st m') id) = false ∧
  (amountIn o < 2 ^ 127 →
   r = (beforeSwap_selector,
        toBeforeSwapDelta (Z.of_N (minAmountOut o)) (- Z.of_N (amountIn o)),
        0)).
Proof.
  intros H Hin o.
  pose proof (beforeSwap_traded _ _ _ _ _ _ _ _ _ _ H Hin) as (Hsel & Hst & Hlog).
  apply beforeSwap_ok_inv in H as [_ [(_ & -> & _)|
    (id' & w1 & w2 & _ & Hneg & Hfit & Hsel' & _ & _ & _ & Hr & Hm')]].
  { rewrite newLog_same in Hin. now apply elem_of_nil in Hin. }
  assert (id' = id) as -> by congruence. fold o in Hr.
  unfold selectMatch in Hsel. apply scanOrders_Some in Hsel as [_ Hskip].
  apply skipOrder_false in Hskip as (_ & _ & _ & Hmin). fold o in Hmin.
  rewrite Hlog. split; [reflexivity|]. split; [exact Hmin|]. split.
  - rewrite Hst. unfold matchedState.
    rewrite orderAt_removeOrderSt, orderAt_setOrder.
    now destruct (decide (id = id)).
  - intros Hsmall. rewrite Hr. unfold int128_of_uint128.
    apply N.ltb_lt in Hsmall. rewrite Hsmall.
    destruct (minAmountOut o <? 2 ^ 127) eqn:E; [reflexivity|].
    (* the taker's amount passed the int128 check, and covers minAmountOut *)
    exfalso. apply N.ltb_ge in E. unfold INT128_MAX in Hfit.
    change (Z.to_N (2 ^ 127 - 1)) with (2 ^ 127 - 1) in Hfit.
    assert (0 < 2 ^ 127) by reflexivity. lia.
Qed.

(** C3 (Settlement amounts), at an order whose [amountIn] does not fit in an
    [int128].  The match goes through and the hook sends the full escrow,
    [2 ^ 127 + 1], to the pool manager, but the cast
    [int128(uint128(order.amountIn))] wraps: the returned delta reports
    [2 ^ 127 - 1] on the unspecified side, with the wrong sign and the wrong
    magnitude, instead of [- (2 ^ 127 + 1)]. *)
Theorem settlement_delta_wraps :
  amountIn (orderAt (st DemoLarge.posted) 0) = 2 ^ 127 + 1 ∧
  DemoLarge.outcome
  = Ok (beforeSwap_selector, toBeforeSwapDelta 95 (2 ^ 127 - 1), 0)
       DemoLarge.matched ∧
  transfersOf (newLog DemoLarge.posted DemoLarge.matched)
  = [(Demo.tokA, Demo.pm, 2 ^ 127 + 1)] ∧
  unspecifiedDelta (toBeforeSwapDelta 95 (2 ^ 127 - 1))
  ≠ (- Z.of_N (amountIn (orderAt (st DemoLarge.posted) 0)))%Z.
Proof.
  split; [vm_compute; reflexivity|]. split; [vm_compute; reflexivity|].
  split; [vm_compute; reflexivity|]. vm_compute. discriminate.
Qed.

(** With an escrow of exactly [2 ^ 127] the cast yields the least [int128],
    whose negation overflows: the whole [beforeSwap] reverts, and with it
    the swap of a whitelisted taker. *)
Example settlement_delta_panics :
  amountIn (orderAt (st DemoLarge.postedEdge) 0) = 2 ^ 127 ∧
  DemoLarge.outcomeEdge = Revert Panic.
Proof. split; vm_compute; reflexivity. Qed.

(** ** C4: claiming a refund twice *)

(** C4 (Refund idempotence).  Let the same caller call [claimRefund] for
    the same token twice in a row.  Whatever the first call did, the second
    leaves the machine exactly as the first left it.  When the first call
    succeeded, it zeroed the caller's unclaimed balance, and the second is
    rejected with [InvalidAmounts]. *)
Theorem claimRefund_twice this keccak256 caller t1 t2 token m :
  let first := Tx (mkMsg caller t1) (CallClaimRefund token) in
  let second := Tx (mkMsg caller t2) (CallClaimRefund token) in
  let m1 := step this keccak256 m first in
  step this keccak256 m1 second = m1 ∧
  match claimRefund this (mkMsg caller t1) token m with
  | Ok _ m' =>
      m1 = m' ∧ unclaimedOf (st m') caller token = 0 ∧
      claimRefund this (mkMsg caller t2) token m' = Revert InvalidAmounts
  | _ => m1 = m
  end.
Proof.
  intros first second m1. subst first second m1. cbn [step dispatch].
  destruct (claimRefund this (mkMsg caller t1) token m) as [a m'| |] eqn:E.
  - assert (Hz : unclaimedOf (st m') caller token = 0).
    { apply claimRefund_ok_inv in E as (_ & w' & _ & ->). cbn.
      unfold unclaimedOf, setUnclaimed. cbn. now rewrite lookup_insert_eq. }
    assert (Hr : claimRefund this (mkMsg caller t2) token m'
                 = Revert InvalidAmounts).
    { unfold claimRefund. unfold mbind at 1, M_bind at 1, bind at 1.
      cbn [getState msg_sender]. rewrite Hz. reflexivity. }
    rewrite Hr. auto.
  - (* the first call reverted: the second one starts from the same machine *)
    assert (claimRefund this (mkMsg caller t2) token m
            = claimRefund this (mkMsg caller t1) token m) as -> by reflexivity.
    rewrite E. auto.
  - assert (claimRefund this (mkMsg caller t2) token m
            = claimRefund this (mkMsg caller t1) token m) as -> by reflexivity.
    rewrite E. auto.
Qed.

(** ** C5: cancelling through the wrong market *)

(** C5 (Cross-market isolation).  For an existing, active order, a
    [cancelOrder] whose pool key hashes to something else than the order's
    stored [poolId] is rejected, and the machine (the active flag, every
    pool array, every balance) is unchanged.  When the caller is the maker,
    the rejection is [PoolMismatch]. *)
Theorem cancel_wrong_market this keccak256 msg orderId key m :
  orderId < nextOrderId (st m) →
  active (orderAt (st m) orderId) = true →
  keccak256 key ≠ poolId (orderAt (st m) orderId) →
  (∃ e, cancelOrder this keccak256 msg orderId key m = Revert e ∧
        (msg_sender msg = maker (orderAt (st m) orderId) →
         msg_sender msg ≠ 0 → e = PoolMismatch)) ∧
  step this keccak256 m (Tx msg (CallCancelOrder orderId key)) = m.
Proof.
  intros Hlt Hact Hne.
  assert (H : ∃ e, cancelOrder this keccak256 msg orderId key m = Revert e ∧
             (msg_sender msg = maker (orderAt (st m) orderId) →
              msg_sender msg ≠ 0 → e = PoolMismatch)).
  { unfold cancelOrder. unfold mbind at 1, M_bind at 1, bind at 1.
    cbn [getState].
    apply N.leb_gt in Hlt. rewrite Hlt.
    unfold mbind at 1, M_bind at 1, bind at 1. cbn [revertIf ret].
    destruct (maker (orderAt (st m) orderId) =? 0) eqn:E0.
    { eexists. split; [reflexivity|]. apply N.eqb_eq in E0. congruence. }
    unfold mbind at 1, M_bind at 1, bind at 1. cbn [revertIf ret].
    destruct (msg_sender msg =? maker (orderAt (st m) orderId)) eqn:E1.
    2:{ eexists. split; [reflexivity|]. apply N.eqb_neq in E1. congruence. }
    unfold mbind at 1, M_bind at 1, bind at 1. cbn [revertIf ret negb].
    rewrite Hact.
    unfold mbind at 1, M_bind at 1, bind at 1. cbn [revertIf ret negb].
    apply N.eqb_neq in Hne. rewrite Hne.
    unfold mbind at 1, M_bind at 1, bind at 1. cbn [revertIf revert negb].
    eexists. split; reflexivity. }
  split; [exact H|]. destruct H as (e & He & _).
  cbn [step dispatch]. now rewrite He.
Qed.

Lemma cancel_wrong_market_witness :
  (∃ e, cancelOrder Demo.hook packKey (mkMsg Demo.botA 30) 0 Demo.wrongKey
          Demo.posted = Revert e ∧
        (msg_sender (mkMsg Demo.botA 30) = maker (orderAt (st Demo.posted) 0) →
         msg_sender (mkMsg Demo.botA 30) ≠ 0 → e = PoolMismatch)) ∧
  step Demo.hook packKey Demo.posted
    (Tx (mkMsg Demo.botA 30) (CallCancelOrder 0 Demo.wrongKey)) = Demo.posted.
Proof.
  apply (cancel_wrong_market Demo.hook packKey (mkMsg Demo.botA 30) 0
           Demo.wrongKey Demo.posted).
  - vm_compute; reflexivity.
  - vm_compute; reflexivity.
  - vm_compute. discriminate.
Defined.

(** ** C6: the pool arrays and the active flags agree *)


(** ** C7: the purge is complete and bounded *)



(** ** C8: expired orders are never matched *)

(** C8 (Expiry monotonicity).  If the expiry of order [id] is strictly
    before the block timestamp, then the matching loop does not return it
    from any list of candidates, in whatever order they come; a successful
    [beforeSwap] logs no trade for it and leaves the order as it was. *)
Theorem expired_never_matched this keccak256 msg sender key params m id :
  expiry (orderAt (st m) id) < block_timestamp msg →
  (∀ zfo amt ids,
      scanOrders (st m) (block_timestamp msg) zfo amt ids ≠ Some id) ∧
  ∀ r m', beforeSwap this keccak256 msg sender key params m = Ok r m' →
          (id ∉ tradedIds (newLog m m')) ∧
          orderAt (st m') id = orderAt (st m) id.
Proof.
  intros Hexp.
  assert (Hscan : ∀ zfo amt ids,
             scanOrders (st m) (block_timestamp msg) zfo amt ids ≠ Some id).
  { intros zfo amt ids Hs. apply scanOrders_Some in Hs as [_ Hs].
    apply skipOrder_false in Hs as (_ & Hle & _). lia. }
  split; [exact Hscan|]. intros r m' H.
  apply beforeSwap_ok_inv in H as [_ [(_ & -> & _)|
    (id' & w1 & w2 & _ & _ & _ & Hsel & _ & _ & _ & _ & ->)]].
  - rewrite newLog_same. split; [apply not_elem_of_nil|reflexivity].
  - assert (id' ≠ id) as Hne.
    { intros ->. unfold selectMatch in Hsel. now apply Hscan in Hsel. }
    rewrite newLog_app. cbn [st]. split.
    + cbn. intros Hin. apply list_elem_of_singleton in Hin. congruence.
    + unfold matchedState. rewrite orderAt_removeOrderSt, orderAt_setOrder.
      now destruct (decide (id' = id)).
Qed.

Lemma expired_never_matched_witness :
  expiry (orderAt (st Demo.posted) 0) < block_timestamp DemoExpired.lateMsg ∧
  DemoExpired.outcome = Ok noMatch Demo.posted ∧
  (0 ∉ tradedIds (newLog Demo.posted Demo.posted)) ∧
  orderAt (st Demo.posted) 0 = orderAt (st Demo.posted) 0.
Proof.
  assert (H1 : expiry (orderAt (st Demo.posted) 0)
               < block_timestamp DemoExpired.lateMsg)
    by (vm_compute; reflexivity).
  assert (H2 : DemoExpired.outcome = Ok noMatch Demo.posted)
    by (vm_compute; reflexivity).
  split; [exact H1|]. split; [exact H2|].
  exact (proj2 (expired_never_matched Demo.hook packKey DemoExpired.lateMsg
                  Demo.botB Demo.key DemoMatch.swapParams Demo.posted 0 H1)
               noMatch Demo.posted H2).
Defined.

(** ** C9: fall-through *)

(** C9 (Fall-through zero effect).  [beforeSwap] is the callback the pool
    manager invokes on a swap; the [onlyPoolManager] modifier admits no
    other caller.  For every such invocation whose [sender] is not
    whitelisted, or whose [amountSpecified] is non-negative, the hook
    returns the no-match result (selector, zero delta, fee 0) and the
    machine is unchanged: no order is deactivated, no index entry removed,
    no storage written, no token moved, no call made, no event emitted. *)
Theorem fallthrough_zero_effect this keccak256 msg sender key params m :
  msg_sender msg = poolManager (st m) →
  (isBot (st m) sender = false ∨ (0 ≤ amountSpecified params)%Z) →
  beforeSwap this keccak256 msg sender key params m = Ok noMatch m ∧
  step this keccak256 m (Tx msg (CallBeforeSwap sender key params)) = m.
Proof.
  intros Hpm Hcase.
  assert (H : beforeSwap this keccak256 msg sender key params m = Ok noMatch m).
  { unfold beforeSwap, onlyPoolManager.
    unfold mbind at 1, M_bind at 1, bind at 1.
    unfold mbind at 1, M_bind at 1, bind at 1. cbn [getState].
    rewrite Hpm, N.eqb_refl. cbn [negb revertIf ret].
    unfold mbind at 1, M_bind at 1, bind at 1. cbn [getState].
    destruct (isBot (st m) sender) eqn:Ebot; cbn [negb]; [|reflexivity].
    destruct Hcase as [?|Hge]; [discriminate|].
    apply Z.leb_le in Hge. rewrite Hge. reflexivity. }
  split; [exact H|]. cbn [step dispatch].
  unfold mbind, M_bind, bind. rewrite H. cbn. now destruct m.
Qed.

Lemma fallthrough_zero_effect_witness :
  beforeSwap Demo.hook packKey DemoMatch.swapMsg 2989 Demo.key
    DemoMatch.swapParams Demo.posted = Ok noMatch Demo.posted ∧
  step Demo.hook packKey Demo.posted
    (Tx DemoMatch.swapMsg (CallBeforeSwap 2989 Demo.key DemoMatch.swapParams))
  = Demo.posted.
Proof.
  apply (fallthrough_zero_effect Demo.hook packKey DemoMatch.swapMsg 2989
           Demo.key DemoMatch.swapParams Demo.posted).
  - vm_compute; reflexivity.
  - left. vm_compute; reflexivity.
Defined.

(** ** C10: an order at its expiry instant *)

(** C10 (Expiry boundary).  Take a machine reached from deployment and an
    active order [id] whose expiry equals the block timestamp.  Matching:
    if the order sits among the first [MAX_ITERATIONS] entries of the
    pool's array, sells the side opposite to the taker, asks no more than
    the taker offers, and every entry before it is skipped, then the loop
    selects it; every successful [beforeSwap] trades it, and [beforeSwap]
    does succeed when the two settlement transfers go through and the
    escrow fits an [int128].  Purging: a successful [purgeExpiredOrders]
    at that timestamp leaves the order as it was, active and in its
    pool's array. *)
Theorem expiry_boundary this keccak256 a pm w steps id msg :
  let m := run this keccak256 (deployed a pm w) steps in
  let o := orderAt (st m) id in
  active o = true →
  expiry o = block_timestamp msg →
  (purgeable (block_timestamp msg) o = false ∧
   ∀ sender key params pre post,
     msg_sender msg = poolManager (st m) →
     isBot (st m) sender = true →
     (INT256_MIN < amountSpecified params < 0)%Z →
     Z.to_N (- amountSpecified params) ≤ Z.to_N INT128_MAX →
     idsOf (st m) (keccak256 key) = pre ++ id :: post →
     (length pre < MAX_ITERATIONS)%nat →
     (∀ x, x ∈ pre →
        skipOrder (block_timestamp msg) (zeroForOne params)
          (Z.to_N (- amountSpecified params)) (orderAt (st m) x) = true) →
     sellToken0 o ≠ zeroForOne params →
     minAmountOut o ≤ Z.to_N (- amountSpecified params) →
     selectMatch keccak256 (st m) msg key params = Some id ∧
     (∀ r m', beforeSwap this keccak256 msg sender key params m = Ok r m' →
              id ∈ tradedIds (newLog m m')) ∧
     (∀ w1 w2,
        erc20_transfer (swapInput key params) (poolManager (st m)) (maker o)
          (minAmountOut o) (ledger m) = Some w1 →
        erc20_transfer (swapOutput key params) this (poolManager (st m))
          (amountIn o) w1 = Some w2 →
        amountIn o < 2 ^ 127 →
        ∃ r m', beforeSwap this keccak256 msg sender key params m = Ok r m' ∧
                tradedIds (newLog m m') = [id])) ∧
  ∀ key maxPurge u m',
    purgeExpiredOrders this keccak256 msg key maxPurge m = Ok u m' →
    orderAt (st m') id = o ∧ id ∈ idsOf (st m') (poolId o).
Proof.
  intros m o Hact Hexp.
  assert (Hwf : wf (st m)) by (apply run_wf, wf_constructor).
  assert (Hnp : purgeable (block_timestamp msg) o = false).
  { unfold purgeable. rewrite Hact, Hexp, N.ltb_irrefl. reflexivity. }
  split; [split; [exact Hnp|]|].
  - intros sender key params pre post Hpm Hbot Hamt Hfit Hids Hpre Hskip
      Hside Hmin.
    assert (Hsel : selectMatch keccak256 (st m) msg key params = Some id).
    { unfold selectMatch. rewrite Hids.
      assert (Hwin : take (maxIter (pre ++ id :: post)) (pre ++ id :: post)
                     = pre ++ id :: take (maxIter (pre ++ id :: post)
                                          - S (length pre)) post).
      { assert (S (length pre) ≤ maxIter (pre ++ id :: post))%nat as Hle.
        { unfold maxIter. rewrite length_app. cbn [length].
          destruct (_ <? _)%nat; lia. }
        rewrite take_app. rewrite take_ge by lia. f_equal.
        destruct (maxIter (pre ++ id :: post) - length pre)%nat as [|k] eqn:Ek;
          [lia|].
        cbn. f_equal. f_equal. lia. }
      rewrite Hwin. apply scanOrders_first; [exact Hskip|].
      apply skipOrder_false. fold o. rewrite Hexp. repeat split; auto; lia. }
    split; [exact Hsel|]. split.
    + intros r m' H.
      apply beforeSwap_ok_inv in H as [_ [(_ & _ & [Hb|[Hge|Hnone]])|
        (id' & w1 & w2 & _ & _ & _ & Hsel' & _ & _ & _ & _ & ->)]];
        [congruence|lia|congruence|].
      rewrite newLog_app. cbn. assert (id' = id) as -> by congruence.
      apply list_elem_of_here.
    + intros w1 w2 Hw1 Hw2 Hsmall.
      eexists _, _. split.
      * apply (beforeSwap_match_intro this keccak256 msg sender key params m
                 id w1 w2); try assumption; try lia.
        fold o. unfold int128_of_uint128. apply N.ltb_lt in Hsmall.
        rewrite Hsmall. unfold INT128_MIN. lia.
      * rewrite newLog_app. reflexivity.
  - intros key maxPurge u m' H.
    apply (purge_spec _ _ _ _ _ _ _ _ Hwf) in H as (done & Hp & _).
    assert (Hnd : id ∉ done).
    { intros Hd. destruct (pp_done _ _ _ _ _ _ Hp id Hd) as [Hd' _].
      fold o in Hd'. congruence. }
    pose proof (pp_rest _ _ _ _ _ _ Hp id Hnd) as Hsame. fold o in Hsame.
    split; [exact Hsame|].
    apply (wf_agree _ (pp_wf _ _ _ _ _ _ Hp)). rewrite Hsame. auto.
Qed.

Lemma expiry_boundary_witness :
  selectMatch packKey (st Demo.posted) DemoBoundary.atExpiry Demo.key
    DemoMatch.swapParams = Some 0 ∧
  (∃ r m', DemoBoundary.outcome = Ok r m' ∧
           tradedIds (newLog Demo.posted m') = [0]) ∧
  orderAt (st DemoBoundary.purged) 0 = orderAt (st Demo.posted) 0 ∧
  0 ∈ idsOf (st DemoBoundary.purged) (poolId (orderAt (st Demo.posted) 0)).
Proof.
  assert (Hact : active (orderAt (st Demo.posted) 0) = true)
    by (vm_compute; reflexivity).
  assert (Hexp : expiry (orderAt (st Demo.posted) 0)
                 = block_timestamp DemoBoundary.atExpiry)
    by (vm_compute; reflexivity).
  assert (H : purgeExpiredOrders Demo.hook packKey DemoBoundary.atExpiry
                Demo.key 10 Demo.posted = Ok tt DemoBoundary.purged)
    by (vm_compute; reflexivity).
  destruct (expiry_boundary Demo.hook packKey Demo.adm Demo.pm Demo.world
              (Demo.setup ++
               [Tx (mkMsg Demo.botA 10)
                   (CallPostOrder Demo.key true 100 95 3600)])
              0 DemoBoundary.atExpiry Hact Hexp) as [[_ Hmatch] Hpurge].
  destruct (Hmatch Demo.botB Demo.key DemoMatch.swapParams [] [])
    as (Hsel & _ & Hok).
  - vm_compute; reflexivity.
  - vm_compute; reflexivity.
  - split; vm_compute; reflexivity.
  - vm_compute. discriminate.
  - vm_compute; reflexivity.
  - cbn. unfold MAX_ITERATIONS. lia.
  - intros x Hx. now apply elem_of_nil in Hx.
  - vm_compute. discriminate.
  - vm_compute. discriminate.
  - split; [exact Hsel|]. split.
    + apply (Hok DemoBoundary.paid DemoBoundary.released);
        vm_compute; reflexivity.
    + exact (Hpurge Demo.key 10 tt DemoBoundary.purged H).
Defined.

(** * Further properties of the contract *)

(** ** Stored orders never change their terms *)

Lemma sameTerms_refl o : sameTerms o o.
Proof. unfold sameTerms. tauto. Qed.

Lemma sameTerms_deactivate o : sameTerms o (deactivate o).
Proof. unfold sameTerms. cbn. repeat split; auto. discriminate. Qed.

Lemma sameTerms_trans o1 o2 o3 :
  sameTerms o1 o2 → sameTerms o2 o3 → sameTerms o1 o3.
Proof.
  unfold sameTerms. intros (? & ? & ? & ? & ? & ? & ?) (? & ? & ? & ? & ? & ? & ?).
  repeat split; try congruence. auto.
Qed.

Section OrderSlots.

Variable this : address.

Variable keccak256 : PoolKey → bytes32.

(** What one successful call does to the slot of an existing order: it
    leaves it alone or flips its [active] flag from true to false. *)
Lemma dispatch_orderAt msg c m a m' id :
  wf (st m) → dispatch this keccak256 msg c m = Ok a m' →
  id < nextOrderId (st m) →
  nextOrderId (st m) ≤ nextOrderId (st m') ∧
  (orderAt (st m') id = orderAt (st m) id ∨
   (active (orderAt (st m) id) = true ∧
    orderAt (st m') id = deactivate (orderAt (st m) id))).
Proof.
  intros Hwf H Hlt.
  assert (Hmatched : ∀ pid id',
            active (orderAt (st m) id') = true →
            nextOrderId (st m) ≤ nextOrderId (matchedState pid id' (st m)) ∧
            (orderAt (matchedState pid id' (st m)) id = orderAt (st m) id ∨
             (active (orderAt (st m) id) = true ∧
              orderAt (matchedState pid id' (st m)) id
              = deactivate (orderAt (st m) id)))).
  { intros pid id' Hact. unfold matchedState.
    rewrite removeOrderSt_nextOrderId, orderAt_removeOrderSt, orderAt_setOrder.
    split; [cbn; lia|].
    destruct (decide (id' = id)) as [->|]; [right|left]; auto. }
  destruct c; cbn [dispatch] in H.
  - unfold addBot, onlyAdmin in H. minv. cbn. split; [lia|now left].
  - unfold removeBot, onlyAdmin in H. minv. cbn. split; [lia|now left].
  - unfold setAdmin, onlyAdmin in H. minv. cbn. split; [lia|now left].
  - unfold acceptAdmin in H. minv. cbn. split; [lia|now left].
  - minv. match goal with H : postOrder _ _ _ _ _ _ _ _ _ = _ |- _ =>
      apply postOrder_ok_inv in H as (_ & _ & _ & _ & _ & _ & _ & w' & _ & ->)
    end. unfold postedState. cbn [st]. split; [cbn; lia|]. left.
    change (orderAt (setIds ?p ?l (setOrder ?i ?o (set_nextOrderId ?n ?s))) id)
      with (orderAt (setOrder i o s) id).
    rewrite orderAt_setOrder.
    destruct (decide (nextOrderId (st m) = id)); [lia|reflexivity].
  - apply cancelOrder_ok_inv in H as (_ & _ & Hact & _ & w' & _ & ->).
    cbn [st]. now apply Hmatched.
  - minv. match goal with H : beforeSwap _ _ _ _ _ _ _ = _ |- _ =>
      apply beforeSwap_ok_inv in H as [_ [(_ & -> & _)|
        (id' & w1 & w2 & _ & _ & _ & Hsel & _ & _ & _ & _ & ->)]]
    end; [split; [lia|now left]|].
    apply (selectMatch_Some _ _ _ _ _ _ Hwf) in Hsel as (_ & Hact & _).
    cbn [st]. now apply Hmatched.
  - unfold afterSwap, onlyPoolManager in H. minv. split; [lia|now left].
  - apply (purge_spec _ _ _ _ _ _ _ _ Hwf) in H as (done & Hp & _).
    rewrite (pp_next _ _ _ _ _ _ Hp). split; [lia|].
    destruct (decide (id ∈ done)) as [Hd|Hd].
    + destruct (pp_done _ _ _ _ _ _ Hp id Hd) as [Hpg ->]. right.
      split; [|reflexivity]. unfold purgeable in Hpg.
      now apply andb_true_iff in Hpg as [? _].
    + left. exact (pp_rest _ _ _ _ _ _ Hp id Hd).
  - apply claimRefund_ok_inv in H as (_ & w' & _ & ->). cbn.
    split; [lia|now left].
  - discriminate H.
Qed.

Lemma step_orderAt m x id :
  wf (st m) → id < nextOrderId (st m) →
  nextOrderId (st m) ≤ nextOrderId (st (step this keccak256 m x)) ∧
  sameTerms (orderAt (st m) id) (orderAt (st (step this keccak256 m x)) id).
Proof.
  intros Hwf Hlt.
  destruct x as [msg c| | |token from to amt]; cbn [step];
    try (split; [cbn; lia|apply sameTerms_refl]).
  - destruct (dispatch this keccak256 msg c m) as [u m'| |] eqn:E;
      try (split; [lia|apply sameTerms_refl]).
    destruct (dispatch_orderAt _ _ _ _ _ id Hwf E Hlt) as [Hn [->|[_ ->]]].
    + split; [exact Hn|apply sameTerms_refl].
    + split; [exact Hn|apply sameTerms_deactivate].
  - destruct (erc20_transfer token from to amt (ledger m));
      (split; [cbn; lia|apply sameTerms_refl]).
Qed.

Lemma run_orderAt steps : ∀ m id,
  wf (st m) → id < nextOrderId (st m) →
  nextOrderId (st m) ≤ nextOrderId (st (run this keccak256 m steps)) ∧
  sameTerms (orderAt (st m) id) (orderAt (st (run this keccak256 m steps)) id).
Proof.
  induction steps as [|x steps IH]; intros m id Hwf Hlt.
  - cbn. split; [lia|apply sameTerms_refl].
  - change (run this keccak256 m (x :: steps))
      with (run this keccak256 (step this keccak256 m x) steps).
    destruct (step_orderAt m x id Hwf Hlt) as [Hn Hs].
    destruct (IH (step this keccak256 m x) id) as [Hn' Hs'];
      [now apply step_wf|lia|].
    split; [lia|]. exact (sameTerms_trans _ _ _ Hs Hs').
Qed.

(** Why a successful call turned an active order inactive: its maker
    cancelled it, the pool manager matched it, or it was purged after its
    expiry. *)
Lemma dispatch_deactivates msg c m a m' id :
  wf (st m) → dispatch this keccak256 msg c m = Ok a m' →
  active (orderAt (st m) id) = true → active (orderAt (st m') id) = false →
  let o := orderAt (st m) id in
  (∃ key, c = CallCancelOrder id key ∧ msg_sender msg = maker o ∧
          keccak256 key = poolId o)
  ∨ (∃ sender key params,
       c = CallBeforeSwap sender key params ∧
       msg_sender msg = poolManager (st m) ∧ isBot (st m) sender = true ∧
       keccak256 key = poolId o ∧ block_timestamp msg ≤ expiry o ∧
       sellToken0 o ≠ zeroForOne params ∧
       minAmountOut o ≤ Z.to_N (- amountSpecified params))
  ∨ (∃ key maxPurge,
       c = CallPurgeExpiredOrders key maxPurge ∧ keccak256 key = poolId o ∧
       expiry o < block_timestamp msg).
Proof.
  intros Hwf H Hact Hoff o.
  assert (Hsame : ∀ s', orders s' = orders (st m) →
                        active (orderAt s' id) = false → False).
  { intros s' Ho Hf. unfold orderAt in Hf. rewrite Ho in Hf.
    fold (orderAt (st m) id) in Hf. congruence. }
  assert (Hmatched : ∀ pid id',
            active (orderAt (matchedState pid id' (st m)) id) = false →
            id' = id).
  { intros pid id'. unfold matchedState.
    rewrite orderAt_removeOrderSt, orderAt_setOrder.
    destruct (decide (id' = id)); [auto|congruence]. }
  destruct c; cbn [dispatch] in H.
  - unfold addBot, onlyAdmin in H. minv. now apply Hsame in Hoff.
  - unfold removeBot, onlyAdmin in H. minv. now apply Hsame in Hoff.
  - unfold setAdmin, onlyAdmin in H. minv. now apply Hsame in Hoff.
  - unfold acceptAdmin in H. minv. now apply Hsame in Hoff.
  - exfalso. minv. match goal with H : postOrder _ _ _ _ _ _ _ _ _ = _ |- _ =>
      apply postOrder_ok_inv in H as (_ & _ & _ & _ & _ & _ & _ & w' & _ & ->)
    end. unfold postedState in Hoff. cbn [st] in Hoff.
    change (orderAt (setIds ?p ?l (setOrder ?i ?o (set_nextOrderId ?n ?s))) id)
      with (orderAt (setOrder i o s) id) in Hoff.
    rewrite orderAt_setOrder in Hoff.
    destruct (decide (nextOrderId (st m) = id)); [discriminate|congruence].
  - apply cancelOrder_ok_inv in H as (_ & Hmk & _ & Hpid & w' & _ & ->).
    cbn [st] in Hoff. apply Hmatched in Hoff. subst orderId.
    left. eauto.
  - minv. match goal with H : beforeSwap _ _ _ _ _ _ _ = _ |- _ =>
      apply beforeSwap_ok_inv in H as [Hpm [(_ & -> & _)|
        (id' & w1 & w2 & Hbot & _ & _ & Hsel & _ & _ & _ & _ & ->)]]
    end; [congruence|].
    cbn [st] in Hoff. apply Hmatched in Hoff. subst id'.
    apply (selectMatch_Some _ _ _ _ _ _ Hwf) in Hsel as (_ & _ & Hpid & Hskip).
    apply skipOrder_false in Hskip as (_ & Hexp & Hside & Hmin).
    right. left. exists sender, key, params. repeat split; auto.
  - unfold afterSwap, onlyPoolManager in H. minv. congruence.
  - apply (purge_spec _ _ _ _ _ _ _ _ Hwf) in H as (done & Hp & _).
    destruct (decide (id ∈ done)) as [Hd|Hd].
    2:{ rewrite (pp_rest _ _ _ _ _ _ Hp id Hd) in Hoff. congruence. }
    destruct (pp_done _ _ _ _ _ _ Hp id Hd) as [Hpg _].
    unfold purgeable in Hpg. apply andb_true_iff in Hpg as [_ Hexp].
    apply N.ltb_lt in Hexp.
    assert (Hin : id ∈ idsOf (st m) (keccak256 key)).
    { rewrite (pp_perm _ _ _ _ _ _ Hp). apply elem_of_app. now left. }
    apply (wf_agree _ Hwf) in Hin as [_ Hpid].
    right. right. exists key, maxPurge. auto.
  - apply claimRefund_ok_inv in H as (_ & w' & _ & ->).
    now apply Hsame in Hoff.
  - discriminate H.
Qed.

End OrderSlots.

(** X1.  The terms of a stored order are immutable.  Take any machine
    reached from deployment and an existing order id.  After any further
    steps the order has the same maker, side, amounts, expiry and pool id;
    if it is active now, it was active before (an order is never
    reactivated); the id counter has not decreased, and no later
    [postOrder] hands the same id out again. *)
Theorem order_terms_immutable this keccak256 a pm w steps later id :
  let m := run this keccak256 (deployed a pm w) steps in
  let m2 := run this keccak256 m later in
  id < nextOrderId (st m) →
  sameTerms (orderAt (st m) id) (orderAt (st m2) id) ∧
  nextOrderId (st m) ≤ nextOrderId (st m2) ∧
  ∀ msg key sell0 amtIn minOut duration id2 m3,
    postOrder this keccak256 msg key sell0 amtIn minOut duration m2
    = Ok id2 m3 →
    id2 ≠ id.
Proof.
  intros m m2 Hlt.
  assert (Hwf : wf (st m)) by (apply run_wf, wf_constructor).
  destruct (run_orderAt this keccak256 later m id Hwf Hlt) as [Hn Hs].
  fold m2 in Hn, Hs. split; [exact Hs|]. split; [exact Hn|].
  intros msg key sell0 amtIn minOut duration id2 m3 H.
  apply postOrder_ok_inv in H as (_ & _ & _ & _ & _ & -> & _). lia.
Qed.

Lemma order_terms_immutable_witness :
  sameTerms (orderAt (st Demo.posted) 0)
    (orderAt (st (run Demo.hook packKey Demo.posted DemoMore.swapSteps)) 0) ∧
  nextOrderId (st Demo.posted)
  ≤ nextOrderId (st (run Demo.hook packKey Demo.posted DemoMore.swapSteps)).
Proof.
  destruct (order_terms_immutable Demo.hook packKey Demo.adm Demo.pm
              Demo.world DemoMore.postSteps DemoMore.swapSteps 0)
    as (H1 & H2 & _); [vm_compute; reflexivity|].
  split; [exact H1|exact H2].
Defined.

(** X2.  Who can deactivate an order.  On any machine reached from
    deployment, if one step turns an active order inactive, then the step
    is a transaction to the hook and one of three things happened: the
    order's maker cancelled it, with the pool key it was posted under; or
    the pool manager called [beforeSwap] for a whitelisted sender, on the
    order's pool, no later than its expiry, for the opposite side and an
    amount that covers the order's minimum; or someone purged the order's
    pool strictly after the expiry.  Freezes, thaws and third-party token
    transfers never deactivate an order. *)
Theorem deactivation_causes this keccak256 a pm w steps x id :
  let m := run this keccak256 (deployed a pm w) steps in
  let o := orderAt (st m) id in
  active o = true →
  active (orderAt (st (step this keccak256 m x)) id) = false →
  ∃ msg,
    (∃ key, x = Tx msg (CallCancelOrder id key) ∧ msg_sender msg = maker o ∧
            keccak256 key = poolId o)
    ∨ (∃ sender key params,
         x = Tx msg (CallBeforeSwap sender key params) ∧
         msg_sender msg = poolManager (st m) ∧ isBot (st m) sender = true ∧
         keccak256 key = poolId o ∧ block_timestamp msg ≤ expiry o ∧
         sellToken0 o ≠ zeroForOne params ∧
         minAmountOut o ≤ Z.to_N (- amountSpecified params))
    ∨ (∃ key maxPurge,
         x = Tx msg (CallPurgeExpiredOrders key maxPurge) ∧
         keccak256 key = poolId o ∧ expiry o < block_timestamp msg).
Proof.
  intros m o Hact Hoff.
  assert (Hwf : wf (st m)) by (apply run_wf, wf_constructor).
  destruct x as [msg c|token acct|token acct|token from to amt];
    cbn [step st] in Hoff; try (fold o in Hoff; congruence).
  - exists msg.
    destruct (dispatch this keccak256 msg c m) as [u m'| |] eqn:E;
      try (fold o in Hoff; congruence).
    destruct (dispatch_deactivates this keccak256 msg c m u m' id Hwf E Hact Hoff)
      as [(key & -> & ?)|[(sender & key & params & -> & ?)|
                          (key & maxPurge & -> & ?)]].
    + left. eauto.
    + right. left. eauto.
    + right. right. eauto.
  - destruct (erc20_transfer token from to amt (ledger m));
      cbn [st] in Hoff; fold o in Hoff; congruence.
Qed.

Lemma deactivation_causes_witness :
  ∃ msg,
    (∃ key, Tx (mkMsg Demo.botA 30) (CallCancelOrder 0 Demo.key)
            = Tx msg (CallCancelOrder 0 key) ∧
            msg_sender msg = maker (orderAt (st Demo.posted) 0) ∧
            packKey key = poolId (orderAt (st Demo.posted) 0))
    ∨ (∃ sender key params,
         Tx (mkMsg Demo.botA 30) (CallCancelOrder 0 Demo.key)
         = Tx msg (CallBeforeSwap sender key params) ∧
         msg_sender msg = poolManager (st Demo.posted) ∧
         isBot (st Demo.posted) sender = true ∧
         packKey key = poolId (orderAt (st Demo.posted) 0) ∧
         block_timestamp msg ≤ expiry (orderAt (st Demo.posted) 0) ∧
         sellToken0 (orderAt (st Demo.posted) 0) ≠ zeroForOne params ∧
         minAmountOut (orderAt (st Demo.posted) 0)
         ≤ Z.to_N (- amountSpecified params))
    ∨ (∃ key maxPurge,
         Tx (mkMsg Demo.botA 30) (CallCancelOrder 0 Demo.key)
         = Tx msg (CallPurgeExpiredOrders key maxPurge) ∧
         packKey key = poolId (orderAt (st Demo.posted) 0) ∧
         expiry (orderAt (st Demo.posted) 0) < block_timestamp msg).
Proof.
  apply (deactivation_causes Demo.hook packKey Demo.adm Demo.pm Demo.world
           DemoMore.postSteps
           (Tx (mkMsg Demo.botA 30) (CallCancelOrder 0 Demo.key)) 0).
  - vm_compute; reflexivity.
  - vm_compute; reflexivity.
Defined.

(** ** Running [cancelOrder] and [claimRefund] forward *)

Lemma erc20_transfer_succeeds token from to amt w :
  isFrozen w token from = false → isFrozen w token to = false →
  amt ≤ balanceOf w token from →
  ∃ w', erc20_transfer token from to amt w = Some w'.
Proof.
  intros Hf Ht Hb. unfold erc20_transfer. rewrite Hf, Ht. cbn [orb].
  apply N.ltb_ge in Hb. rewrite Hb. eauto.
Qed.

Lemma erc20_transfer_frozen token from to amt w w' :
  erc20_transfer token from to amt w = Some w' →
  isFrozen w token from = false ∧ isFrozen w token to = false ∧
  frozen w' = frozen w.
Proof.
  unfold erc20_transfer.
  destruct (isFrozen w token from), (isFrozen w token to); cbn [orb];
    try discriminate.
  destruct (_ <? _); [discriminate|]. intros [= <-]. auto.
Qed.

(** Sending the same amount back undoes a transfer, balance by balance. *)
Lemma erc20_transfer_back token from to amt w w' :
  erc20_transfer token from to amt w = Some w' →
  ∃ w2, erc20_transfer token to from amt w' = Some w2 ∧
        ∀ t h, balanceOf w2 t h = balanceOf w t h.
Proof.
  intros H. pose proof (erc20_transfer_frozen _ _ _ _ _ _ H) as (Hf & Ht & Hfr).
  pose proof (erc20_transfer_balance _ _ _ _ _ _ H) as [Hle Hbal].
  destruct (erc20_transfer_succeeds token to from amt w') as [w2 Hw2].
  - unfold isFrozen. rewrite Hfr. exact Ht.
  - unfold isFrozen. rewrite Hfr. exact Hf.
  - specialize (Hbal token to).
    destruct (decide ((token, to) = (token, to))); [|congruence].
    destruct (decide ((token, to) = (token, from))) as [Heq|Hneq];
      [injection Heq as ->|clear Hneq]; clear H Hf Ht Hfr; lia.
  - exists w2. split; [exact Hw2|]. intros t h.
    pose proof (erc20_transfer_balance _ _ _ _ _ _ Hw2) as [_ Hbal2].
    specialize (Hbal t h). specialize (Hbal2 t h).
    destruct (decide ((t, h) = (token, from))) as [He1|Hn1],
             (decide ((t, h) = (token, to))) as [He2|Hn2];
      clear - Hbal Hbal2; lia.
Qed.

Lemma map_sum_ge `{Countable K} {V} (f : K → V → N) (m : gmap K V) k v :
  m !! k = Some v → f k v ≤ map_sum f m.
Proof.
  intros Hk. rewrite <- (insert_delete_id m k v Hk).
  rewrite map_sum_insert_fresh by apply lookup_delete_eq. clear Hk. lia.
Qed.

Lemma cancelOrder_intro this keccak256 msg orderId key m w' :
  let o := orderAt (st m) orderId in
  let s1 := matchedState (keccak256 key) orderId (st m) in
  orderId < nextOrderId (st m) → maker o ≠ 0 → msg_sender msg = maker o →
  active o = true → keccak256 key = poolId o →
  erc20_transfer (tokenInOf key (sellToken0 o)) this (maker o) (amountIn o)
    (ledger m) = Some w' →
  cancelOrder this keccak256 msg orderId key m
  = Ok tt (mkMachine s1 w'
             (log m ++
              [External (TokenTransfer (tokenInOf key (sellToken0 o))
                           (maker o) (amountIn o)) true s1;
               Emitted (OrderCancelled orderId (maker o))])).
Proof.
  intros o s1 Hlt Hmk Hsender Hact Hpid Hw. subst s1. unfold matchedState.
  unfold cancelOrder. mstep. fold o.
  apply N.leb_gt in Hlt. mstep. rewrite Hlt. cbn [revertIf ret].
  apply N.eqb_neq in Hmk. mstep. rewrite Hmk. cbn [revertIf ret].
  mstep. rewrite Hsender, N.eqb_refl. cbn [negb revertIf ret].
  mstep. rewrite Hact. cbn [negb revertIf ret].
  mstep. rewrite Hpid, N.eqb_refl. cbn [negb revertIf ret].
  mstep. mstep. unfold safeTransfer. mstep. mstep.
  rewrite (external_success _ _ _ _ _ _ w') by exact Hw.
  cbn [negb revertIf ret]. unfold emit. cbn [st ledger log].
  rewrite <- !app_assoc. reflexivity.
Qed.

Lemma claimRefund_intro this msg token m w' :
  let amount := unclaimedOf (st m) (msg_sender msg) token in
  let s1 := setUnclaimed (msg_sender msg) token 0 (st m) in
  amount ≠ 0 →
  erc20_transfer token this (msg_sender msg) amount (ledger m) = Some w' →
  claimRefund this msg token m
  = Ok tt (mkMachine s1 w'
             (log m ++
              [External (TokenTransfer token (msg_sender msg) amount) true
                 s1])).
Proof.
  intros amount s1 Hnz Hw. subst s1. unfold claimRefund. mstep. fold amount.
  apply N.eqb_neq in Hnz. mstep. rewrite Hnz. cbn [revertIf ret].
  mstep. unfold safeTransfer. mstep.
  rewrite (external_success _ _ _ _ _ _ w') by exact Hw.
  reflexivity.
Qed.

(** Releasing an order: the storage facts the three release paths share. *)
Lemma matchedState_facts s pid id :
  active (orderAt (matchedState pid id s) id) = false ∧
  (∀ x, x ≠ id → orderAt (matchedState pid id s) x = orderAt s x) ∧
  nextOrderId (matchedState pid id s) = nextOrderId s ∧
  unclaimedBalances (matchedState pid id s) = unclaimedBalances s.
Proof.
  unfold matchedState. split; [|split; [|split]].
  - rewrite orderAt_removeOrderSt, orderAt_setOrder.
    now destruct (decide (id = id)).
  - intros x Hx. rewrite orderAt_removeOrderSt, orderAt_setOrder.
    destruct (decide (id = x)); [congruence|reflexivity].
  - now rewrite removeOrderSt_nextOrderId.
  - now rewrite removeOrderSt_unclaimed.
Qed.

(** ** The hook can always pay what it owes *)

(** X3.  A maker can always get the escrow back.  Under the assumptions of
    escrow conservation (collision-free pool ids, the pool manager is not
    the hook, no tokens in the hook at deployment, no outside movement of
    the hook's tokens), take any machine reached from deployment and an
    active order.  If the token does not block the hook's or the maker's
    account, then [cancelOrder] called by the maker with the order's pool
    key succeeds, whatever the time and whether or not the maker is still
    whitelisted: the order becomes inactive and leaves its pool's array,
    the maker's balance grows by exactly [amountIn], and the hook's
    custody shrinks by the same amount. *)
Theorem cancel_always_possible this keccak256 keyOf a pm w steps id key msg :
  (∀ k, keyOf (keccak256 k) = k) →
  pm ≠ this →
  (∀ tok, balanceOf w tok this = 0) →
  Forall (foreign this) steps →
  let m := run this keccak256 (deployed a pm w) steps in
  let o := orderAt (st m) id in
  let tok := tokenInOf key (sellToken0 o) in
  active o = true → keccak256 key = poolId o →
  msg_sender msg = maker o → maker o ≠ 0 →
  isFrozen (ledger m) tok this = false →
  isFrozen (ledger m) tok (maker o) = false →
  ∃ m', cancelOrder this keccak256 msg id key m = Ok tt m' ∧
        active (orderAt (st m') id) = false ∧
        (id ∉ idsOf (st m') (keccak256 key)) ∧
        balanceOf (ledger m') tok (maker o)
        = balanceOf (ledger m) tok (maker o) + amountIn o ∧
        custody this m' tok + amountIn o = custody this m tok.
Proof.
  intros Hinj Hpm Hzero Hsteps m o tok Hact Hpid Hsender Hmk Hfh Hfm.
  assert (Hinv : escrowInv this keyOf m).
  { apply (run_escrow this keccak256 keyOf Hinj); [|exact Hsteps].
    now apply escrowInv_deployed. }
  pose proof (ei_wf _ _ _ Hinv) as Hwf.
  assert (Hne : maker o ≠ this) by now apply (ei_makers _ _ _ Hinv).
  assert (Hsolvent : amountIn o ≤ balanceOf (ledger m) tok this).
  { pose proof (ei_sum _ _ _ Hinv tok) as Hsum. unfold custody in Hsum.
    pose proof (map_sum_ge (λ _ o, escrowOf keyOf tok o) (orders (st m)) id o
                  (active_lookup _ _ Hact)) as Hge.
    cbn beta in Hge. fold (escrowed keyOf (st m) tok) in Hge.
    rewrite (escrowOf_active keccak256 keyOf Hinj tok o key Hact
               (eq_sym Hpid)) in Hge.
    fold tok in Hge. rewrite N.eqb_refl in Hge.
    clear Hact Hpid Hfh Hfm. lia. }
  destruct (erc20_transfer_succeeds tok this (maker o) (amountIn o) (ledger m)
              Hfh Hfm Hsolvent) as [w' Hw].
  eexists. split.
  - apply (cancelOrder_intro this keccak256 msg id key m w'); auto.
    now apply wf_active_lt.
  - cbn [st ledger].
    destruct (matchedState_facts (st m) (keccak256 key) id) as (Hoff & _).
    split; [exact Hoff|]. split.
    + intros Hin.
      pose proof (wf_matchedState _ _ _ Hwf Hact (eq_sym Hpid)) as Hwf'.
      apply (wf_agree _ Hwf') in Hin as [Hin _]. congruence.
    + pose proof (erc20_transfer_balance _ _ _ _ _ _ Hw) as [_ Hbal].
      unfold custody. cbn [ledger]. split.
      * specialize (Hbal tok (maker o)).
        destruct (decide ((tok, maker o) = (tok, this))); [congruence|].
        destruct (decide ((tok, maker o) = (tok, maker o))); [|congruence].
        clear Hw. lia.
      * specialize (Hbal tok this).
        destruct (decide ((tok, this) = (tok, maker o))); [congruence|].
        destruct (decide ((tok, this) = (tok, this))); [|congruence].
        clear Hw. lia.
Qed.

Lemma cancel_always_possible_witness :
  ∃ m', cancelOrder Demo.hook packKey (mkMsg Demo.botA 999999) 0 Demo.key
          (run Demo.hook packKey (deployed Demo.adm Demo.pm Demo.world)
             DemoMore.postSteps) = Ok tt m' ∧
        active (orderAt (st m') 0) = false.
Proof.
  destruct (cancel_always_possible Demo.hook packKey unpackKey Demo.adm Demo.pm
              Demo.world DemoMore.postSteps 0 Demo.key
              (mkMsg Demo.botA 999999)) as (m' & H1 & H2 & _).
  - exact unpackKey_packKey.
  - vm_compute. discriminate.
  - intros tok. unfold balanceOf, Demo.world. cbn [balances].
    destruct (list_to_map _ !! (tok, Demo.hook)) as [v|] eqn:E;
      [|reflexivity].
    exfalso. apply elem_of_list_to_map_2 in E.
    repeat (apply elem_of_cons in E as [E|E]; [discriminate E|]).
    now apply elem_of_nil in E.
  - repeat constructor; cbn; try discriminate.
  - vm_compute; reflexivity.
  - vm_compute; reflexivity.
  - vm_compute; reflexivity.
  - vm_compute. discriminate.
  - vm_compute; reflexivity.
  - vm_compute; reflexivity.
  - exists m'. split; [exact H1|exact H2].
Defined.

(** X4.  An unclaimed balance can always be claimed.  Under the same
    assumptions, if the hook records a non-zero unclaimed balance of a
    token for the caller and the token blocks neither account, then
    [claimRefund] succeeds: the caller receives exactly the recorded
    amount, the record is zeroed, and no other owner's record and no order
    is touched. *)
Theorem refund_always_claimable this keccak256 keyOf a pm w steps msg token :
  (∀ k, keyOf (keccak256 k) = k) →
  pm ≠ this →
  (∀ tok, balanceOf w tok this = 0) →
  Forall (foreign this) steps →
  let m := run this keccak256 (deployed a pm w) steps in
  let amount := unclaimedOf (st m) (msg_sender msg) token in
  amount ≠ 0 → msg_sender msg ≠ this →
  isFrozen (ledger m) token this = false →
  isFrozen (ledger m) token (msg_sender msg) = false →
  ∃ m', claimRefund this msg token m = Ok tt m' ∧
        balanceOf (ledger m') token (msg_sender msg)
        = balanceOf (ledger m) token (msg_sender msg) + amount ∧
        custody this m' token + amount = custody this m token ∧
        unclaimedOf (st m') (msg_sender msg) token = 0 ∧
        (∀ owner tok, (owner, tok) ≠ (msg_sender msg, token) →
           unclaimedOf (st m') owner tok = unclaimedOf (st m) owner tok) ∧
        orders (st m') = orders (st m) ∧
        poolOrders (st m') = poolOrders (st m).
Proof.
  intros Hinj Hpm Hzero Hsteps m amount Hnz Hsender Hfh Hfc.
  assert (Hinv : escrowInv this keyOf m).
  { apply (run_escrow this keccak256 keyOf Hinj); [|exact Hsteps].
    now apply escrowInv_deployed. }
  assert (Hsolvent : amount ≤ balanceOf (ledger m) token this).
  { pose proof (ei_sum _ _ _ Hinv token) as Hsum. unfold custody in Hsum.
    assert (Hlook : unclaimedBalances (st m) !! (msg_sender msg, token)
                    = Some amount).
    { unfold amount, unclaimedOf in *.
      destruct (unclaimedBalances (st m) !! (msg_sender msg, token));
        [reflexivity|]. now contradiction Hnz. }
    pose proof (map_sum_ge (λ k v, if snd k =? token then v else 0)
                  (unclaimedBalances (st m)) _ _ Hlook) as Hge.
    cbn beta in Hge. fold (unclaimedTotal (st m) token) in Hge.
    cbn [snd] in Hge. rewrite N.eqb_refl in Hge.
    clear Hlook Hfh Hfc. lia. }
  destruct (erc20_transfer_succeeds token this (msg_sender msg) amount
              (ledger m) Hfh Hfc Hsolvent) as [w' Hw].
  eexists. split.
  - apply (claimRefund_intro this msg token m w'); [exact Hnz|exact Hw].
  - cbn [st ledger].
    pose proof (erc20_transfer_balance _ _ _ _ _ _ Hw) as [_ Hbal].
    unfold custody. cbn [ledger]. split; [|split; [|split; [|split]]].
    + specialize (Hbal token (msg_sender msg)).
      destruct (decide ((token, msg_sender msg) = (token, this)));
        [congruence|].
      destruct (decide ((token, msg_sender msg) = (token, msg_sender msg)));
        [|congruence].
      clear Hw. lia.
    + specialize (Hbal token this).
      destruct (decide ((token, this) = (token, msg_sender msg)));
        [congruence|].
      destruct (decide ((token, this) = (token, this))); [|congruence].
      clear Hw. lia.
    + unfold unclaimedOf, setUnclaimed. cbn. now rewrite lookup_insert_eq.
    + intros owner tok Hne. unfold unclaimedOf, setUnclaimed. cbn.
      rewrite lookup_insert_ne by congruence. reflexivity.
    + split; reflexivity.
Qed.

Lemma refund_always_claimable_witness :
  ∃ m', claimRefund Demo.hook (mkMsg Demo.botA 5000) Demo.tokA
          (run Demo.hook packKey (deployed Demo.adm Demo.pm Demo.world)
             DemoMore.thawed) = Ok tt m' ∧
        unclaimedOf (st m') Demo.botA Demo.tokA = 0.
Proof.
  destruct (refund_always_claimable Demo.hook packKey unpackKey Demo.adm
              Demo.pm Demo.world DemoMore.thawed (mkMsg Demo.botA 5000)
              Demo.tokA) as (m' & H1 & _ & _ & H2 & _).
  - exact unpackKey_packKey.
  - vm_compute. discriminate.
  - intros tok. unfold balanceOf, Demo.world. cbn [balances].
    destruct (list_to_map _ !! (tok, Demo.hook)) as [v|] eqn:E;
      [|reflexivity].
    exfalso. apply elem_of_list_to_map_2 in E.
    repeat (apply elem_of_cons in E as [E|E]; [discriminate E|]).
    now apply elem_of_nil in E.
  - repeat constructor; cbn; try discriminate.
  - vm_compute. discriminate.
  - vm_compute. discriminate.
  - vm_compute; reflexivity.
  - vm_compute; reflexivity.
  - exists m'. split; [exact H1|exact H2].
Defined.

(** ** Removing an id from a pool's array *)

Lemma indexOf_app_fresh x ids :
  x ∉ ids → indexOf x (ids ++ [x]) = Some (length ids).
Proof.
  induction ids as [|y rest IH]; cbn; intros Hx.
  - now rewrite N.eqb_refl.
  - apply not_elem_of_cons in Hx as [Hne Hx].
    destruct (N.eqb_spec y x) as [->|_]; [congruence|].
    now rewrite (IH Hx).
Qed.

Lemma swapAndPop_last (ids : list N) x :
  swapAndPop (length ids) (ids ++ [x]) = ids.
Proof.
  unfold swapAndPop. rewrite last_snoc.
  rewrite insert_app_r_alt by lia. rewrite Nat.sub_diag. cbn.
  apply removelast_last.
Qed.

(** X5.  What [_removeOrder] does to the arrays.  It always succeeds and
    touches nothing but the array of the given pool.  An id that is not in
    the array leaves the whole storage as it was.  An id that is in the
    array is taken out once: the array before is a permutation of the id
    followed by the array after, one entry shorter; the entries in front
    of the removed position stay where they were, and the removed position
    now holds the former last entry (or is gone, if it was the last). *)
Theorem removeOrder_removes_one pid id m :
  let ids := idsOf (st m) pid in
  ∃ m', _removeOrder pid id m = Ok tt m' ∧
    ledger m' = ledger m ∧ log m' = log m ∧
    orders (st m') = orders (st m) ∧
    (∀ p, p ≠ pid → idsOf (st m') p = idsOf (st m) p) ∧
    (id ∉ ids → st m' = st m) ∧
    (∀ i, indexOf id ids = Some i →
          ids ≡ₚ id :: idsOf (st m') pid ∧
          length ids = S (length (idsOf (st m') pid)) ∧
          take i (idsOf (st m') pid) = take i ids ∧
          (S i < length ids → idsOf (st m') pid !! i = last ids)%nat).
Proof.
  intros ids. eexists. split; [reflexivity|]. cbn [st ledger log].
  split; [reflexivity|]. split; [reflexivity|].
  split; [apply removeOrderSt_orders|]. split.
  - intros p Hp. rewrite idsOf_removeOrderSt.
    destruct (decide (pid = p)); [congruence|reflexivity].
  - split.
    + intros Hnot. apply indexOf_None in Hnot. unfold removeOrderSt.
      fold ids. now rewrite Hnot.
    + intros i Hi. rewrite idsOf_removeOrderSt. fold ids. rewrite Hi.
      destruct (decide (pid = pid)); [|congruence].
      pose proof (indexOf_Some _ _ _ Hi) as [Hlook _].
      pose proof (lookup_lt_Some _ _ _ Hlook) as Hlt.
      split; [|split; [|split]].
      * rewrite (swapAndPop_perm i ids Hlt).
        now apply delete_Permutation.
      * rewrite (swapAndPop_length i ids Hlt). lia.
      * now apply swapAndPop_take.
      * intros HS. unfold swapAndPop.
        destruct (last ids) as [l|] eqn:El.
        2:{ apply last_None in El. rewrite El in Hlt. cbn in Hlt. lia. }
        apply last_Some in El as [pre Hpre]. rewrite Hpre in *.
        rewrite length_app in HS. cbn in HS.
        rewrite insert_app_l by lia. rewrite removelast_last.
        apply list_lookup_insert_eq. lia.
Qed.

(** ** Posting and cancelling *)

(** X6.  Post then cancel is a round trip.  On any machine reached from
    deployment, let [postOrder] succeed and return [id].  Then the maker's
    [cancelOrder] of [id] with the same pool key succeeds at any later
    time, and afterwards every token balance of every account and every
    pool array are what they were before the post; the order stays stored,
    inactive, and the id is used up. *)
Theorem post_then_cancel this keccak256 a pm w steps msg key sell0 amtIn
    minOut duration id m1 t2 :
  let m := run this keccak256 (deployed a pm w) steps in
  postOrder this keccak256 msg key sell0 amtIn minOut duration m = Ok id m1 →
  msg_sender msg ≠ 0 →
  ∃ m2,
    cancelOrder this keccak256 (mkMsg (msg_sender msg) t2) id key m1
    = Ok tt m2 ∧
    (∀ t h, balanceOf (ledger m2) t h = balanceOf (ledger m) t h) ∧
    (∀ p, idsOf (st m2) p = idsOf (st m) p) ∧
    (∀ x, x ≠ id → orderAt (st m2) x = orderAt (st m) x) ∧
    orderAt (st m2) id
    = mkOrder (msg_sender msg) sell0 amtIn minOut
        (block_timestamp msg + duration) false (keccak256 key) ∧
    nextOrderId (st m2) = nextOrderId (st m) + 1.
Proof.
  intros m Hpost Hsender.
  assert (Hwf : wf (st m)) by (apply run_wf, wf_constructor).
  apply postOrder_ok_inv in Hpost
    as (_ & _ & _ & _ & _ & -> & _ & w' & Hw & ->).
  set (o := mkOrder (msg_sender msg) sell0 amtIn minOut
              (block_timestamp msg + duration) true (keccak256 key)).
  set (s1 := postedState (keccak256 key) o (st m)).
  set (id := nextOrderId (st m)).
  assert (Ho : orderAt s1 id = o).
  { unfold s1, postedState. fold id.
    change (orderAt (setIds ?p ?l (setOrder ?i ?o' (set_nextOrderId ?n ?s))) id)
      with (orderAt (setOrder i o' s) id).
    rewrite orderAt_setOrder. now destruct (decide (id = id)). }
  assert (Hfresh : ∀ p, id ∉ idsOf (st m) p).
  { intros p Hin. apply (wf_agree _ Hwf) in Hin as [Hin _].
    apply (wf_active_lt _ _ Hwf) in Hin. unfold id in Hin. lia. }
  destruct (erc20_transfer_back _ _ _ _ _ _ Hw) as (w2 & Hw2 & Hbal).
  eexists. split.
  - apply (cancelOrder_intro this keccak256 (mkMsg (msg_sender msg) t2) id key
             (mkMachine s1 w' _) w2); cbn [st ledger msg_sender];
      rewrite ?Ho; cbn [maker active poolId sellToken0 amountIn o]; auto.
    unfold s1, postedState. cbn. fold id. lia.
  - cbn [st ledger]. split; [exact Hbal|].
    fold s1. unfold matchedState. split; [|split; [|split]].
    + intros p. rewrite idsOf_removeOrderSt, !idsOf_setOrder.
      unfold s1, postedState. fold id. rewrite !idsOf_setIds.
      change (idsOf (setOrder id o (set_nextOrderId (id + 1) (st m))) ?q)
        with (idsOf (st m) q).
      destruct (decide (keccak256 key = p)) as [<-|Hp].
      * destruct (decide (keccak256 key = keccak256 key)); [|congruence].
        rewrite (indexOf_app_fresh _ _ (Hfresh _)). apply swapAndPop_last.
      * reflexivity.
    + intros x Hx. rewrite orderAt_removeOrderSt, orderAt_setOrder.
      destruct (decide (id = x)); [congruence|].
      unfold s1, postedState. fold id.
      change (orderAt (setIds ?p ?l (setOrder ?i ?o' (set_nextOrderId ?n ?s))) x)
        with (orderAt (setOrder i o' s) x).
      rewrite orderAt_setOrder. destruct (decide (id = x)); [congruence|].
      reflexivity.
    + rewrite orderAt_removeOrderSt, orderAt_setOrder.
      destruct (decide (id = id)); [|congruence]. rewrite Ho. reflexivity.
    + rewrite removeOrderSt_nextOrderId. reflexivity.
Qed.

Lemma post_then_cancel_witness :
  ∃ m2,
    cancelOrder Demo.hook packKey (mkMsg Demo.botA 7777) 0 Demo.key Demo.posted
    = Ok tt m2 ∧
    (∀ t h, balanceOf (ledger m2) t h
            = balanceOf (ledger (run Demo.hook packKey
                                   (deployed Demo.adm Demo.pm Demo.world)
                                   Demo.setup)) t h).
Proof.
  destruct (post_then_cancel Demo.hook packKey Demo.adm Demo.pm Demo.world
              Demo.setup (mkMsg Demo.botA 10) Demo.key true 100 95 3600
              0 Demo.posted 7777) as (m2 & H1 & H2 & _).
  - vm_compute; reflexivity.
  - vm_compute. discriminate.
  - exists m2. split; [exact H1|exact H2].
Defined.

(** X7.  A released order is never released again.  On any machine reached
    from deployment, once an existing order is inactive (cancelled, matched
    or purged), then after any further steps every [cancelOrder] for it is
    rejected, whoever calls it and with whatever pool key (with
    [OrderNotActive] when the maker calls), no [purgeExpiredOrders] emits
    an [OrderExpired] event for it, and it is in no pool array. *)
Theorem released_order_stays_released this keccak256 a pm w steps later id :
  let m := run this keccak256 (deployed a pm w) steps in
  let m2 := run this keccak256 m later in
  id < nextOrderId (st m) → active (orderAt (st m) id) = false →
  (∀ msg key, ∃ e,
      cancelOrder this keccak256 msg id key m2 = Revert e ∧
      (msg_sender msg = maker (orderAt (st m) id) → msg_sender msg ≠ 0 →
       e = OrderNotActive)) ∧
  (∀ msg key maxPurge u m3,
      purgeExpiredOrders this keccak256 msg key maxPurge m2 = Ok u m3 →
      id ∉ expiredIds (newLog m2 m3)) ∧
  (∀ p, id ∉ idsOf (st m2) p).
Proof.
  intros m m2 Hlt Hoff.
  assert (Hwf : wf (st m)) by (apply run_wf, wf_constructor).
  assert (Hwf2 : wf (st m2)) by now apply run_wf.
  assert (Hs2 : settled (st m2) id) by (apply run_settled; [exact Hwf|now split]).
  destruct Hs2 as [Hlt2 Hoff2].
  destruct (run_orderAt this keccak256 later m id Hwf Hlt) as [_ Hterms].
  fold m2 in Hterms. destruct Hterms as (Hmk & _).
  split; [|split].
  - intros msg key. unfold cancelOrder. mstep.
    apply N.leb_gt in Hlt2. rewrite Hlt2. mstep.
    destruct (maker (orderAt (st m2) id) =? 0) eqn:E0.
    { eexists. split; [reflexivity|]. apply N.eqb_eq in E0. congruence. }
    mstep.
    destruct (msg_sender msg =? maker (orderAt (st m2) id)) eqn:E1.
    2:{ eexists. split; [reflexivity|]. apply N.eqb_neq in E1. congruence. }
    mstep. rewrite Hoff2. eexists. split; reflexivity.
  - intros msg key maxPurge u m3 H Hin.
    apply (purge_spec _ _ _ _ _ _ _ _ Hwf2) in H as (done & Hp & _).
    destruct (pp_log _ _ _ _ _ _ Hp) as (L & HL & HeL & _).
    assert (newLog m2 m3 = L) as Hnew.
    { unfold newLog. rewrite HL. apply drop_app_length. }
    rewrite Hnew, HeL in Hin.
    destruct (pp_done _ _ _ _ _ _ Hp id Hin) as [Hpg _].
    unfold purgeable in Hpg. rewrite Hoff2 in Hpg. discriminate.
  - intros p Hin. apply (wf_agree _ Hwf2) in Hin as [Hin _]. congruence.
Qed.

Lemma released_order_stays_released_witness :
  ∃ e,
    cancelOrder Demo.hook packKey (mkMsg Demo.botA 50) 0 Demo.key
      (run Demo.hook packKey
         (run Demo.hook packKey (deployed Demo.adm Demo.pm Demo.world)
            (DemoMore.postSteps ++ DemoMore.swapSteps)) [])
    = Revert e ∧
    (msg_sender (mkMsg Demo.botA 50)
     = maker (orderAt (st (run Demo.hook packKey
                             (deployed Demo.adm Demo.pm Demo.world)
                             (DemoMore.postSteps ++ DemoMore.swapSteps))) 0) →
     msg_sender (mkMsg Demo.botA 50) ≠ 0 → e = OrderNotActive).
Proof.
  destruct (released_order_stays_released Demo.hook packKey Demo.adm Demo.pm
              Demo.world (DemoMore.postSteps ++ DemoMore.swapSteps) [] 0)
    as (H & _).
  - vm_compute; reflexivity.
  - vm_compute; reflexivity.
  - exact (H (mkMsg Demo.botA 50) Demo.key).
Defined.

(** ** The matching window *)

Lemma scanOrders_index s now zfo amt ids id :
  scanOrders s now zfo amt ids = Some id ↔
  ∃ i, ids !! i = Some id ∧
       skipOrder now zfo amt (orderAt s id) = false ∧
       ∀ j x, (j < i)%nat → ids !! j = Some x →
              skipOrder now zfo amt (orderAt s x) = true.
Proof.
  induction ids as [|y rest IH]; cbn.
  - split; [discriminate|]. intros (i & Hi & _). discriminate.
  - destruct (skipOrder now zfo amt (orderAt s y)) eqn:E.
    + rewrite IH. split.
      * intros (i & Hi & Hid & Hpre). exists (S i). split; [exact Hi|].
        split; [exact Hid|]. intros [|j] x Hj Hx.
        -- cbn in Hx. congruence.
        -- cbn in Hx. apply (Hpre j); [lia|exact Hx].
      * intros ([|i] & Hi & Hid & Hpre).
        -- cbn in Hi. congruence.
        -- exists i. split; [exact Hi|]. split; [exact Hid|].
           intros j x Hj Hx. apply (Hpre (S j)); [lia|exact Hx].
    + split.
      * intros [= <-]. exists O. split; [reflexivity|]. split; [exact E|].
        intros j x Hj. lia.
      * intros ([|i] & Hi & Hid & Hpre).
        -- cbn in Hi. congruence.
        -- specialize (Hpre O y). rewrite Hpre in E; [discriminate|lia|].
           reflexivity.
Qed.

Lemma take_maxIter (ids : list N) :
  take (maxIter ids) ids = take MAX_ITERATIONS ids.
Proof.
  unfold maxIter. destruct (length ids <? MAX_ITERATIONS)%nat eqn:E;
    [|reflexivity].
  apply Nat.ltb_lt in E. rewrite !take_ge by lia. reflexivity.
Qed.

Lemma selectMatch_index keccak256 s msg key params id :
  selectMatch keccak256 s msg key params = Some id ↔
  ∃ i, (i < MAX_ITERATIONS)%nat ∧
       idsOf s (keccak256 key) !! i = Some id ∧
       skipOrder (block_timestamp msg) (zeroForOne params)
         (Z.to_N (- amountSpecified params)) (orderAt s id) = false ∧
       ∀ j x, (j < i)%nat → idsOf s (keccak256 key) !! j = Some x →
              skipOrder (block_timestamp msg) (zeroForOne params)
                (Z.to_N (- amountSpecified params)) (orderAt s x) = true.
Proof.
  unfold selectMatch. rewrite take_maxIter, scanOrders_index. split.
  - intros (i & Hi & Hid & Hpre).
    apply lookup_take_Some in Hi as [Hi Hlt].
    exists i. split; [exact Hlt|]. split; [exact Hi|]. split; [exact Hid|].
    intros j x Hj Hx. apply (Hpre j); [exact Hj|].
    apply lookup_take_Some. split; [exact Hx|lia].
  - intros (i & Hlt & Hi & Hid & Hpre). exists i. split.
    + apply lookup_take_Some. auto.
    + split; [exact Hid|]. intros j x Hj Hx.
      apply lookup_take_Some in Hx as [Hx _]. now apply (Hpre j).
Qed.

Lemma beforeSwap_noMatch_intro this keccak256 msg sender key params m :
  msg_sender msg = poolManager (st m) →
  (- INT128_MAX ≤ amountSpecified params)%Z →
  selectMatch keccak256 (st m) msg key params = None →
  beforeSwap this keccak256 msg sender key params m = Ok noMatch m.
Proof.
  intros Hpm Hfit Hsel. unfold beforeSwap, onlyPoolManager.
  mstep. mstep. rewrite Hpm, N.eqb_refl. cbn [negb revertIf ret].
  mstep. destruct (isBot (st m) sender); cbn [negb]; [|reflexivity].
  destruct (0 <=? amountSpecified params)%Z eqn:Eamt; [reflexivity|].
  apply Z.leb_gt in Eamt.
  assert ((amountSpecified params =? INT256_MIN)%Z = false) as Hmin.
  { apply Z.eqb_neq. unfold INT256_MIN, INT128_MAX in *. lia. }
  mstep. rewrite Hmin. cbn [revertIf ret].
  assert ((Z.to_N INT128_MAX <? Z.to_N (- amountSpecified params)) = false)
    as Hin.
  { apply N.ltb_ge. unfold INT128_MAX in *. lia. }
  mstep. rewrite Hin. cbn [revertIf ret].
  fold (selectMatch keccak256 (st m) msg key params). rewrite Hsel.
  reflexivity.
Qed.

(** X8.  The match is the first eligible order of the window.  Let the
    pool manager's [beforeSwap] for a whitelisted sender and a negative
    [amountSpecified] succeed.  It traded order [id] exactly when [id]
    sits at some position below [MAX_ITERATIONS] (100) of the pool's
    array, passes the three filters (active and unexpired, opposite side,
    minimum covered by the taker's amount), and every entry in front of it
    fails one of them. *)
Theorem match_is_first_in_window this keccak256 msg sender key params m r m'
    id :
  let ids := idsOf (st m) (keccak256 key) in
  let skip x :=
    skipOrder (block_timestamp msg) (zeroForOne params)
      (Z.to_N (- amountSpecified params)) (orderAt (st m) x) in
  beforeSwap this keccak256 msg sender key params m = Ok r m' →
  isBot (st m) sender = true → (amountSpecified params < 0)%Z →
  (id ∈ tradedIds (newLog m m') ↔
   ∃ i, (i < MAX_ITERATIONS)%nat ∧ ids !! i = Some id ∧ skip id = false ∧
        ∀ j x, (j < i)%nat → ids !! j = Some x → skip x = true).
Proof.
  intros ids skip H Hbot Hneg.
  unfold ids, skip. rewrite <- selectMatch_index.
  apply beforeSwap_ok_inv in H as [_ [(_ & -> & [Hb|[Hge|Hnone]])|
    (id' & w1 & w2 & _ & _ & _ & Hsel & _ & _ & _ & _ & ->)]];
    [congruence|lia| |].
  - rewrite newLog_same, Hnone. split; [|discriminate].
    intros Hin. now apply elem_of_nil in Hin.
  - rewrite newLog_app, Hsel. cbn. rewrite list_elem_of_singleton.
    split; [intros ->; reflexivity|intros [= ->]; reflexivity].
Qed.

Lemma match_is_first_in_window_witness :
  0 ∈ tradedIds (newLog Demo.posted DemoMatch.matched) ↔
  ∃ i, (i < MAX_ITERATIONS)%nat ∧
       idsOf (st Demo.posted) (packKey Demo.key) !! i = Some 0 ∧
       skipOrder (block_timestamp DemoMatch.swapMsg)
         (zeroForOne DemoMatch.swapParams)
         (Z.to_N (- amountSpecified DemoMatch.swapParams))
         (orderAt (st Demo.posted) 0) = false ∧
       ∀ j x, (j < i)%nat →
              idsOf (st Demo.posted) (packKey Demo.key) !! j = Some x →
              skipOrder (block_timestamp DemoMatch.swapMsg)
                (zeroForOne DemoMatch.swapParams)
                (Z.to_N (- amountSpecified DemoMatch.swapParams))
                (orderAt (st Demo.posted) x) = true.
Proof.
  apply (match_is_first_in_window Demo.hook packKey DemoMatch.swapMsg
           Demo.botB Demo.key DemoMatch.swapParams Demo.posted
           DemoMatch.returned DemoMatch.matched 0).
  - vm_compute; reflexivity.
  - vm_compute; reflexivity.
  - vm_compute; reflexivity.
Defined.

(** X9.  Orders beyond the window are invisible.  If each of the first
    [MAX_ITERATIONS] (100) entries of the pool's array fails a filter, a
    [beforeSwap] by the pool manager, with an amount that fits, returns
    the no-match result and changes nothing, whatever comes later in the
    array: an eligible order at position 100 or beyond is not matched
    until entries in front of it are removed. *)
Theorem order_beyond_window_invisible this keccak256 msg sender key params m :
  msg_sender msg = poolManager (st m) →
  (- INT128_MAX ≤ amountSpecified params)%Z →
  (∀ x, x ∈ take MAX_ITERATIONS (idsOf (st m) (keccak256 key)) →
        skipOrder (block_timestamp msg) (zeroForOne params)
          (Z.to_N (- amountSpecified params)) (orderAt (st m) x) = true) →
  beforeSwap this keccak256 msg sender key params m = Ok noMatch m.
Proof.
  intros Hpm Hfit Hall.
  apply beforeSwap_noMatch_intro; [exact Hpm|exact Hfit|].
  unfold selectMatch. rewrite take_maxIter. now apply scanOrders_None.
Qed.

Lemma order_beyond_window_invisible_witness :
  idsOf (st DemoDeep.book) (packKey Demo.key) !! 100%nat = Some 100 ∧
  skipOrder (block_timestamp DemoMatch.swapMsg)
    (zeroForOne DemoMatch.swapParams)
    (Z.to_N (- amountSpecified DemoMatch.swapParams))
    (orderAt (st DemoDeep.book) 100) = false ∧
  beforeSwap Demo.hook packKey DemoMatch.swapMsg Demo.botB Demo.key
    DemoMatch.swapParams DemoDeep.book = Ok noMatch DemoDeep.book.
Proof.
  split; [vm_compute; reflexivity|]. split; [vm_compute; reflexivity|].
  apply (order_beyond_window_invisible Demo.hook packKey DemoMatch.swapMsg
           Demo.botB Demo.key DemoMatch.swapParams DemoDeep.book).
  - vm_compute; reflexivity.
  - vm_compute. discriminate.
  - intros x Hx.
    assert (Hall : forallb
              (λ x, skipOrder (block_timestamp DemoMatch.swapMsg)
                      (zeroForOne DemoMatch.swapParams)
                      (Z.to_N (- amountSpecified DemoMatch.swapParams))
                      (orderAt (st DemoDeep.book) x))
              (take MAX_ITERATIONS (idsOf (st DemoDeep.book) (packKey Demo.key)))
            = true) by (vm_compute; reflexivity).
    exact (proj1 (forallb_forall _ _) Hall x (proj1 (list_elem_of_In _ _) Hx)).
Defined.

(** ** The errors of each entry point *)

Lemma rw_bind {A B} P (c : M A) (k : A → M B) :
  revertsWithin P c → (∀ a, revertsWithin P (k a)) →
  revertsWithin P (c ≫= k).
Proof.
  intros Hc Hk m e. unfold mbind, M_bind, bind.
  destruct (c m) as [a m1|e'|] eqn:E; [apply Hk| |discriminate].
  intros [= <-]. now apply Hc in E.
Qed.

Lemma rw_ok {A} P (c : M A) :
  (∀ m, ∃ a m', c m = Ok a m') → revertsWithin P c.
Proof. intros H m e E. destruct (H m) as (a & m' & E'). congruence. Qed.

Lemma rw_revertIf P b e : (b = true → P e) → revertsWithin P (revertIf b e).
Proof. intros H m e'. destruct b; cbn; [|discriminate]. intros [= <-]. auto. Qed.

Lemma rw_revert {A} P e : P e → revertsWithin P (revert e : M A).
Proof. intros H m e' [= <-]. exact H. Qed.

Lemma rw_checkedAdd P a b : P Panic → revertsWithin P (checkedAdd a b).
Proof.
  intros H m e. unfold checkedAdd. destruct (_ <? _); [|discriminate].
  now intros [= <-].
Qed.

Lemma rw_checkedNeg128 P x : P Panic → revertsWithin P (checkedNeg128 x).
Proof.
  intros H m e. unfold checkedNeg128. destruct (_ =? _)%Z; [|discriminate].
  now intros [= <-].
Qed.

Lemma rw_external P c t f to amt : revertsWithin P (external c t f to amt).
Proof.
  apply rw_ok. intros m. unfold external.
  destruct (erc20_transfer _ _ _ _ _); eexists _, _; reflexivity.
Qed.

Lemma rw_weaken {A} (P Q : Error → Prop) (c : M A) :
  (∀ e, P e → Q e) → revertsWithin P c → revertsWithin Q c.
Proof. intros HPQ Hc m e E. apply HPQ. exact (Hc m e E). Qed.

(** Break a computation into its primitives; what is left are the goals
    [P e], one for each [revert e] the computation contains. *)
Ltac rw_tac :=
  repeat first
    [ apply rw_bind; [|intros ?]
    | apply rw_revertIf; intros _
    | apply rw_revert
    | apply rw_checkedAdd
    | apply rw_checkedNeg128
    | apply rw_external
    | match goal with
      | |- revertsWithin _ (if ?b then _ else _) => destruct b
      | |- revertsWithin _ (match ?x with Some _ => _ | None => _ end) =>
          destruct x
      end
    | apply rw_ok; intros ?; eexists _, _; reflexivity ].

Section Reverts.

Variable this : address.

Variable keccak256 : PoolKey → bytes32.

Lemma dispatch_reverts msg c :
  revertsWithin (λ e, mayRevert c e = true) (dispatch this keccak256 msg c).
Proof.
  destruct c; cbn [dispatch].
  - unfold addBot, onlyAdmin. rw_tac; reflexivity.
  - unfold removeBot, onlyAdmin. rw_tac; reflexivity.
  - unfold setAdmin, onlyAdmin. rw_tac; reflexivity.
  - unfold acceptAdmin. rw_tac; reflexivity.
  - unfold postOrder, onlyWhitelisted, safeTransferFrom. rw_tac; reflexivity.
  - unfold cancelOrder, _removeOrder, safeTransfer. rw_tac; reflexivity.
  - unfold beforeSwap, onlyPoolManager, pmTake, safeTransfer, _removeOrder.
    rw_tac; reflexivity.
  - unfold afterSwap, onlyPoolManager. rw_tac; reflexivity.
  - intros m e H. apply purge_revert in H as [->|[-> _]]; reflexivity.
  - unfold claimRefund, safeTransfer. rw_tac; reflexivity.
  - unfold unusedHook. rw_tac; reflexivity.
Qed.

(** After its two range checks, [beforeSwap] does not revert with
    [AmountOverflow] any more. *)
Lemma beforeSwap_tail_reverts (s : State) (sender : address)
    (key : PoolKey) (params : SwapParams) (k : option N) :
  revertsWithin (λ e, e ≠ AmountOverflow)
    (match k with
     | Some matchedOrderId =>
         let order := orderAt s matchedOrderId in
         modify (setOrder matchedOrderId (deactivate order));;
         _removeOrder (keccak256 key) matchedOrderId;;
         let inputCurrency :=
           if zeroForOne params then currency0 key else currency1 key in
         let outputCurrency :=
           if zeroForOne params then currency1 key else currency0 key in
         let takerPays := minAmountOut order in
         pmTake inputCurrency (maker order) takerPays;;
         externalNoop (PMSync outputCurrency);;
         safeTransfer this outputCurrency (poolManager s) (amountIn order);;
         externalNoop PMSettle;;
         emit (P2PTrade matchedOrderId (maker order) sender
                 inputCurrency outputCurrency takerPays (amountIn order));;
         let specified := int128_of_uint128 takerPays in
         unspecified ← checkedNeg128 (int128_of_uint128 (amountIn order));
         mret (beforeSwap_selector,
               toBeforeSwapDelta specified unspecified, 0)
     | None => (mret (beforeSwap_selector, ZERO_DELTA, 0)
                : M (N * BeforeSwapDelta * N))
     end).
Proof.
  destruct k; cbv zeta; unfold pmTake, safeTransfer, _removeOrder;
    rw_tac; discriminate.
Qed.

End Reverts.

(** X10.  The errors of each entry point.  A call of the hook that reverts
    carries one of the errors listed for its entry point by [mayRevert].
    In particular no call ever fails with [ExactInputOnly] or
    [TransferFailed], which the contract declares but never raises;
    [HookNotImplemented] comes from the unused hooks only; a revert on
    undecodable return data comes only from [purgeExpiredOrders], and only
    for a pool key one of whose currencies returns no data; and a reverted
    transaction leaves the machine as it was. *)
Theorem revert_reasons this keccak256 msg c m e :
  dispatch this keccak256 msg c m = Revert e →
  mayRevert c e = true ∧
  e ≠ ExactInputOnly ∧ e ≠ TransferFailed ∧
  (e = HookNotImplemented → c = CallUnusedHook) ∧
  (e = DecodeFailed →
   ∃ key maxPurge, c = CallPurgeExpiredOrders key maxPurge ∧
                   refundsDecode (ledger m) key = false) ∧
  step this keccak256 m (Tx msg c) = m.
Proof.
  intros H. pose proof (dispatch_reverts this keccak256 msg c m e H) as Hm.
  cbn beta in Hm. split; [exact Hm|].
  split; [intros ->; destruct c; discriminate|].
  split; [intros ->; destruct c; discriminate|].
  split; [intros ->; destruct c; try discriminate; reflexivity|].
  split.
  - intros ->. destruct c; try discriminate Hm. cbn [dispatch] in H.
    apply purge_revert in H as [?|[_ Hd]]; [discriminate|]. eauto.
  - cbn [step]. now rewrite H.
Qed.

Lemma revert_reasons_witness :
  mayRevert (CallCancelOrder 0 Demo.wrongKey) PoolMismatch = true ∧
  PoolMismatch ≠ ExactInputOnly ∧ PoolMismatch ≠ TransferFailed ∧
  (PoolMismatch = HookNotImplemented →
   CallCancelOrder 0 Demo.wrongKey = CallUnusedHook) ∧
  (PoolMismatch = DecodeFailed →
   ∃ key maxPurge,
     CallCancelOrder 0 Demo.wrongKey = CallPurgeExpiredOrders key maxPurge ∧
     refundsDecode (ledger Demo.posted) key = false) ∧
  step Demo.hook packKey Demo.posted
    (Tx (mkMsg Demo.botA 30) (CallCancelOrder 0 Demo.wrongKey)) = Demo.posted.
Proof.
  apply (revert_reasons Demo.hook packKey (mkMsg Demo.botA 30)
           (CallCancelOrder 0 Demo.wrongKey) Demo.posted PoolMismatch).
  vm_compute; reflexivity.
Defined.

(** X11.  When [beforeSwap] rejects the amount.  For a call by the pool
    manager, [beforeSwap] reverts with [AmountOverflow] exactly when the
    sender is whitelisted and [amountSpecified] is below [- (2^127 - 1)],
    the least [int256] included; an exact-input amount of [2^127 - 1] is
    still accepted, and a sender that is not whitelisted never sees the
    error. *)
Theorem beforeSwap_amount_overflow this keccak256 msg sender key params m :
  msg_sender msg = poolManager (st m) →
  (beforeSwap this keccak256 msg sender key params m = Revert AmountOverflow
   ↔ isBot (st m) sender = true ∧ (amountSpecified params < - INT128_MAX)%Z).
Proof.
  intros Hpm. unfold beforeSwap, onlyPoolManager.
  mstep. mstep. rewrite Hpm, N.eqb_refl. cbn [negb revertIf ret]. mstep.
  destruct (isBot (st m) sender); cbn [negb].
  2:{ split; [discriminate|]. intros [? _]. discriminate. }
  destruct (0 <=? amountSpecified params)%Z eqn:Eamt.
  { apply Z.leb_le in Eamt. split; [discriminate|].
    unfold INT128_MAX. intros [_ ?]. lia. }
  apply Z.leb_gt in Eamt.
  destruct (amountSpecified params =? INT256_MIN)%Z eqn:Emin.
  { mstep. apply Z.eqb_eq in Emin. split; [|reflexivity].
    intros _. split; [reflexivity|].
    rewrite Emin. unfold INT256_MIN, INT128_MAX. lia. }
  mstep. apply Z.eqb_neq in Emin.
  destruct (Z.to_N INT128_MAX <? Z.to_N (- amountSpecified params)) eqn:Efit.
  { mstep. apply N.ltb_lt in Efit. split; [|reflexivity].
    intros _. split; [reflexivity|]. unfold INT128_MAX in *. lia. }
  mstep. apply N.ltb_ge in Efit.
  split.
  - intros H. exfalso.
    exact (beforeSwap_tail_reverts this keccak256 (st m) sender key params
             _ m _ H eq_refl).
  - intros [_ Hlt]. exfalso. unfold INT128_MAX in *. lia.
Qed.

Lemma beforeSwap_amount_overflow_witness :
  beforeSwap Demo.hook packKey DemoMatch.swapMsg Demo.botB Demo.key
    (mkSwapParams false (- 2 ^ 127) 0) Demo.posted = Revert AmountOverflow
  ↔ isBot (st Demo.posted) Demo.botB = true ∧
    (amountSpecified (mkSwapParams false (- 2 ^ 127) 0) < - INT128_MAX)%Z.
Proof.
  apply (beforeSwap_amount_overflow Demo.hook packKey DemoMatch.swapMsg
           Demo.botB Demo.key (mkSwapParams false (- 2 ^ 127) 0) Demo.posted).
  vm_compute; reflexivity.
Defined.

(** ** Privileged storage *)

Section Governance.

Variable this : address.

Variable keccak256 : PoolKey → bytes32.

Lemma purgeOne_governance key pid i m a m' :
  purgeOne this key pid i m = Ok a m' → governance (st m') = governance (st m).
Proof.
  intros H. apply purgeOne_ok_inv in H as [(w' & _ & ->)|(_ & _ & ->)];
    reflexivity.
Qed.

(** The order-book calls, the swap hooks, the purge and the refund claim
    leave the privileged storage alone. *)
Lemma dispatch_governance msg c m a m' :
  isAdminCall c = false →
  dispatch this keccak256 msg c m = Ok a m' →
  governance (st m') = governance (st m).
Proof.
  intros Hc H. destruct c; try discriminate Hc; cbn [dispatch] in H.
  - minv. match goal with H : postOrder _ _ _ _ _ _ _ _ _ = _ |- _ =>
      apply postOrder_ok_inv in H as (_ & _ & _ & _ & _ & _ & _ & w' & _ & ->)
    end. reflexivity.
  - apply cancelOrder_ok_inv in H as (_ & _ & _ & _ & w' & _ & ->).
    cbn [st]. unfold governance, matchedState.
    now rewrite removeOrderSt_allowedBots, removeOrderSt_poolManager;
      unfold removeOrderSt; destruct (indexOf _ _).
  - minv. match goal with H : beforeSwap _ _ _ _ _ _ _ = _ |- _ =>
      apply beforeSwap_ok_inv in H as [_ [(_ & -> & _)|
        (id' & w1 & w2 & _ & _ & _ & _ & _ & _ & _ & _ & ->)]]
    end; [reflexivity|].
    cbn [st]. unfold governance, matchedState.
    now rewrite removeOrderSt_allowedBots, removeOrderSt_poolManager;
      unfold removeOrderSt; destruct (indexOf _ _).
  - unfold afterSwap, onlyPoolManager in H. minv. reflexivity.
  - unfold purgeExpiredOrders in H.
    apply bind_ok_inv in H as (s & m1 & H1 & H). injection H1 as <- <-.
    apply (purgeLoop_inv this msg key (keccak256 key) maxPurge
             (λ _ _ m1, governance (st m1) = governance (st m))) in H.
    + now destruct H as (_ & _ & H & _).
    + intros i purged m1 u m2 Hg _ _ _ Hone.
      now rewrite (purgeOne_governance _ _ _ _ _ _ Hone).
    + auto.
    + reflexivity.
  - apply claimRefund_ok_inv in H as (_ & w' & _ & ->). reflexivity.
  - discriminate H.
Qed.

End Governance.

(** X12.  Who can change the privileged storage.  Whatever the machine,
    one step changes the whitelist flag of an address only if the step is
    an [addBot] or [removeBot] for that address sent by the admin; it
    changes the admin only if it is an [acceptAdmin] sent by the pending
    admin, who becomes the admin; it changes the pending admin only if it
    is a [setAdmin] sent by the admin or that [acceptAdmin]; and it never
    changes the pool manager, which is still the constructor's argument
    after any run. *)
Theorem privileged_storage this keccak256 m x :
  let m' := step this keccak256 m x in
  (∀ b, isBot (st m') b ≠ isBot (st m) b →
        ∃ msg, msg_sender msg = admin (st m) ∧
               ((x = Tx msg (CallAddBot b) ∧ isBot (st m') b = true) ∨
                (x = Tx msg (CallRemoveBot b) ∧ isBot (st m') b = false))) ∧
  (admin (st m') ≠ admin (st m) →
   ∃ msg, x = Tx msg CallAcceptAdmin ∧
          msg_sender msg = pendingAdmin (st m) ∧
          admin (st m') = msg_sender msg) ∧
  (pendingAdmin (st m') ≠ pendingAdmin (st m) →
   ∃ msg, (msg_sender msg = admin (st m) ∧
           ∃ a, a ≠ 0 ∧ x = Tx msg (CallSetAdmin a) ∧
                pendingAdmin (st m') = a) ∨
          (msg_sender msg = pendingAdmin (st m) ∧
           x = Tx msg CallAcceptAdmin ∧ pendingAdmin (st m') = 0)) ∧
  poolManager (st m') = poolManager (st m) ∧
  ∀ a pm w steps,
    poolManager (st (run this keccak256 (deployed a pm w) steps)) = pm.
Proof.
  intros m'.
  assert (Hstep : ∀ m0 x0,
            governance (st (step this keccak256 m0 x0)) = governance (st m0) ∨
            ∃ msg c u m1, x0 = Tx msg c ∧ isAdminCall c = true ∧
              dispatch this keccak256 msg c m0 = Ok u m1 ∧
              step this keccak256 m0 x0 = m1).
  { intros m0 x0. destruct x0 as [msg c| | |token from to amt]; cbn [step];
      try (left; reflexivity).
    - destruct (dispatch this keccak256 msg c m0) as [u m1| |] eqn:E;
        try (left; reflexivity).
      destruct (isAdminCall c) eqn:Ec.
      + right. exists msg, c, u, m1. auto.
      + left. exact (dispatch_governance this keccak256 _ _ _ _ _ Ec E).
    - destruct (erc20_transfer token from to amt (ledger m0));
        left; reflexivity. }
  assert (Hpm : ∀ m0 x0, poolManager (st (step this keccak256 m0 x0))
                         = poolManager (st m0)).
  { intros m0 x0. destruct (Hstep m0 x0) as [Hg|(msg & c & u & m1 & -> & Hc & E & ->)].
    - unfold governance in Hg. congruence.
    - destruct c; try discriminate Hc; cbn [dispatch] in E.
      + unfold addBot, onlyAdmin in E. minv. reflexivity.
      + unfold removeBot, onlyAdmin in E. minv. reflexivity.
      + unfold setAdmin, onlyAdmin in E. minv. reflexivity.
      + unfold acceptAdmin in E. minv. reflexivity. }
  destruct (Hstep m x) as [Hg|(msg & c & u & m1 & -> & Hc & E & Hm1)];
    fold m' in Hg || fold m' in Hm1.
  - unfold governance in Hg. injection Hg as Ha Hp Hb _.
    split; [|split; [|split; [|split]]].
    + intros b Hne. unfold isBot in Hne. rewrite Hb in Hne. congruence.
    + congruence.
    + congruence.
    + apply Hpm.
    + intros a pm w steps.
      change pm with (poolManager (st (deployed a pm w))) at 2.
      generalize (deployed a pm w). induction steps as [|y steps IH];
        intros m0; [reflexivity|].
      cbn [run foldl]. fold (run this keccak256 (step this keccak256 m0 y) steps).
      rewrite IH. apply Hpm.
  - split; [|split; [|split; [|split]]].
    + intros b Hne. exists msg. rewrite Hm1 in *. clear Hm1.
      destruct c; try discriminate Hc; cbn [dispatch] in E.
      * unfold addBot, onlyAdmin in E. minv.
        match goal with E : negb _ = false |- _ =>
          apply negb_false_iff, N.eqb_eq in E end.
        split; [assumption|]. left. unfold isBot in *. cbn in *.
        destruct (decide (bot = b)) as [->|Hnb].
        -- rewrite lookup_insert_eq. auto.
        -- rewrite lookup_insert_ne in Hne by exact Hnb. congruence.
      * unfold removeBot, onlyAdmin in E. minv.
        match goal with E : negb _ = false |- _ =>
          apply negb_false_iff, N.eqb_eq in E end.
        split; [assumption|]. right. unfold isBot in *. cbn in *.
        destruct (decide (bot = b)) as [->|Hnb].
        -- rewrite lookup_insert_eq. auto.
        -- rewrite lookup_insert_ne in Hne by exact Hnb. congruence.
      * unfold setAdmin, onlyAdmin in E. minv. now contradiction Hne.
      * unfold acceptAdmin in E. minv. now contradiction Hne.
    + intros Hne. exists msg. rewrite Hm1 in *. clear Hm1.
      destruct c; try discriminate Hc; cbn [dispatch] in E.
      * unfold addBot, onlyAdmin in E. minv. now contradiction Hne.
      * unfold removeBot, onlyAdmin in E. minv. now contradiction Hne.
      * unfold setAdmin, onlyAdmin in E. minv. now contradiction Hne.
      * unfold acceptAdmin in E. minv.
        match goal with E : negb _ = false |- _ =>
          apply negb_false_iff, N.eqb_eq in E end.
        auto.
    + intros Hne. exists msg. rewrite Hm1 in *. clear Hm1.
      destruct c; try discriminate Hc; cbn [dispatch] in E.
      * unfold addBot, onlyAdmin in E. minv. now contradiction Hne.
      * unfold removeBot, onlyAdmin in E. minv. now contradiction Hne.
      * unfold setAdmin, onlyAdmin in E. minv.
        repeat match goal with
               | E : negb _ = false |- _ => apply negb_false_iff, N.eqb_eq in E
               | E : (_ =? _) = false |- _ => apply N.eqb_neq in E
               end.
        left. split; [assumption|]. exists newAdmin. auto.
      * unfold acceptAdmin in E. minv.
        match goal with E : negb _ = false |- _ =>
          apply negb_false_iff, N.eqb_eq in E end.
        right. auto.
    + apply Hpm.
    + intros a pm w steps.
      change pm with (poolManager (st (deployed a pm w))) at 2.
      generalize (deployed a pm w). induction steps as [|y steps IH];
        intros m0; [reflexivity|].
      cbn [run foldl]. fold (run this keccak256 (step this keccak256 m0 y) steps).
      rewrite IH. apply Hpm.
Qed.

(** X13.  The admin hand-over takes two steps.  When the admin calls
    [setAdmin] with a non-zero address, the call succeeds, the admin is
    unchanged and the address becomes the pending admin.  From there,
    [acceptAdmin] by anyone else is rejected with [NotPendingAdmin];
    [acceptAdmin] by the pending admin succeeds, makes it the admin and
    clears the pending slot, after which the former admin (if it is
    another address) is rejected by [addBot], [removeBot] and [setAdmin]
    with [NotAdmin], and a second [acceptAdmin] by the new admin is
    rejected unless its address is zero. *)
Theorem admin_handover msg newAdmin m :
  msg_sender msg = admin (st m) → newAdmin ≠ 0 →
  ∃ m1, setAdmin msg newAdmin m = Ok tt m1 ∧
    admin (st m1) = admin (st m) ∧ pendingAdmin (st m1) = newAdmin ∧
    (∀ msg2, msg_sender msg2 ≠ newAdmin →
             acceptAdmin msg2 m1 = Revert NotPendingAdmin) ∧
    (∀ msg2, msg_sender msg2 = newAdmin →
       ∃ m2, acceptAdmin msg2 m1 = Ok tt m2 ∧
         admin (st m2) = newAdmin ∧ pendingAdmin (st m2) = 0 ∧
         acceptAdmin msg2 m2 = Revert NotPendingAdmin ∧
         ∀ msg3 b, msg_sender msg3 = admin (st m) → admin (st m) ≠ newAdmin →
           addBot msg3 b m2 = Revert NotAdmin ∧
           removeBot msg3 b m2 = Revert NotAdmin ∧
           setAdmin msg3 b m2 = Revert NotAdmin).
Proof.
  intros Hadm Hnz. eexists. split.
  - unfold setAdmin, onlyAdmin. mstep. mstep. rewrite Hadm, N.eqb_refl.
    cbn [negb revertIf ret]. mstep. apply N.eqb_neq in Hnz. rewrite Hnz.
    cbn [revertIf ret]. mstep. reflexivity.
  - cbn [st admin pendingAdmin set_pendingAdmin].
    split; [reflexivity|]. split; [reflexivity|]. split.
    + intros msg2 Hne. unfold acceptAdmin. mstep.
      cbn [pendingAdmin set_pendingAdmin]. apply N.eqb_neq in Hne.
      rewrite Hne. reflexivity.
    + intros msg2 Heq. eexists. split.
      * unfold acceptAdmin. mstep. cbn [pendingAdmin set_pendingAdmin].
        rewrite Heq, N.eqb_refl. cbn [negb]. mstep. mstep. mstep.
        reflexivity.
      * cbn [st admin pendingAdmin set_pendingAdmin set_admin].
        split; [reflexivity|]. split; [reflexivity|]. split.
        -- unfold acceptAdmin. mstep.
           cbn [pendingAdmin set_pendingAdmin set_admin]. rewrite Heq.
           apply N.eqb_neq in Hnz. rewrite Hnz. reflexivity.
        -- intros msg3 b Hold Hne.
           unfold addBot, removeBot, setAdmin, onlyAdmin.
           repeat split; mstep; mstep;
             cbn [admin set_pendingAdmin set_admin];
             rewrite Hold; apply N.eqb_neq in Hne; rewrite Hne; reflexivity.
Qed.

Lemma admin_handover_witness :
  ∃ m1, setAdmin (mkMsg Demo.adm 40) 4242 Demo.posted = Ok tt m1 ∧
        admin (st m1) = admin (st Demo.posted) ∧
        pendingAdmin (st m1) = 4242.
Proof.
  destruct (admin_handover (mkMsg Demo.adm 40) 4242 Demo.posted)
    as (m1 & H1 & H2 & H3 & _).
  - vm_compute; reflexivity.
  - vm_compute. discriminate.
  - exists m1. auto.
Defined.

(** ** Purging twice *)

Section PurgeAgain.

Variable this : address.

Variable keccak256 : PoolKey → bytes32.

Lemma purgeLoop_noop msg key pid maxPurge m fuel : ∀ i purged,
  (length (idsOf (st m) pid) - i < fuel)%nat →
  (∀ x, x ∈ idsOf (st m) pid →
        purgeable (block_timestamp msg) (orderAt (st m) x) = false) →
  purgeLoop this fuel msg key pid maxPurge i purged m = Ok tt m.
Proof.
  induction fuel as [|fuel IH]; intros i purged Hfuel Hnone; [lia|].
  cbn [purgeLoop]. mstep.
  destruct ((i <? length (idsOf (st m) pid))%nat && (purged <? maxPurge))
    eqn:Econd; [|reflexivity].
  apply andb_true_iff in Econd as [Hi _]. apply Nat.ltb_lt in Hi.
  destruct (lookup_lt_is_Some_2 _ _ Hi) as [x Hx]. rewrite Hx.
  cbn [default from_option id].
  rewrite (Hnone x) by (eapply list_elem_of_lookup_2; eauto).
  apply IH; [lia|exact Hnone].
Qed.

Lemma purge_noop msg key maxPurge m :
  (∀ x, x ∈ idsOf (st m) (keccak256 key) →
        purgeable (block_timestamp msg) (orderAt (st m) x) = false) →
  purgeExpiredOrders this keccak256 msg key maxPurge m = Ok tt m.
Proof.
  intros Hnone. unfold purgeExpiredOrders. mstep.
  apply purgeLoop_noop; [lia|exact Hnone].
Qed.

End PurgeAgain.

(** X14.  Purging is idempotent.  On any machine reached from deployment,
    let a purge of a pool succeed with room for every expired entry.  Then
    a second purge of that pool at the same block time, by any caller and
    with any bound, succeeds and changes nothing: no storage write, no
    token transfer, no event.  The same holds for any pool whose array
    holds no entry that is active and past its expiry. *)
Theorem purge_idempotent this keccak256 a pm w steps msg key maxPurge u m1 :
  let m0 := run this keccak256 (deployed a pm w) steps in
  purgeExpiredOrders this keccak256 msg key maxPurge m0 = Ok u m1 →
  N.of_nat (expiredCount (st m0) (block_timestamp msg) (keccak256 key))
  ≤ maxPurge →
  (∀ caller maxPurge2,
     purgeExpiredOrders this keccak256
       (mkMsg caller (block_timestamp msg)) key maxPurge2 m1 = Ok tt m1) ∧
  (∀ msg2 key2 maxPurge2 m,
     (∀ x, x ∈ idsOf (st m) (keccak256 key2) →
           purgeable (block_timestamp msg2) (orderAt (st m) x) = false) →
     purgeExpiredOrders this keccak256 msg2 key2 maxPurge2 m = Ok tt m).
Proof.
  intros m0 H Hfew.
  assert (Hwf : wf (st m0)) by (apply run_wf, wf_constructor).
  apply (purge_spec _ _ _ _ _ _ _ _ Hwf) in H as (done & _ & _ & _ & _ & Hclean).
  split.
  - intros caller maxPurge2. apply purge_noop. cbn [block_timestamp].
    exact (Hclean Hfew).
  - intros msg2 key2 maxPurge2 m Hnone. now apply purge_noop.
Qed.

Lemma purge_idempotent_witness :
  purgeExpiredOrders Demo.hook packKey (mkMsg 88 (block_timestamp DemoPurge.purgeMsg))
    Demo.key 5 (DemoPurge.after 10) = Ok tt (DemoPurge.after 10).
Proof.
  destruct (purge_idempotent Demo.hook packKey Demo.adm Demo.pm Demo.world
              (Demo.setup ++
               [Tx (mkMsg Demo.botA 10) (CallPostOrder Demo.key true 100 95 1);
                Tx (mkMsg Demo.botA 10)
                   (CallPostOrder Demo.key true 200 180 3600);
                Tx (mkMsg Demo.botB 10) (CallPostOrder Demo.key false 50 40 1)])
              DemoPurge.purgeMsg Demo.key 10 tt (DemoPurge.after 10))
    as [H _].
  - vm_compute; reflexivity.
  - vm_compute. discriminate.
  - exact (H 88 5).
Defined.

(** ** Posting *)

Lemma postOrder_intro this keccak256 msg key sell0 amtIn minOut duration m w' :
  let id := nextOrderId (st m) in
  let exp := block_timestamp msg + duration in
  let o := mkOrder (msg_sender msg) sell0 amtIn minOut exp true
             (keccak256 key) in
  isBot (st m) (msg_sender msg) = true →
  amtIn ≠ 0 → minOut ≠ 0 → duration ≠ 0 → duration ≤ MAX_ORDER_DURATION →
  id + 1 ≤ UINT256_MAX → exp ≤ UINT256_MAX →
  erc20_transfer (tokenInOf key sell0) (msg_sender msg) this amtIn (ledger m)
  = Some w' →
  postOrder this keccak256 msg key sell0 amtIn minOut duration m
  = Ok id (mkMachine (postedState (keccak256 key) o (st m)) w'
             (log m ++
              [External (TokenTransferFrom (tokenInOf key sell0)
                           (msg_sender msg) this amtIn) true
                 (setOrder id o (set_nextOrderId (id + 1) (st m)));
               Emitted (OrderPosted id (msg_sender msg) sell0 amtIn minOut
                          exp)])).
Proof.
  intros id exp o Hbot Ha Hm Hd Hmax Hid Hexp Hw.
  unfold postOrder, onlyWhitelisted. mstep. mstep. rewrite Hbot.
  cbn [negb revertIf ret]. mstep.
  apply N.eqb_neq in Ha, Hm, Hd. rewrite Ha, Hm. cbn [orb revertIf ret].
  mstep. rewrite Hd. cbn [revertIf ret].
  apply N.ltb_ge in Hmax. mstep. rewrite Hmax. cbn [revertIf ret].
  mstep. fold id. unfold checkedAdd. apply N.ltb_ge in Hid, Hexp.
  mstep. rewrite Hid. cbn [ret]. mstep. mstep. fold exp. rewrite Hexp.
  cbn [ret]. mstep. unfold safeTransferFrom. mstep. mstep.
  cbn [st ledger log].
  rewrite (external_success _ _ _ _ _ _ w') by exact Hw.
  cbn [negb revertIf ret]. mstep. mstep.
  unfold postedState. rewrite <- !app_assoc. reflexivity.
Qed.

(** X15.  When [postOrder] accepts an order.  [postOrder] succeeds exactly
    when the caller is whitelisted, both amounts are non-zero, the
    duration is between one second and [MAX_ORDER_DURATION] (30 days,
    included), neither the id counter nor the expiry overflows a
    [uint256], and the token's [transferFrom] of [amountIn] from the
    caller to the hook succeeds.  It then returns the former value of the
    id counter, stores the order with expiry [block.timestamp + duration],
    and the caller's balance of the sold token has moved to the hook. *)
Theorem postOrder_accepts_iff this keccak256 msg key sell0 amtIn minOut
    duration m :
  let tokenIn := tokenInOf key sell0 in
  ((∃ id m', postOrder this keccak256 msg key sell0 amtIn minOut duration m
             = Ok id m') ↔
   isBot (st m) (msg_sender msg) = true ∧ amtIn ≠ 0 ∧ minOut ≠ 0 ∧
   0 < duration ∧ duration ≤ MAX_ORDER_DURATION ∧
   nextOrderId (st m) + 1 ≤ UINT256_MAX ∧
   block_timestamp msg + duration ≤ UINT256_MAX ∧
   ∃ w', erc20_transfer tokenIn (msg_sender msg) this amtIn (ledger m)
         = Some w') ∧
  ∀ id m', postOrder this keccak256 msg key sell0 amtIn minOut duration m
           = Ok id m' →
    id = nextOrderId (st m) ∧ nextOrderId (st m') = id + 1 ∧
    orderAt (st m') id
    = mkOrder (msg_sender msg) sell0 amtIn minOut
        (block_timestamp msg + duration) true (keccak256 key) ∧
    (msg_sender msg ≠ this →
     balanceOf (ledger m') tokenIn (msg_sender msg) + amtIn
     = balanceOf (ledger m) tokenIn (msg_sender msg) ∧
     balanceOf (ledger m') tokenIn this
     = balanceOf (ledger m) tokenIn this + amtIn).
Proof.
  intros tokenIn. split; [split|].
  - intros (id & m' & H). unfold postOrder, onlyWhitelisted in H. minv.
    cbn in *.
    repeat match goal with
           | E : negb _ = false |- _ => apply negb_false_iff in E
           | E : (_ || _) = false |- _ => apply orb_false_iff in E as [? ?]
           | E : (_ =? _) = false |- _ => apply N.eqb_neq in E
           | E : (_ <? _) = false |- _ => apply N.ltb_ge in E
           end.
    repeat split; try assumption; try lia. eauto.
  - intros (Hbot & Ha & Hm & Hd & Hmax & Hid & Hexp & w' & Hw).
    eexists _, _.
    apply (postOrder_intro this keccak256 msg key sell0 amtIn minOut duration
             m w'); auto. lia.
  - intros id m' H.
    apply postOrder_ok_inv in H as (_ & _ & _ & _ & _ & -> & _ & w' & Hw & ->).
    split; [reflexivity|]. split; [reflexivity|]. cbn [st ledger]. split.
    + unfold postedState.
      change (orderAt (setIds ?p ?l (setOrder ?i ?o (set_nextOrderId ?n ?s))) ?x)
        with (orderAt (setOrder i o s) x).
      rewrite orderAt_setOrder.
      now destruct (decide (nextOrderId (st m) = nextOrderId (st m))).
    + intros Hne. fold tokenIn in Hw.
      pose proof (erc20_transfer_balance _ _ _ _ _ _ Hw) as [_ Hbal].
      split.
      * specialize (Hbal tokenIn (msg_sender msg)).
        destruct (decide ((tokenIn, msg_sender msg) = (tokenIn, msg_sender msg)));
          [|congruence].
        destruct (decide ((tokenIn, msg_sender msg) = (tokenIn, this)));
          [congruence|].
        clear Hw. lia.
      * specialize (Hbal tokenIn this).
        destruct (decide ((tokenIn, this) = (tokenIn, msg_sender msg)));
          [congruence|].
        destruct (decide ((tokenIn, this) = (tokenIn, this))); [|congruence].
        clear Hw. lia.
Qed.

(** ** The mock pool manager *)

(** X16.  [settle] reports what arrived since [sync].  After [sync] of a
    currency, let any account other than the mock transfer an amount of
    that currency to the mock.  Then [settle] succeeds, returns exactly
    that amount and appends it, with the currency, to the settle records.
    If instead the mock's balance of the currency fell below the snapshot,
    [settle] fails on the checked subtraction. *)
Theorem mock_settle_reports_deposit self currency payer amount s w w1 :
  payer ≠ self →
  erc20_transfer currency payer self amount w = Some w1 →
  ∃ s1, MockPoolManager.sync self currency s w = MockPoolManager.Done tt s1 w ∧
    MockPoolManager.settle self s1 w1
    = MockPoolManager.Done amount
        (MockPoolManager.mkStorage (MockPoolManager.takeCalls s)
           (MockPoolManager.settleCalls s
            ++ [MockPoolManager.mkSettleCall currency amount])
           currency (balanceOf w currency self)) w1 ∧
    ∀ w2, balanceOf w2 currency self < balanceOf w currency self →
          MockPoolManager.settle self s1 w2
          = MockPoolManager.Failed MockPoolManager.Underflow.
Proof.
  intros Hne Hw. eexists. split; [reflexivity|].
  pose proof (erc20_transfer_balance _ _ _ _ _ _ Hw) as [_ Hbal].
  specialize (Hbal currency self).
  destruct (decide ((currency, self) = (currency, payer))); [congruence|].
  destruct (decide ((currency, self) = (currency, self))); [|congruence].
  split.
  - unfold MockPoolManager.settle.
    cbn [MockPoolManager.lastSyncedCurrency MockPoolManager.syncBalanceBefore
         MockPoolManager.takeCalls MockPoolManager.settleCalls].
    assert ((balanceOf w1 currency self <? balanceOf w currency self) = false)
      as -> by (apply N.ltb_ge; clear Hw; lia).
    assert (balanceOf w1 currency self - balanceOf w currency self = amount)
      as -> by (clear Hw; lia).
    reflexivity.
  - intros w2 Hlt. unfold MockPoolManager.settle.
    cbn [MockPoolManager.lastSyncedCurrency MockPoolManager.syncBalanceBefore].
    apply N.ltb_lt in Hlt. now rewrite Hlt.
Qed.

Lemma mock_settle_reports_deposit_witness :
  ∃ s1,
    MockPoolManager.sync Demo.pm Demo.tokA MockPoolManager.fresh
      DemoBoundary.paid
    = MockPoolManager.Done tt s1 DemoBoundary.paid ∧
    MockPoolManager.settle Demo.pm s1 DemoBoundary.released
    = MockPoolManager.Done 100
        (MockPoolManager.mkStorage
           (MockPoolManager.takeCalls MockPoolManager.fresh)
           (MockPoolManager.settleCalls MockPoolManager.fresh
            ++ [MockPoolManager.mkSettleCall Demo.tokA 100])
           Demo.tokA (balanceOf DemoBoundary.paid Demo.tokA Demo.pm))
        DemoBoundary.released.
Proof.
  destruct (mock_settle_reports_deposit Demo.pm Demo.tokA Demo.hook 100
              MockPoolManager.fresh DemoBoundary.paid DemoBoundary.released)
    as (s1 & H1 & H2 & _).
  - vm_compute. discriminate.
  - vm_compute; reflexivity.
  - exists s1. split; [exact H1|exact H2].
Defined.



(** ** The backend's pool keys and side flags *)

Lemma string_ltb_asym a b : String.ltb a b = true → String.ltb b a = false.
Proof.
  unfold String.ltb. rewrite (String.compare_antisym b a).
  now destruct (String.compare a b).
Qed.

Lemma string_ltb_total a b : a ≠ b → String.ltb a b = false → String.ltb b a = true.
Proof.
  unfold String.ltb. intros Hne. rewrite (String.compare_antisym b a).
  destruct (String.compare a b) eqn:E; cbn; try discriminate; auto.
  apply String.compare_eq_iff in E. contradiction.
Qed.

Lemma computePoolKey_swap HOOK_ADDRESS tokenA tokenB fee tickSpacing :
  Backend.toLowerCase tokenA ≠ Backend.toLowerCase tokenB →
  Backend.computePoolKey HOOK_ADDRESS tokenB tokenA fee tickSpacing
  = Backend.computePoolKey HOOK_ADDRESS tokenA tokenB fee tickSpacing.
Proof.
  intros Hne. unfold Backend.computePoolKey.
  destruct (String.ltb (Backend.toLowerCase tokenA)
              (Backend.toLowerCase tokenB)) eqn:E.
  - now rewrite (string_ltb_asym _ _ E).
  - now rewrite (string_ltb_total _ _ Hne E).
Qed.

(** X18.  The pool key does not depend on the order of the tokens.  For
    two tokens whose lower-case addresses differ, [computePoolKey] returns
    the same key whichever token comes first; the key holds the two
    addresses as given, the one with the smaller lower-case form as
    [currency0], the hook address of the deployment, and the default fee
    3000 and tick spacing 60 when none is passed.  So the key the service
    builds to cancel an order or to swap against it is the key it built to
    post it. *)
Theorem computePoolKey_canonical HOOK_ADDRESS tokenA tokenB fee tickSpacing :
  Backend.toLowerCase tokenA ≠ Backend.toLowerCase tokenB →
  let k := Backend.computePoolKey HOOK_ADDRESS tokenA tokenB fee tickSpacing in
  Backend.computePoolKey HOOK_ADDRESS tokenB tokenA fee tickSpacing = k ∧
  String.ltb (Backend.toLowerCase (Backend.currency0 k))
    (Backend.toLowerCase (Backend.currency1 k)) = true ∧
  ((Backend.currency0 k = tokenA ∧ Backend.currency1 k = tokenB) ∨
   (Backend.currency0 k = tokenB ∧ Backend.currency1 k = tokenA)) ∧
  Backend.hooks k = HOOK_ADDRESS ∧
  Backend.fee (Backend.computePoolKey HOOK_ADDRESS tokenA tokenB None None)
  = 3000 ∧
  Backend.tickSpacing
    (Backend.computePoolKey HOOK_ADDRESS tokenA tokenB None None) = 60%Z.
Proof.
  intros Hne k. subst k. split; [now apply computePoolKey_swap|].
  unfold Backend.computePoolKey.
  destruct (String.ltb (Backend.toLowerCase tokenA)
              (Backend.toLowerCase tokenB)) eqn:E; cbn.
  - repeat split; auto.
  - repeat split; auto. now apply string_ltb_total.
Qed.

Lemma computePoolKey_canonical_witness :
  Backend.computePoolKey DemoBackend.hookAddr DemoBackend.claw
    DemoBackend.wmon None None
  = Backend.computePoolKey DemoBackend.hookAddr DemoBackend.wmon
      DemoBackend.claw None None ∧
  Backend.currency0
    (Backend.computePoolKey DemoBackend.hookAddr DemoBackend.wmon
       DemoBackend.claw None None) = DemoBackend.claw.
Proof.
  destruct (computePoolKey_canonical DemoBackend.hookAddr DemoBackend.wmon
              DemoBackend.claw None None) as (H1 & _).
  - vm_compute. discriminate.
  - split; [exact H1|vm_compute; reflexivity].
Defined.

(** X19.  Maker and taker get opposite side flags.  Let a maker post an
    order selling token [sell] for token [buy] and a taker swap paying
    [buy] to receive [sell], the two tokens differing in lower case.  The
    service builds the same pool key for both; the maker's [sellToken0]
    flag selects [sell] as the currency the hook escrows; the taker's
    [zeroForOne] flag selects [buy] as the currency paid and is the
    opposite of the maker's flag.  Hence the
    matching loop's filters accept the order for that taker whenever it is
    active, unexpired and its minimum is covered, and reject it for a
    taker who pays [sell]. *)
Theorem maker_taker_sides HOOK_ADDRESS sell buy :
  Backend.toLowerCase sell ≠ Backend.toLowerCase buy →
  let makerKey := Backend.computePoolKey HOOK_ADDRESS sell buy None None in
  let takerKey := Backend.computePoolKey HOOK_ADDRESS buy sell None None in
  let makerFlag := Backend.isToken0 sell makerKey in
  let takerFlag := Backend.isToken0 buy takerKey in
  takerKey = makerKey ∧
  (if makerFlag then Backend.currency0 makerKey
   else Backend.currency1 makerKey) = sell ∧
  (if takerFlag then Backend.currency0 takerKey
   else Backend.currency1 takerKey) = buy ∧
  takerFlag = negb makerFlag ∧
  ∀ now amt o,
    sellToken0 o = makerFlag → active o = true → now ≤ expiry o →
    minAmountOut o ≤ amt →
    skipOrder now takerFlag amt o = false ∧
    skipOrder now (Backend.isToken0 sell makerKey) amt o = true.
Proof.
  intros Hne makerKey takerKey s0 zfo.
  assert (Hne' : Backend.toLowerCase buy ≠ Backend.toLowerCase sell)
    by congruence.
  assert (Hkey : takerKey = makerKey).
  { unfold takerKey, makerKey. now apply computePoolKey_swap. }
  assert (Hs : (if s0 then Backend.currency0 makerKey
                else Backend.currency1 makerKey) = sell
               ∧ s0 = String.ltb (Backend.toLowerCase sell)
                        (Backend.toLowerCase buy)).
  { unfold s0, makerKey, Backend.isToken0, Backend.computePoolKey.
    destruct (String.ltb (Backend.toLowerCase sell) (Backend.toLowerCase buy));
      cbn.
    - now rewrite String.eqb_refl.
    - apply String.eqb_neq in Hne. now rewrite Hne. }
  assert (Hz : (if zfo then Backend.currency0 takerKey
                else Backend.currency1 takerKey) = buy
               ∧ zfo = String.ltb (Backend.toLowerCase buy)
                         (Backend.toLowerCase sell)).
  { unfold zfo, takerKey, Backend.isToken0, Backend.computePoolKey.
    destruct (String.ltb (Backend.toLowerCase buy) (Backend.toLowerCase sell));
      cbn.
    - now rewrite String.eqb_refl.
    - apply String.eqb_neq in Hne'. now rewrite Hne'. }
  destruct Hs as [Hs1 Hs2], Hz as [Hz1 Hz2].
  assert (Hopp : zfo = negb s0).
  { rewrite Hs2, Hz2.
    destruct (String.ltb (Backend.toLowerCase sell) (Backend.toLowerCase buy))
      eqn:E; cbn.
    - now apply string_ltb_asym.
    - now apply string_ltb_total. }
  split; [exact Hkey|]. split; [exact Hs1|]. split; [exact Hz1|].
  split; [exact Hopp|].
  intros now amt o Hside Hact Hexp Hmin. fold s0. unfold skipOrder.
  rewrite Hact, Hside, Hopp. cbn [negb orb].
  apply N.ltb_ge in Hexp, Hmin. rewrite Hexp, Hmin. cbn [orb].
  split; destruct s0; reflexivity.
Qed.

Lemma maker_taker_sides_witness :
  Backend.computePoolKey DemoBackend.hookAddr DemoBackend.claw
    DemoBackend.wmon None None
  = Backend.computePoolKey DemoBackend.hookAddr DemoBackend.wmon
      DemoBackend.claw None None ∧
  Backend.isToken0 DemoBackend.claw
    (Backend.computePoolKey DemoBackend.hookAddr DemoBackend.claw
       DemoBackend.wmon None None)
  = negb (Backend.isToken0 DemoBackend.wmon
            (Backend.computePoolKey DemoBackend.hookAddr DemoBackend.wmon
               DemoBackend.claw None None)).
Proof.
  destruct (maker_taker_sides DemoBackend.hookAddr DemoBackend.wmon
              DemoBackend.claw) as (H1 & _ & _ & H4 & _).
  - vm_compute. discriminate.
  - split; [exact H1|exact H4].
Defined.

(** ** The balances a match moves *)

(** X20.  A match is a two-leg exchange.  When [beforeSwap] trades order
    [id], the token ledger changes by exactly two transfers: the order's
    [minAmountOut] of the input currency from the pool manager to the
    maker, and the order's [amountIn] of the output currency from the hook
    to the pool manager; every balance of every token obeys the resulting
    double-entry equation.  When the maker is neither the hook nor the
    pool manager, and the pool manager is not the hook, the maker's
    balance of the input currency grows by exactly [minAmountOut] and the
    hook's balance of the output currency shrinks by exactly [amountIn]. *)
Theorem match_moves_balances this keccak256 msg sender key params m r m' id :
  let o := orderAt (st m) id in
  let pm := poolManager (st m) in
  let input := swapInput key params in
  let output := swapOutput key params in
  beforeSwap this keccak256 msg sender key params m = Ok r m' →
  id ∈ tradedIds (newLog m m') →
  (∀ t a,
     balanceOf (ledger m') t a
     + (if decide ((t, a) = (input, pm)) then minAmountOut o else 0)
     + (if decide ((t, a) = (output, this)) then amountIn o else 0)
     = balanceOf (ledger m) t a
       + (if decide ((t, a) = (input, maker o)) then minAmountOut o else 0)
       + (if decide ((t, a) = (output, pm)) then amountIn o else 0)) ∧
  (maker o ≠ this → maker o ≠ pm → pm ≠ this →
   balanceOf (ledger m') input (maker o)
   = balanceOf (ledger m) input (maker o) + minAmountOut o ∧
   balanceOf (ledger m') output this + amountIn o
   = balanceOf (ledger m) output this).
Proof.
  intros o pm input output H Hin.
  apply beforeSwap_ok_inv in H as [_ [(_ & -> & _)|
    (id' & w1 & w2 & _ & _ & _ & _ & Hw1 & Hw2 & _ & _ & ->)]].
  { rewrite newLog_same in Hin. now apply elem_of_nil in Hin. }
  rewrite newLog_app in Hin. cbn in Hin.
  apply list_elem_of_singleton in Hin. subst id'.
  fold o pm input output in Hw1, Hw2. cbn [ledger].
  pose proof (erc20_transfer_balance _ _ _ _ _ _ Hw1) as [_ Hb1].
  pose proof (erc20_transfer_balance _ _ _ _ _ _ Hw2) as [_ Hb2].
  assert (Hall : ∀ t a,
     balanceOf w2 t a
     + (if decide ((t, a) = (input, pm)) then minAmountOut o else 0)
     + (if decide ((t, a) = (output, this)) then amountIn o else 0)
     = balanceOf (ledger m) t a
       + (if decide ((t, a) = (input, maker o)) then minAmountOut o else 0)
       + (if decide ((t, a) = (output, pm)) then amountIn o else 0)).
  { intros t a. specialize (Hb1 t a). specialize (Hb2 t a).
    destruct (decide ((t, a) = (input, pm))),
             (decide ((t, a) = (output, this))),
             (decide ((t, a) = (input, maker o))),
             (decide ((t, a) = (output, pm)));
      clear - Hb1 Hb2; lia. }
  split; [exact Hall|]. intros Hmk Hmp Hpm. split.
  - specialize (Hall input (maker o)).
    destruct (decide ((input, maker o) = (input, pm))); [congruence|].
    destruct (decide ((input, maker o) = (output, this))); [congruence|].
    destruct (decide ((input, maker o) = (input, maker o))); [|congruence].
    destruct (decide ((input, maker o) = (output, pm))); [congruence|].
    clear - Hall. lia.
  - specialize (Hall output this).
    destruct (decide ((output, this) = (input, pm))); [congruence|].
    destruct (decide ((output, this) = (output, this))); [|congruence].
    destruct (decide ((output, this) = (input, maker o))); [congruence|].
    destruct (decide ((output, this) = (output, pm))); [congruence|].
    clear - Hall. lia.
Qed.

Lemma match_moves_balances_witness :
  balanceOf (ledger DemoMatch.matched) Demo.tokB Demo.botA
  = balanceOf (ledger Demo.posted) Demo.tokB Demo.botA + 95 ∧
  balanceOf (ledger DemoMatch.matched) Demo.tokA Demo.hook + 100
  = balanceOf (ledger Demo.posted) Demo.tokA Demo.hook.
Proof.
  destruct (match_moves_balances Demo.hook packKey DemoMatch.swapMsg Demo.botB
              Demo.key DemoMatch.swapParams Demo.posted DemoMatch.returned
              DemoMatch.matched 0) as [_ H].
  - vm_compute; reflexivity.
  - vm_compute. apply list_elem_of_here.
  - apply H; vm_compute; discriminate.
Defined.

(** ** Every stored order is valid *)

Section Valid.

Variable this : address.

Variable keccak256 : PoolKey → bytes32.

Lemma validOrder_deactivate o : validOrder o → validOrder (deactivate o).
Proof. exact id. Qed.

Lemma allValid_ext s s' :
  orders s' = orders s → nextOrderId s' = nextOrderId s →
  allValid s → allValid s'.
Proof.
  intros Ho Hn H x Hx. unfold orderAt. rewrite Ho. apply H. now rewrite <- Hn.
Qed.

Lemma allValid_matchedState s pid id : allValid s → allValid (matchedState pid id s).
Proof.
  intros H x Hx. unfold matchedState in *.
  rewrite removeOrderSt_nextOrderId in Hx. cbn in Hx.
  rewrite orderAt_removeOrderSt, orderAt_setOrder.
  destruct (decide (id = x)) as [->|]; [|now apply H].
  apply validOrder_deactivate. now apply H.
Qed.

Lemma dispatch_valid msg c m a m' :
  wf (st m) → allValid (st m) →
  dispatch this keccak256 msg c m = Ok a m' → allValid (st m').
Proof.
  intros Hwf Hv H. destruct c; cbn [dispatch] in H.
  - unfold addBot, onlyAdmin in H. minv. exact Hv.
  - unfold removeBot, onlyAdmin in H. minv. exact Hv.
  - unfold setAdmin, onlyAdmin in H. minv. exact Hv.
  - unfold acceptAdmin in H. minv. exact Hv.
  - minv. match goal with H : postOrder _ _ _ _ _ _ _ _ _ = _ |- _ =>
      apply postOrder_ok_inv in H
        as (_ & Ha & Hm & Hd & _ & _ & _ & w' & _ & ->)
    end. intros oid Hoid. unfold postedState in *. cbn [st] in *.
    change (orderAt (setIds ?p ?l (setOrder ?i ?o (set_nextOrderId ?n ?s))) oid)
      with (orderAt (setOrder i o s) oid).
    rewrite orderAt_setOrder.
    destruct (decide (nextOrderId (st m) = oid)) as [<-|Hne].
    + unfold validOrder. cbn. repeat split; auto. lia.
    + apply Hv. cbn in Hoid. lia.
  - apply cancelOrder_ok_inv in H as (_ & _ & _ & _ & w' & _ & ->).
    now apply allValid_matchedState.
  - minv. match goal with H : beforeSwap _ _ _ _ _ _ _ = _ |- _ =>
      apply beforeSwap_ok_inv in H as [_ [(_ & -> & _)|
        (id' & w1 & w2 & _ & _ & _ & _ & _ & _ & _ & _ & ->)]]
    end; [exact Hv|]. now apply allValid_matchedState.
  - unfold afterSwap, onlyPoolManager in H. minv. exact Hv.
  - apply (purge_spec _ _ _ _ _ _ _ _ Hwf) in H as (done & Hp & _).
    intros x Hx. rewrite (pp_next _ _ _ _ _ _ Hp) in Hx.
    destruct (decide (x ∈ done)) as [Hd|Hd].
    + destruct (pp_done _ _ _ _ _ _ Hp x Hd) as [_ ->].
      apply validOrder_deactivate. now apply Hv.
    + rewrite (pp_rest _ _ _ _ _ _ Hp x Hd). now apply Hv.
  - apply claimRefund_ok_inv in H as (_ & w' & _ & ->). exact Hv.
  - discriminate H.
Qed.

Lemma run_valid steps : ∀ m,
  wf (st m) → allValid (st m) → allValid (st (run this keccak256 m steps)).
Proof.
  induction steps as [|x steps IH]; intros m Hwf Hv; [exact Hv|].
  change (run this keccak256 m (x :: steps))
    with (run this keccak256 (step this keccak256 m x) steps).
  apply IH; [now apply step_wf|].
  destruct x as [msg c| | |token from to amt]; cbn [step]; try exact Hv.
  - destruct (dispatch this keccak256 msg c m) as [u m1| |] eqn:E;
      try exact Hv.
    exact (dispatch_valid _ _ _ _ _ Hwf Hv E).
  - destruct (erc20_transfer token from to amt (ledger m)); exact Hv.
Qed.

End Valid.

(** X21.  Every stored order is valid.  In any machine reached from
    deployment, every order slot below the id counter holds an order with
    non-zero [amountIn], non-zero [minAmountOut] and non-zero expiry; every
    slot at or above the counter is empty; and every id listed in a pool
    array is below the counter.  So a match never takes zero from the pool
    manager and never releases an empty escrow. *)
Theorem stored_orders_valid this keccak256 a pm w steps :
  let s := st (run this keccak256 (deployed a pm w) steps) in
  (∀ id, id < nextOrderId s → validOrder (orderAt s id)) ∧
  (∀ id, nextOrderId s ≤ id → orderAt s id = zeroOrder) ∧
  (∀ p id, id ∈ idsOf s p → id < nextOrderId s ∧ validOrder (orderAt s id)) ∧
  ∀ msg sender key params r m' id,
    beforeSwap this keccak256 msg sender key params
      (run this keccak256 (deployed a pm w) steps) = Ok r m' →
    id ∈ tradedIds
           (newLog (run this keccak256 (deployed a pm w) steps) m') →
    validOrder (orderAt s id).
Proof.
  intros s.
  assert (Hwf : wf s) by (apply run_wf, wf_constructor).
  assert (Hv : allValid s).
  { apply run_valid; [apply wf_constructor|].
    intros id Hid. cbn in Hid. lia. }
  assert (Hin : ∀ p id, id ∈ idsOf s p →
                        id < nextOrderId s ∧ validOrder (orderAt s id)).
  { intros p id Hid. apply (wf_agree _ Hwf) in Hid as [Hact _].
    pose proof (wf_active_lt _ _ Hwf Hact) as Hlt. split; [exact Hlt|].
    now apply Hv. }
  split; [exact Hv|]. split; [|split; [exact Hin|]].
  - intros id Hid. unfold orderAt. now rewrite (wf_fresh _ Hwf id Hid).
  - intros msg sender key params r m' id H Htr.
    destruct (beforeSwap_traded _ _ _ _ _ _ _ _ _ _ H Htr) as (Hsel & _).
    apply (selectMatch_Some _ _ _ _ _ _ Hwf) in Hsel as (Hid & _).
    now apply (Hin _ _ Hid).
Qed.

(** ** A match settles whenever the pool manager can pay *)

Lemma escrow_solvent this keccak256 keyOf m id key :
  (∀ k, keyOf (keccak256 k) = k) →
  escrowInv this keyOf m →
  active (orderAt (st m) id) = true →
  poolId (orderAt (st m) id) = keccak256 key →
  amountIn (orderAt (st m) id)
  ≤ balanceOf (ledger m) (tokenInOf key (sellToken0 (orderAt (st m) id))) this.
Proof.
  intros Hinj Hinv Hact Hpid.
  set (o := orderAt (st m) id) in *.
  set (tok := tokenInOf key (sellToken0 o)).
  pose proof (ei_sum _ _ _ Hinv tok) as Hsum. unfold custody in Hsum.
  pose proof (map_sum_ge (λ _ o, escrowOf keyOf tok o) (orders (st m)) id o
                (active_lookup _ _ Hact)) as Hge.
  cbn beta in Hge. fold (escrowed keyOf (st m) tok) in Hge.
  rewrite (escrowOf_active keccak256 keyOf Hinj tok o key Hact Hpid) in Hge.
  fold tok in Hge. rewrite N.eqb_refl in Hge.
  clear Hact Hpid. lia.
Qed.

(** X22.  The hook's side of a match never fails for lack of funds.  Under
    the assumptions of escrow conservation, take any machine reached from
    deployment on which the matching loop selects order [id] for a swap of
    a whitelisted sender with an amount in range.  If the pool manager
    holds the order's [minAmountOut] of the input currency, the tokens
    block none of the four accounts involved, and the escrow fits an
    [int128], then [beforeSwap] called by the pool manager succeeds,
    trades exactly [id], and returns the deltas [minAmountOut] and
    [- amountIn]. *)
Theorem match_always_settles this keccak256 keyOf a pm w steps msg sender key
    params id :
  (∀ k, keyOf (keccak256 k) = k) →
  pm ≠ this →
  (∀ tok, balanceOf w tok this = 0) →
  Forall (foreign this) steps →
  let m := run this keccak256 (deployed a pm w) steps in
  let o := orderAt (st m) id in
  let input := swapInput key params in
  let output := swapOutput key params in
  msg_sender msg = poolManager (st m) →
  isBot (st m) sender = true →
  (- INT128_MAX ≤ amountSpecified params < 0)%Z →
  selectMatch keccak256 (st m) msg key params = Some id →
  amountIn o < 2 ^ 127 →
  minAmountOut o ≤ balanceOf (ledger m) input (poolManager (st m)) →
  isFrozen (ledger m) input (poolManager (st m)) = false →
  isFrozen (ledger m) input (maker o) = false →
  isFrozen (ledger m) output this = false →
  isFrozen (ledger m) output (poolManager (st m)) = false →
  ∃ m', beforeSwap this keccak256 msg sender key params m
        = Ok (beforeSwap_selector,
              toBeforeSwapDelta (Z.of_N (minAmountOut o))
                                (- Z.of_N (amountIn o)), 0) m' ∧
        tradedIds (newLog m m') = [id] ∧
        active (orderAt (st m') id) = false.
Proof.
  intros Hinj Hpm Hzero Hsteps m o input output Hsender Hbot Hamt Hsel Hfit
    Hbal Hf1 Hf2 Hf3 Hf4.
  assert (Hinv : escrowInv this keyOf m).
  { apply (run_escrow this keccak256 keyOf Hinj); [|exact Hsteps].
    now apply escrowInv_deployed. }
  pose proof (ei_wf _ _ _ Hinv) as Hwf.
  destruct (selectMatch_Some _ _ _ _ _ _ Hwf Hsel) as (_ & Hact & Hpid & Hskip).
  apply skipOrder_false in Hskip as (_ & _ & Hside & Hmin). fold o in Hside, Hmin.
  assert (Hout : output = tokenInOf key (sellToken0 o)).
  { unfold output, swapOutput, tokenInOf.
    destruct (sellToken0 o), (zeroForOne params); congruence. }
  assert (Hmk : maker o ≠ this) by now apply (ei_makers _ _ _ Hinv).
  destruct (erc20_transfer_succeeds input (poolManager (st m)) (maker o)
              (minAmountOut o) (ledger m) Hf1 Hf2 Hbal) as [w1 Hw1].
  pose proof (erc20_transfer_frozen _ _ _ _ _ _ Hw1) as (_ & _ & Hfr).
  assert (Hsolvent : amountIn o ≤ balanceOf w1 output this).
  { rewrite (custody_other this _ _ _ _ _ _ output Hw1);
      [|apply (ei_pm _ _ _ Hinv)|exact Hmk].
    rewrite Hout. now apply (escrow_solvent this keccak256 keyOf). }
  destruct (erc20_transfer_succeeds output this (poolManager (st m))
              (amountIn o) w1) as [w2 Hw2];
    [unfold isFrozen; now rewrite Hfr..|exact Hsolvent|].
  assert (Hsmall : (amountIn o <? 2 ^ 127) = true) by now apply N.ltb_lt.
  assert (HminSmall : (minAmountOut o <? 2 ^ 127) = true).
  { apply N.ltb_lt. unfold INT128_MAX in Hamt.
    assert (0 < 2 ^ 127) by reflexivity. clear - Hmin Hamt H. lia. }
  eexists. split.
  - rewrite (beforeSwap_match_intro this keccak256 msg sender key params m
               id w1 w2); try assumption; fold o.
    + unfold int128_of_uint128. rewrite Hsmall, HminSmall. reflexivity.
    + lia.
    + unfold INT256_MIN, INT128_MAX in *. lia.
    + unfold INT128_MAX in *. lia.
    + unfold int128_of_uint128. rewrite Hsmall. unfold INT128_MIN. lia.
  - rewrite newLog_app. split; [reflexivity|]. cbn [st].
    now destruct (matchedState_facts (st m) (keccak256 key) id) as (? & _).
Qed.

Lemma match_always_settles_witness :
  ∃ m', beforeSwap Demo.hook packKey DemoMatch.swapMsg Demo.botB Demo.key
          DemoMatch.swapParams
          (run Demo.hook packKey (deployed Demo.adm Demo.pm Demo.world)
             DemoMore.postSteps)
        = Ok (beforeSwap_selector, toBeforeSwapDelta 95 (-100), 0) m' ∧
        active (orderAt (st m') 0) = false.
Proof.
  destruct (match_always_settles Demo.hook packKey unpackKey Demo.adm Demo.pm
              Demo.world DemoMore.postSteps DemoMatch.swapMsg Demo.botB
              Demo.key DemoMatch.swapParams 0) as (m' & H1 & _ & H3).
  - exact unpackKey_packKey.
  - vm_compute. discriminate.
  - intros tok. unfold balanceOf, Demo.world. cbn [balances].
    destruct (list_to_map _ !! (tok, Demo.hook)) as [v|] eqn:E;
      [|reflexivity].
    exfalso. apply elem_of_list_to_map_2 in E.
    repeat (apply elem_of_cons in E as [E|E]; [discriminate E|]).
    now apply elem_of_nil in E.
  - repeat constructor; cbn; try discriminate.
  - vm_compute; reflexivity.
  - vm_compute; reflexivity.
  - split; vm_compute; [discriminate|reflexivity].
  - vm_compute; reflexivity.
  - vm_compute; reflexivity.
  - vm_compute. discriminate.
  - vm_compute; reflexivity.
  - vm_compute; reflexivity.
  - vm_compute; reflexivity.
  - vm_compute; reflexivity.
  - assert (E1 : minAmountOut
                   (orderAt (st (run Demo.hook packKey
                                   (deployed Demo.adm Demo.pm Demo.world)
                                   DemoMore.postSteps)) 0) = 95)
      by (vm_compute; reflexivity).
    assert (E2 : amountIn
                   (orderAt (st (run Demo.hook packKey
                                   (deployed Demo.adm Demo.pm Demo.world)
                                   DemoMore.postSteps)) 0) = 100)
      by (vm_compute; reflexivity).
    rewrite E1, E2 in H1. exists m'. split; [exact H1|exact H3].
Defined.

(** ** What a purge pays or credits *)

Lemma owed_app key s owner tok l k :
  owed key s owner tok (l ++ k)
  = owed key s owner tok l + owed key s owner tok k.
Proof. induction l as [|x l IH]; cbn [owed app]; [reflexivity|]. rewrite IH. lia. Qed.

Section PurgeAccounting.

Variable this : address.

Variable msg : Msg.

Variable key : PoolKey.

Variable pid : bytes32.

Variable maxPurge : uint256.

Variable m0 : Machine.

Hypothesis Hwf0 : wf (st m0).

Lemma purgeAccounts_init : purgeAccounts this key m0 m0.
Proof.
  intros owner tok _. rewrite newLog_same. cbn. lia.
Qed.

Lemma purgeAccounts_purge i purged m a m' :
  purgeInv msg key pid maxPurge m0 i purged m →
  purgeAccounts this key m0 m →
  (i < length (idsOf (st m) pid))%nat →
  purgeOne this key pid i m = Ok a m' →
  purgeAccounts this key m0 m'.
Proof.
  intros (done & Hp & _) Hacc Hi Hone owner tok Howner.
  destruct (lookup_lt_is_Some_2 _ _ Hi) as [oid Hoid].
  apply purgeOne_ok_inv in Hone. rewrite Hoid in Hone.
  cbn [default from_option id] in Hone.
  destruct (progress_disjoint msg key pid m0 Hwf0 _ _ Hp) as [_ Hdisj].
  assert (Hin : oid ∈ idsOf (st m) pid) by (eapply list_elem_of_lookup_2; eauto).
  pose proof (pp_rest _ _ _ _ _ _ Hp oid (Hdisj oid Hin)) as Hsame.
  destruct (pp_log _ _ _ _ _ _ Hp) as (L & HL & _ & _).
  specialize (Hacc owner tok Howner).
  set (o := orderAt (st m) oid) in *.
  set (token := tokenInOf key (sellToken0 o)) in *.
  assert (Hnew : ∀ s' w' L',
            expiredIds L' = [oid] →
            expiredIds (newLog m0 (mkMachine s' w' (log m ++ L')))
            = expiredIds (newLog m0 m) ++ [oid]).
  { intros s' w' L' HL'. unfold newLog. cbn [log]. rewrite HL.
    rewrite <- app_assoc, !drop_app_length.
    unfold expiredIds in *. now rewrite omap_app, HL'. }
  assert (Howed : owed key (st m0) owner tok [oid]
                  = if (token =? tok) && (maker o =? owner)
                    then amountIn o else 0).
  { cbn [owed]. unfold refundOf. rewrite <- Hsame. fold o token. lia. }
  assert (Hunc : unclaimedOf (purgedState pid i (st m)) owner tok
                 = unclaimedOf (st m) owner tok) by reflexivity.
  destruct Hone as [(w' & Hw & ->)|(_ & _ & ->)].
  - erewrite Hnew by reflexivity. rewrite owed_app, Howed.
    unfold holdings in *. cbn [st ledger]. rewrite Hunc.
    pose proof (erc20_transfer_balance _ _ _ _ _ _ Hw) as [_ Hbal].
    specialize (Hbal tok owner).
    destruct (decide ((tok, owner) = (token, this))) as [Heq|_];
      [congruence|].
    destruct (decide ((tok, owner) = (token, maker o))) as [Heq|Hneq].
    + injection Heq as -> ->. rewrite !N.eqb_refl. cbn [andb].
      clear - Hbal Hacc. lia.
    + assert ((token =? tok) && (maker o =? owner) = false) as ->.
      { apply andb_false_iff.
        destruct (N.eqb_spec token tok) as [->|]; [|now left]. right.
        apply N.eqb_neq. congruence. }
      clear - Hbal Hacc. lia.
  - erewrite Hnew by reflexivity. rewrite owed_app, Howed.
    unfold holdings in *. cbn [st ledger].
    unfold creditUnclaimed, unclaimedOf at 1, setUnclaimed.
    cbn [unclaimedBalances set_unclaimedBalances].
    destruct (decide ((maker o, token) = (owner, tok))) as [Heq|Hneq].
    + injection Heq as <- <-. rewrite lookup_insert_eq, !N.eqb_refl.
      cbn [andb default from_option id]. rewrite Hunc.
      clear - Hacc. lia.
    + rewrite lookup_insert_ne by exact Hneq.
      fold (unclaimedOf (purgedState pid i (st m)) owner tok). rewrite Hunc.
      assert ((token =? tok) && (maker o =? owner) = false) as ->.
      { apply andb_false_iff.
        destruct (N.eqb_spec token tok) as [->|]; [|now left]. right.
        apply N.eqb_neq. congruence. }
      clear - Hacc. lia.
Qed.

End PurgeAccounting.

(** X23.  A purge pays or credits every escrow it releases.  In every machine
    reached from deployment, after a successful [purgeExpiredOrders], for
    every account other than the hook and every token, what the account
    holds of the token plus what it can claim of it from the hook has
    grown by exactly the escrows of the purged orders of which the
    account is the maker and the token the one sold; for every other
    account and token the sum is unchanged. *)
Theorem purge_refunds_or_credits this keccak256 a pm w steps msg key maxPurge
    u m' :
  let m0 := run this keccak256 (deployed a pm w) steps in
  purgeExpiredOrders this keccak256 msg key maxPurge m0 = Ok u m' →
  ∀ owner tok, owner ≠ this →
    holdings m' owner tok
    = holdings m0 owner tok
      + owed key (st m0) owner tok (expiredIds (newLog m0 m')).
Proof.
  intros m0 H.
  assert (Hwf : wf (st m0)) by (apply run_wf, wf_constructor).
  unfold purgeExpiredOrders in H.
  apply bind_ok_inv in H as (s & m1 & H1 & H). injection H1 as <- <-.
  apply (purgeLoop_inv this msg key (keccak256 key) maxPurge
           (λ i purged m,
              purgeInv msg key (keccak256 key) maxPurge m0 i purged m ∧
              purgeAccounts this key m0 m)) in H.
  - now destruct H as (_ & _ & [_ H] & _).
  - intros i purged m1 u1 m2 [Hinv Hacc] Hi Hlt Hpg Hone. split.
    + eapply purgeInv_purge; eauto.
    + eapply purgeAccounts_purge; eauto.
  - intros i purged m1 [Hinv Hacc] Hi Hlt Hpg. split; [|exact Hacc].
    eapply purgeInv_skip; eauto.
  - split; [now apply purgeInv_init|apply purgeAccounts_init].
Qed.

Lemma purge_refunds_or_credits_witness :
  unclaimedOf (st DemoFrozen.purged) Demo.botA Demo.tokA = 100 ∧
  holdings DemoFrozen.purged Demo.botA Demo.tokA
  = holdings (run Demo.hook packKey (deployed Demo.adm Demo.pm Demo.world)
                DemoFrozen.steps) Demo.botA Demo.tokA
    + owed Demo.key
        (st (run Demo.hook packKey (deployed Demo.adm Demo.pm Demo.world)
               DemoFrozen.steps)) Demo.botA Demo.tokA
        (expiredIds
           (newLog (run Demo.hook packKey
                      (deployed Demo.adm Demo.pm Demo.world) DemoFrozen.steps)
              DemoFrozen.purged)).
Proof.
  split; [vm_compute; reflexivity|].
  apply (purge_refunds_or_credits Demo.hook packKey Demo.adm Demo.pm Demo.world
           DemoFrozen.steps DemoFrozen.purgeMsg Demo.key 10 tt
           DemoFrozen.purged).
  - vm_compute; reflexivity.
  - vm_compute. discriminate.
Defined.

(** ** The event log tells the order book *)

Lemma postedIds_app l k : postedIds (l ++ k) = postedIds l ++ postedIds k.
Proof. apply omap_app. Qed.

Lemma releasedIds_app l k :
  releasedIds (l ++ k) = releasedIds l ++ releasedIds k.
Proof. apply omap_app. Qed.

(** A call that appends neither a post nor a release and leaves the
    orders and the counter alone keeps the invariant. *)
Lemma logInv_frame m s' w' L :
  logInv m →
  orders s' = orders (st m) → nextOrderId s' = nextOrderId (st m) →
  postedIds L = [] → releasedIds L = [] →
  logInv (mkMachine s' w' (log m ++ L)).
Proof.
  intros [H1 H2 H3 H4] Ho Hn HP HR. split; cbn [st log];
    rewrite ?postedIds_app, ?releasedIds_app, ?HP, ?HR, ?app_nil_r, ?Hn;
    try assumption.
  intros x. unfold orderAt. rewrite Ho. apply H4.
Qed.

(** Releasing an active order, with one release event in the log. *)
Lemma logInv_release m pid id w' L :
  logInv m → wf (st m) →
  active (orderAt (st m) id) = true →
  postedIds L = [] → releasedIds L = [id] →
  logInv (mkMachine (matchedState pid id (st m)) w' (log m ++ L)).
Proof.
  intros [H1 H2 H3 H4] Hwf Hact HP HR.
  pose proof (wf_active_lt _ _ Hwf Hact) as Hlt.
  destruct (matchedState_facts (st m) pid id) as (Hoff & Hother & Hnext & _).
  split; cbn [st log];
    rewrite ?postedIds_app, ?releasedIds_app, ?HP, ?HR, ?app_nil_r, ?Hnext;
    try assumption.
  - apply NoDup_app. split; [exact H3|]. split; [|apply NoDup_singleton].
    intros x Hx Hx'. apply list_elem_of_singleton in Hx'. subst x.
    apply H4 in Hx as [_ Hx]. congruence.
  - intros x. rewrite elem_of_app, list_elem_of_singleton.
    destruct (decide (x = id)) as [->|Hne].
    + split; auto.
    + rewrite (Hother x Hne), (H4 x). split; [|auto].
      intros [?|?]; [assumption|contradiction].
Qed.

Section LogRuns.

Variable this : address.

Variable keccak256 : PoolKey → bytes32.

(** The purge appends release events for the ids it expires and nothing
    else that concerns the order book. *)
Lemma purgeOne_log key pid i m a m' :
  purgeOne this key pid i m = Ok a m' →
  ∃ L, log m' = log m ++ L ∧ postedIds L = [] ∧
       releasedIds L = expiredIds L.
Proof.
  intros H. apply purgeOne_ok_inv in H as [(w' & _ & ->)|(_ & _ & ->)];
    eexists; (split; [reflexivity|split; reflexivity]).
Qed.

Lemma purge_log msg key maxPurge m a m' :
  purgeExpiredOrders this keccak256 msg key maxPurge m = Ok a m' →
  postedIds (newLog m m') = [] ∧
  releasedIds (newLog m m') = expiredIds (newLog m m').
Proof.
  intros H. unfold purgeExpiredOrders in H.
  apply bind_ok_inv in H as (s & m1 & H1 & H). injection H1 as <- <-.
  apply (purgeLoop_inv this msg key (keccak256 key) maxPurge
           (λ _ _ m1, ∃ L, log m1 = log m ++ L ∧ postedIds L = [] ∧
                           releasedIds L = expiredIds L)) in H.
  - destruct H as (_ & _ & (L & HL & HP & HR) & _).
    unfold newLog. rewrite HL, drop_app_length. auto.
  - intros i purged m1 u m2 (L & HL & HP & HR) _ _ _ Hone.
    apply purgeOne_log in Hone as (L' & HL' & HP' & HR').
    exists (L ++ L'). rewrite HL', HL, <- app_assoc. split; [reflexivity|].
    unfold expiredIds in *.
    rewrite postedIds_app, releasedIds_app, omap_app, HP, HP', HR, HR'.
    auto.
  - auto.
  - exists []. rewrite app_nil_r. auto.
Qed.

Lemma dispatch_logInv msg c m a m' :
  wf (st m) → logInv m →
  dispatch this keccak256 msg c m = Ok a m' → logInv m'.
Proof.
  intros Hwf Hinv H.
  assert (Hself : logInv (mkMachine (st m) (ledger m) (log m ++ []))).
  { now apply logInv_frame. }
  rewrite app_nil_r in Hself.
  assert (Hm : mkMachine (st m) (ledger m) (log m) = m) by now destruct m.
  rewrite Hm in Hself. clear Hm.
  destruct c; cbn [dispatch] in H.
  - unfold addBot, onlyAdmin in H. minv. now apply (logInv_frame m).
  - unfold removeBot, onlyAdmin in H. minv. now apply (logInv_frame m).
  - unfold setAdmin, onlyAdmin in H. minv. now apply (logInv_frame m).
  - unfold acceptAdmin in H. minv. cbn [st ledger log].
    now apply (logInv_frame m).
  - minv. match goal with H : postOrder _ _ _ _ _ _ _ _ _ = _ |- _ =>
      apply postOrder_ok_inv in H as (_ & _ & _ & _ & _ & -> & _ & w' & _ & ->)
    end.
    destruct Hinv as [H1 H2 H3 H4].
    set (oid := nextOrderId (st m)).
    split; cbn [st log]; rewrite ?postedIds_app, ?releasedIds_app;
      cbn [postedIds releasedIds omap list_omap postedIdOf releasedIdOf];
      rewrite ?app_nil_r; unfold postedState; fold oid.
    + intros y. rewrite elem_of_app, list_elem_of_singleton, H1. cbn.
      fold oid. clear. lia.
    + apply NoDup_app. split; [exact H2|]. split; [|apply NoDup_singleton].
      intros y Hy Hy'. apply list_elem_of_singleton in Hy'. subst y.
      apply H1 in Hy. unfold oid in Hy. lia.
    + exact H3.
    + intros y. cbn [nextOrderId set_poolOrders setIds setOrder set_orders
                     set_nextOrderId].
      change (orderAt (setIds ?p ?l (setOrder ?i ?o (set_nextOrderId ?n ?s))) y)
        with (orderAt (setOrder i o s) y).
      rewrite orderAt_setOrder, H4. fold oid.
      destruct (decide (oid = y)) as [<-|Hne]; cbn [active].
      * split; [lia|]. intros [_ ?]. discriminate.
      * split; intros [? ?]; (split; [lia|assumption]).
  - apply cancelOrder_ok_inv in H as (_ & _ & Hact & _ & w' & _ & ->).
    now apply logInv_release.
  - minv. match goal with H : beforeSwap _ _ _ _ _ _ _ = _ |- _ =>
      apply beforeSwap_ok_inv in H as [_ [(_ & -> & _)|
        (id' & w1 & w2 & _ & _ & _ & Hsel & _ & _ & _ & _ & ->)]]
    end; [exact Hself|].
    apply (selectMatch_Some _ _ _ _ _ _ Hwf) in Hsel as (_ & Hact & _).
    now apply logInv_release.
  - unfold afterSwap, onlyPoolManager in H. minv. exact Hself.
  - pose proof (purge_log _ _ _ _ _ _ H) as [HP HR].
    apply (purge_spec _ _ _ _ _ _ _ _ Hwf) in H as (done & Hp & Hnd & _).
    destruct (pp_log _ _ _ _ _ _ Hp) as (L & HL & HeL & _).
    assert (newLog m m' = L) as HnL.
    { unfold newLog. rewrite HL. apply drop_app_length. }
    rewrite HnL in HP, HR. rewrite HeL in HR.
    destruct Hinv as [H1 H2 H3 H4].
    assert (Hdone : ∀ y, y ∈ done →
              y < nextOrderId (st m) ∧ active (orderAt (st m) y) = true).
    { intros y Hy. destruct (pp_done _ _ _ _ _ _ Hp y Hy) as [Hpg _].
      unfold purgeable in Hpg. apply andb_true_iff in Hpg as [Hact _].
      split; [now apply wf_active_lt|exact Hact]. }
    split; rewrite HL, ?postedIds_app, ?releasedIds_app, ?HP, ?HR,
      ?app_nil_r, ?(pp_next _ _ _ _ _ _ Hp); try assumption.
    + apply NoDup_app. split; [exact H3|]. split; [|exact Hnd].
      intros y Hy Hy'. apply H4 in Hy as [_ Hy].
      apply Hdone in Hy' as [_ Hy']. congruence.
    + intros y. rewrite elem_of_app, H4.
      destruct (decide (y ∈ done)) as [Hd|Hd].
      * destruct (pp_done _ _ _ _ _ _ Hp y Hd) as [_ ->].
        destruct (Hdone y Hd) as [Hlt _]. cbn. split; auto.
      * rewrite (pp_rest _ _ _ _ _ _ Hp y Hd). split; [|auto].
        intros [?|?]; [assumption|contradiction].
  - apply claimRefund_ok_inv in H as (_ & w' & _ & ->).
    now apply (logInv_frame m).
  - discriminate H.
Qed.

Lemma run_logInv steps : ∀ m,
  wf (st m) → logInv m → logInv (run this keccak256 m steps).
Proof.
  induction steps as [|x steps IH]; intros m Hwf Hinv; [exact Hinv|].
  change (run this keccak256 m (x :: steps))
    with (run this keccak256 (step this keccak256 m x) steps).
  apply IH; [now apply step_wf|].
  assert (Hsame : ∀ w', logInv (mkMachine (st m) w' (log m))).
  { intros w'. rewrite <- (app_nil_r (log m)). now apply logInv_frame. }
  destruct x as [msg c| | |token from to amt]; cbn [step];
    try apply Hsame.
  - destruct (dispatch this keccak256 msg c m) as [u m1| |] eqn:E;
      try exact Hinv.
    exact (dispatch_logInv _ _ _ _ _ Hwf Hinv E).
  - destruct (erc20_transfer token from to amt (ledger m));
      [apply Hsame|exact Hinv].
Qed.

End LogRuns.

(** X24.  The event log tells the order book.  In every machine reached from
    deployment, with the log empty at deployment: an [OrderPosted] event
    was logged for exactly the ids below [nextOrderId], once each; no id
    has two release events ([OrderCancelled], [P2PTrade], [OrderExpired]),
    so no order is released twice or in two ways; the released ids are
    exactly the existing orders that are inactive; and an order is active
    exactly when the log holds its post and no release of it. *)
Theorem log_reflects_book this keccak256 a pm w steps :
  let m := run this keccak256 (deployed a pm w) steps in
  (∀ id, id ∈ postedIds (log m) ↔ id < nextOrderId (st m)) ∧
  NoDup (postedIds (log m)) ∧
  NoDup (releasedIds (log m)) ∧
  (∀ id, id ∈ releasedIds (log m)
         ↔ id < nextOrderId (st m) ∧ active (orderAt (st m) id) = false) ∧
  (∀ id, active (orderAt (st m) id) = true
         ↔ id ∈ postedIds (log m) ∧ id ∉ releasedIds (log m)).
Proof.
  intros m.
  assert (Hwf : wf (st m)) by (apply run_wf, wf_constructor).
  assert (Hinv : logInv m).
  { apply run_logInv; [apply wf_constructor|]. split; cbn.
    - intros id. split; [intros H; now apply elem_of_nil in H|lia].
    - constructor.
    - constructor.
    - intros id. split; [intros H; now apply elem_of_nil in H|].
      intros [? _]. lia. }
  destruct Hinv as [H1 H2 H3 H4].
  split; [exact H1|]. split; [exact H2|]. split; [exact H3|].
  split; [exact H4|].
  intros id. rewrite H1, H4. split.
  - intros Hact. split; [now apply wf_active_lt|]. intros [_ ?]. congruence.
  - intros [Hlt Hnot]. destruct (active (orderAt (st m) id)); [reflexivity|].
    exfalso. apply Hnot. auto.
Qed.
